(** * Equilibria, stability, branch tracking and bifurcation detection
      of the scalar bifurcation tool [bifurcaciones_1.py].

    Python floats are modelled by exact rationals [Q], except in the
    automatic sample count [_auto_steps], whose rounding to binary64 is
    written out ([round_double], [fl]); a float that may be infinite or NaN
    is a [PyFloat], and one that may only be NaN (the [x] entries of a
    branch, the cells of the distance matrix) an [option Q] with [None] for
    NaN.  Code that may raise returns a [Res]: [Ok] with the value, or
    [Raise] with the exception that propagates, until a [try] catches it.
    The symbolic side (sympy's [Poly], [nsolve], [subs]/[evalf]) is the
    scalar field's own data, a record of evaluators; numpy's [roots] is a
    section variable. *)

From Stdlib Require Import String Ascii.
From Stdlib Require Import QArith Qpower Qabs Qminmax Qround List ZArith Lia Sorted Permutation Lqa.
Import ListNotations.
Open Scope Q_scope.

(** ** Generic list helpers *)

(** Python's [l.pop(i)] (used for [unmatched_prev.pop(i_min)]). *)
Fixpoint remove_nth {A} (i : nat) (l : list A) : list A :=
  match l, i with
  | [], _ => []
  | _ :: l', O => l'
  | a :: l', S i' => a :: remove_nth i' l'
  end.

(** [l[i] = f(l[i])]; out of range the list is unchanged (never happens in
    the tracker: indices come from [range(len(branches))]). *)
Fixpoint update_nth {A} (i : nat) (f : A -> A) (l : list A) : list A :=
  match l, i with
  | [], _ => []
  | a :: l', O => f a :: l'
  | a :: l', S i' => a :: update_nth i' f l'
  end.

(** [l[-1] = v]. *)
Fixpoint set_last {A} (v : A) (l : list A) : list A :=
  match l with
  | [] => []
  | [_] => [v]
  | a :: l' => a :: set_last v l'
  end.

(** Float comparison [x < y] on non-NaN values. *)
Definition Qltb (x y : Q) : bool := negb (Qle_bool y x).
Arguments Qltb : simpl never.

(** ** Sorting ([sorted]) on rationals: insertion sort, stable. *)

Fixpoint insertQ (x : Q) (l : list Q) : list Q :=
  match l with
  | [] => [x]
  | y :: l' => if Qle_bool x y then x :: y :: l' else y :: insertQ x l'
  end.

Fixpoint sortQ (l : list Q) : list Q :=
  match l with
  | [] => []
  | x :: l' => insertQ x (sortQ l')
  end.

(** ** Root finder (lines 31-89) *)

(** [unique_sorted(vals, tol)]: sort, then keep [v] when
    [abs(v - out[-1]) > tol]. *)
Fixpoint dedup_from (tol last : Q) (vs : list Q) : list Q :=
  match vs with
  | [] => []
  | v :: vs' =>
      if Qltb tol (Qabs (v - last))
      then v :: dedup_from tol v vs'
      else dedup_from tol last vs'
  end.

Definition unique_sorted (tol : Q) (vals : list Q) : list Q :=
  match sortQ vals with
  | [] => []
  | v :: vs => v :: dedup_from tol v vs
  end.

(** [0.0 if abs(x) < 1e-10 else x]. *)
Definition clamp0 (x : Q) : Q :=
  if Qltb (Qabs x) 0.0000000001 then 0 else x.

(** [np.linspace(a, b, n)]: [a + i*step] for [i < n-1], then [b]. *)
Definition linspace (a b : Q) (n : nat) : list Q :=
  match n with
  | O => []
  | S O => [a]
  | S m =>
      map (fun i => a + inject_Z (Z.of_nat i) * ((b - a) / inject_Z (Z.of_nat m)))
          (seq 0 m) ++ [b]
  end.

(** ** Python values and exceptions *)

(** Python floats. *)
Inductive PyFloat := Fin (q : Q) | Inf (pos : bool) | NaN.

Definition isfinite (v : PyFloat) : bool :=
  match v with Fin _ => true | _ => false end.

(** The exceptions raised by the modelled code: [float()] of a complex or
    symbolic value ([TypeError]), [max()] of an empty list ([ValueError]),
    [int()] of an infinity ([OverflowError]), numpy's eigenvalue routine on
    a non-finite matrix ([LinAlgError]), an index out of range
    ([IndexError]), and any other exception by name. *)
Inductive PyExc :=
| TypeError | ValueError | OverflowError | LinAlgError | IndexError
| OtherExc (name : string).

(** A Python computation: a value or a raised exception. *)
Inductive Res (A : Type) := Ok (a : A) | Raise (e : PyExc).
Arguments Ok {A} a.
Arguments Raise {A} e.

(** Sequencing: an exception propagates, as it does through Python code
    without [try]. *)
Definition res_bind {A B} (m : Res A) (k : A -> Res B) : Res B :=
  match m with
  | Ok a => k a
  | Raise e => Raise e
  end.

Notation "'let*' x ':=' m 'in' k" := (res_bind m (fun x => k))
  (at level 200, x name, m at level 100, k at level 200).

(** A [for] loop whose body returns nothing: the first exception stops it. *)
Fixpoint py_for {A} (body : A -> Res unit) (l : list A) : Res unit :=
  match l with
  | [] => Ok tt
  | a :: l' =>
      match body a with
      | Ok _ => py_for body l'
      | Raise e => Raise e
      end
  end.

(** ** Root finder: coefficients, [np.roots] and [find_equilibria] *)

(** The sympy expression [f_expr], seen through the three operations the
    root finder applies to it, at a fixed parameter value [r]:
    - [poly_coeffs r]: [sp.Poly(f_expr, x).all_coeffs()] substituted at
      [r], evaluated by [sp.N] and converted by [complex(c)], real parts
      kept as Python floats; [None] when [sp.Poly] fails, the polynomial is
      not univariate or a coefficient does not convert.  A coefficient that
      evaluates to complex infinity ([zoo], e.g. [1/r] at [r = 0]) converts
      to [complex(nan, nan)], so its real part is [NaN]; [oo] gives [inf];
    - [nsolve_pt r s]: [float(sp.nsolve(f_expr.subs(r), s, tol=1e-14,
      maxsteps=100))], [None] when it raises;
    - [nsolve_br r s s2]: the same with the bracket [(s, s2)]. *)
Record Field := mkField {
  poly_coeffs : Q -> option (list PyFloat);
  nsolve_pt : Q -> Q -> option Q;
  nsolve_br : Q -> Q -> Q -> option Q
}.

(** [np.allclose(cs, 0)]: every [|c| <= atol = 1e-8]; an infinity or a NaN
    is never close to [0]. *)
Definition allclose0 (cs : list PyFloat) : bool :=
  forallb (fun c => match c with
                    | Fin q => Qle_bool (Qabs q) 0.00000001
                    | _ => false
                    end) cs.

(** The coefficients as rationals when all are finite. *)
Fixpoint fin_list (cs : list PyFloat) : option (list Q) :=
  match cs with
  | [] => Some []
  | Fin q :: cs' =>
      match fin_list cs' with
      | Some qs => Some (q :: qs)
      | None => None
      end
  | _ :: _ => None
  end.

(** [NX.nonzero] sees a zero only in a finite [0.0]. *)
Definition py_is_zero (c : PyFloat) : bool :=
  match c with Fin q => Qeq_bool q 0 | _ => false end.

Fixpoint drop_zeros (cs : list PyFloat) : list PyFloat :=
  match cs with
  | c :: cs' => if py_is_zero c then drop_zeros cs' else cs
  | [] => []
  end.

Definition is_inf (c : PyFloat) : bool :=
  match c with Inf _ => true | _ => false end.

Section RootFinder.

(** [np.roots] on finite coefficients: the (complex) roots, as (real part,
    imaginary part), of the polynomial with the given coefficients, highest
    degree first. *)
Variable np_roots : list Q -> list (Q * Q).

(** [np.roots(p)] on coefficients that may be infinite or NaN.  numpy strips
    the leading and trailing zeros ([trailing_zeros] roots [0]); for a
    stripped polynomial of length [N > 1] it builds the companion matrix
    with first row [-p[1:] / p[0]] and calls [eigvals], which raises
    [LinAlgError] ("Array must not contain infs or NaNs") when an entry is
    not finite.  The row is finite only when [p[0]] is infinite and the
    other coefficients are finite: it is then zero, and the companion
    matrix is triangular with eigenvalues [0]. *)
Definition np_roots_checked (cs : list PyFloat) : Res (list (Q * Q)) :=
  match fin_list cs with
  | Some qs => Ok (np_roots qs)
  | None =>
      let p := drop_zeros cs in
      let rp := drop_zeros (rev p) in
      let trailing_zeros := (length p - length rp)%nat in
      match rev rp with
      | p0 :: ((_ :: _) as rest) =>
          if is_inf p0 && forallb isfinite rest
          then Ok (repeat (0, 0) (length rest + trailing_zeros))
          else Raise LinAlgError
      | _ => Ok (repeat (0, 0) trailing_zeros)
      end
  end.

(** [poly_roots_real]: [Ok None] is the function's [None] (not a
    polynomial, or all coefficients close to [0]); [np.roots] is outside
    any [try], so its [LinAlgError] propagates. *)
Definition poly_roots_real (F : Field) (r_val : Q) : Res (option (list Q)) :=
  match poly_coeffs F r_val with
  | None => Ok None
  | Some cs =>
      if allclose0 cs then Ok None
      else
        match np_roots_checked cs with
        | Raise e => Raise e
        | Ok roots =>
            let real_roots :=
              map fst (filter (fun z => Qltb (Qabs (snd z)) 0.000000001) roots) in
            let real_roots := map clamp0 real_roots in
            Ok (Some (unique_sorted 0.000001 real_roots))
        end
  end.

Definition in_window (x_min x_max sol : Q) : bool :=
  Qle_bool (x_min - 0.000001) sol && Qle_bool sol (x_max + 0.000001).

(** The body of the [for s in seeds] loop: the roots appended for seed [s]. *)
Definition nsolve_seed (F : Field) (r_val x_min x_max : Q) (n_seeds : nat) (s : Q)
  : list Q :=
  match nsolve_pt F r_val s with
  | Some sol => if in_window x_min x_max sol then [sol] else []
  | None =>
      let s2 := s + (x_max - x_min) / (inject_Z (Z.of_nat n_seeds) * 3) in
      match nsolve_br F r_val s s2 with
      | Some sol => if in_window x_min x_max sol then [sol] else []
      | None => []
      end
  end.

(** [nsolve_roots]: every call that may raise is inside a [try]. *)
Definition nsolve_roots (F : Field) (r_val x_min x_max : Q) (n_seeds : nat)
  : list Q :=
  let roots := flat_map (nsolve_seed F r_val x_min x_max n_seeds)
                        (linspace x_min x_max n_seeds) in
  let roots := unique_sorted 0.0001 roots in
  map clamp0 roots.

Definition find_equilibria (F : Field) (r_val x_min x_max : Q) : Res (list Q) :=
  match poly_roots_real F r_val with
  | Raise e => Raise e
  | Ok (Some roots) => Ok roots
  | Ok None => Ok (nsolve_roots F r_val x_min x_max 31)
  end.

(** ** Bifurcation classifier (lines 540-617) *)

(** The labels returned by [_analyze_bifurcation_at_point]. *)
Inductive BifType :=
| Horquilla | Transcritica | SillaNodo
| Aparicion | Desaparicion | CambioEstabilidad | NoClasificada.

Definition bif_label (t : BifType) : String.string :=
  match t with
  | Horquilla => "Bifurcación horquilla (pitchfork)"
  | Transcritica => "Bifurcación transcrítica"
  | SillaNodo => "Bifurcación silla-nodo"
  | Aparicion => "Aparición de equilibrios"
  | Desaparicion => "Desaparición de equilibrios"
  | CambioEstabilidad => "Cambio de estabilidad"
  | NoClasificada => "Bifurcación no clasificada"
  end%string.

(** Python's [sum(l)], starting from [0]. *)
Definition sumQ (l : list Q) : Q := fold_left Qplus l 0.

(** The transcritical test on the sorted equilibria: the outermost distance
    or the center of mass moves by more than [0.001]. *)
Definition transcritical_shift (eq_before eq_after : list Q) : bool :=
  let eq_before_sorted := sortQ eq_before in
  let eq_after_sorted := sortQ eq_after in
  let dist_before := Qabs (last eq_before_sorted 0 - hd 0 eq_before_sorted) in
  let dist_after := Qabs (last eq_after_sorted 0 - hd 0 eq_after_sorted) in
  let center_before :=
    sumQ eq_before_sorted / inject_Z (Z.of_nat (length eq_before_sorted)) in
  let center_after :=
    sumQ eq_after_sorted / inject_Z (Z.of_nat (length eq_after_sorted)) in
  Qltb 0.001 (Qabs (center_before - center_after))
  || Qltb 0.001 (Qabs (dist_before - dist_after)).

(** [_analyze_bifurcation_at_point]; [x_min], [x_max] are the application's
    window ([self.x_min], [self.x_max]).  The whole body is a [try]: when
    one of the three calls of [find_equilibria] raises, the [except]
    returns ["Bifurcación no clasificada"]. *)
Definition analyze_bifurcation_at_point (F : Field) (x_min x_max : Q)
    (r_bif r_before r_after : Q) : BifType :=
  match find_equilibria F r_before x_min x_max,
        find_equilibria F r_bif x_min x_max,
        find_equilibria F r_after x_min x_max with
  | Ok eq_before, Ok eq_at, Ok eq_after =>
      let n_before := length eq_before in
      let n_at := length eq_at in
      let n_after := length eq_after in
      if ((n_before =? 1) && (n_after =? 3)) || ((n_before =? 3) && (n_after =? 1))
      then Horquilla
      else if (n_before =? n_after) && (2 <=? n_before)
              && (2 <=? length eq_before) && (2 <=? length eq_after)
              && transcritical_shift eq_before eq_after
      then Transcritica
      else if ((n_after <? n_before) && (1 <=? n_before - n_after))
              || ((n_before <? n_after) && (1 <=? n_after - n_before))
      then SillaNodo
      else if n_before <? n_after then Aparicion
      else if n_after <? n_before then Desaparicion
      else CambioEstabilidad
  | _, _, _ => NoClasificada
  end.

(** The decision chain of [_analyze_bifurcation_at_point] on the counts
    [n_before], [n_after] and the outcome of the transcritical test. *)
Definition classify_counts (n_before n_after : nat) (shift : bool) : BifType :=
  if ((n_before =? 1) && (n_after =? 3)) || ((n_before =? 3) && (n_after =? 1))
  then Horquilla
  else if (n_before =? n_after) && (2 <=? n_before)
          && (2 <=? n_before) && (2 <=? n_after) && shift
  then Transcritica
  else if ((n_after <? n_before) && (1 <=? n_before - n_after))
          || ((n_before <? n_after) && (1 <=? n_after - n_before))
  then SillaNodo
  else if n_before <? n_after then Aparicion
  else if n_after <? n_before then Desaparicion
  else CambioEstabilidad.

(** [_detect_bifurcation_type]: one candidate per adjacent pair whose
    equilibrium counts differ, kept when its label is a non-empty string. *)
Fixpoint detect_bifurcation_type (F : Field) (x_min x_max : Q)
    (r_values : list Q) (equilibria_list : list (list Q)) : list (Q * BifType) :=
  match r_values, equilibria_list with
  | r_curr :: ((r_next :: _) as rs'), eq_curr :: ((eq_next :: _) as eqs') =>
      let rest := detect_bifurcation_type F x_min x_max rs' eqs' in
      if negb (length eq_curr =? length eq_next) then
        let r_bif := (r_curr + r_next) / 2 in
        let bif_type := analyze_bifurcation_at_point F x_min x_max r_bif r_curr r_next in
        if negb (String.eqb (bif_label bif_type) ""%string) then (r_bif, bif_type) :: rest
        else rest
      else rest
  | _, _ => []
  end.

(** A loop [for rv in Rs: eq = find_equilibria(...)] collecting the lists;
    the first exception propagates. *)
Fixpoint sweep_equilibria (F : Field) (x_min x_max : Q) (Rs : list Q)
  : Res (list (list Q)) :=
  match Rs with
  | [] => Ok []
  | rv :: Rs' =>
      match find_equilibria F rv x_min x_max with
      | Raise e => Raise e
      | Ok roots =>
          match sweep_equilibria F x_min x_max Rs' with
          | Raise e => Raise e
          | Ok l => Ok (roots :: l)
          end
      end
  end.

(** The number of equilibria found at [r_val] ([0] when the search
    raises), as compared between adjacent samples. *)
Definition eq_count (F : Field) (r_val x_min x_max : Q) : nat :=
  match find_equilibria F r_val x_min x_max with
  | Ok roots => length roots
  | Raise _ => O
  end.

End RootFinder.

(** ** Stability classifier (lines 91-97) *)

(** The value of [fx_expr.subs({x: x*, r: r}).evalf()]: a real number, a
    signed infinity ([oo], [-oo]), NaN, a non-real complex number, an
    expression that is not a number (a free symbol other than [x], [r]),
    or complex infinity [zoo] (e.g. [1/x] at [x = 0]). *)
Inductive SymVal :=
| SNum (q : Q)
| SInf (pos : bool)
| SNaN
| SComplex (re im : Q)
| SSymbolic
| SZoo.

(** [float(v)] on a sympy value ([Expr.__float__]): numbers, [oo], [-oo]
    and [nan] convert; a non-real value, [zoo] (a number that is not a
    [Number]) and a non-numeric expression raise [TypeError] ("Cannot
    convert complex/expression to float"). *)
Definition py_float (v : SymVal) : Res PyFloat :=
  match v with
  | SNum q => Ok (Fin q)
  | SInf b => Ok (Inf b)
  | SNaN => Ok NaN
  | SComplex _ _ => Raise TypeError
  | SSymbolic => Raise TypeError
  | SZoo => Raise TypeError
  end.

(** The labels ['estable'], ['inestable'], ['neutra'], ['desconocida']. *)
Inductive Stab := Estable | Inestable | Neutra | Desconocida.

(** [stability_fx]; the expression [fx_expr] is given by its evaluator
    [fx x* r = fx_expr.subs({x: x*, r: r}).evalf()]. *)
Definition stability_fx (fx : Q -> Q -> SymVal) (x_star r_val : Q)
  : Res (Stab * PyFloat) :=
  match py_float (fx x_star r_val) with
  | Raise e => Raise e
  | Ok val =>
      if isfinite val then
        match val with
        | Fin v =>
            if Qltb v 0 then Ok (Estable, val)
            else if Qltb 0 v then Ok (Inestable, val)
            else Ok (Neutra, val)
        | _ => Ok (Desconocida, NaN)
        end
      else Ok (Desconocida, NaN)
  end.

(** ** Branch tracker (lines 104-141) *)

(** A branch dict while the loop runs: its ['x'] and ['stab'] lists. *)
Definition BranchAcc := (list (option Q) * list (option Stab))%type.

(** A finished branch: ['r'], ['x'], ['stab']. *)
Record Branch := mkBranch {
  br : list Q;
  bx : list (option Q);
  bstab : list (option Stab)
}.

(** [b['x'][-1] if len(b['x'])==t else np.nan]. *)
Definition prev_val (t : nat) (b : BranchAcc) : option Q :=
  if (length (fst b) =? t)%nat then last (fst b) None else None.

(** [abs(xp - new_roots[jn])]: NaN when [xp] is NaN. *)
Definition dist (xp : option Q) (xn : Q) : option Q :=
  match xp with
  | Some p => Some (Qabs (p - xn))
  | None => None
  end.

(** The float comparison [x >= mp]: false as soon as one side is NaN. *)
Definition float_ge (x mp : option Q) : bool :=
  match x, mp with
  | Some a, Some b => Qle_bool b a
  | _, _ => false
  end.

(** numpy's [argmin] on a flattened float array (the C loop of
    [@fname@_argmin]): an element [x] that is not [>= mp] becomes the new
    minimum, and a NaN stops the scan; a leading NaN gives index 0. *)
Fixpoint argmin_go (l : list (option Q)) (i : nat) (mp : option Q) (min_ind : nat)
  : nat :=
  match l with
  | [] => min_ind
  | x :: l' =>
      if float_ge x mp then argmin_go l' (S i) mp min_ind
      else match x with
           | None => i
           | Some _ => argmin_go l' (S i) x i
           end
  end.

Definition argmin (l : list (option Q)) : nat :=
  match l with
  | [] => O
  | None :: _ => O
  | mp :: l' => argmin_go l' 1 mp O
  end.

Definition is_finite (c : option Q) : bool :=
  match c with Some _ => true | None => false end.

(** [np.isfinite(D).any()]. *)
Definition any_finite (D : list (list (option Q))) : bool :=
  existsb (existsb is_finite) D.

(** The matrix [D[i, j] = abs(prev_vals[up[i]] - new_roots[un[j]])]. *)
Definition dist_matrix (prev_vals : list (option Q)) (new_roots : list Q)
    (up un : list nat) : list (list (option Q)) :=
  map (fun ip => map (fun jn => dist (nth ip prev_vals None) (nth jn new_roots 0)) un) up.

(** [np.delete(D, i, axis=0)] then [np.delete(D, j, axis=1)]. *)
Definition delete_row_col (i j : nat) (D : list (list (option Q)))
  : list (list (option Q)) :=
  map (remove_nth j) (remove_nth i D).

(** The [while D.size and np.isfinite(D).any()] loop.  Every iteration that
    goes on removes one element of [unmatched_prev] and needs it non-empty
    afterwards, so the fuel [len(unmatched_prev)] never runs out. *)
Fixpoint match_loop (fuel : nat) (up un : list nat) (D : list (list (option Q)))
    (pairs : list (nat * nat)) : list (nat * nat) * list nat * list nat :=
  match fuel with
  | O => (pairs, up, un)
  | S fuel' =>
      if negb (length D * length (hd [] D) =? 0)%nat && any_finite D then
        let ncols := length (hd [] D) in
        let k := argmin (concat D) in
        let i_min := Nat.div k ncols in
        let j_min := Nat.modulo k ncols in
        let ip := nth i_min up O in
        let jn := nth j_min un O in
        let pairs := pairs ++ [(ip, jn)] in
        let up := remove_nth i_min up in
        let un := remove_nth j_min un in
        match up, un with
        | _ :: _, _ :: _ => match_loop fuel' up un (delete_row_col i_min j_min D) pairs
        | _, _ => (pairs, up, un)
        end
      else (pairs, up, un)
  end.

(** One iteration [t >= 1] of [for t in range(1, T)]. *)
Definition track_step (t : nat) (branches : list BranchAcc)
    (new_roots : list Q) (new_stab : list Stab) : list BranchAcc :=
  let prev_vals := map (prev_val t) branches in
  let unmatched_prev := seq 0 (length prev_vals) in
  let unmatched_new := seq 0 (length new_roots) in
  let '(pairs, _, unmatched_new) :=
    match unmatched_prev, unmatched_new with
    | _ :: _, _ :: _ =>
        match_loop (length unmatched_prev) unmatched_prev unmatched_new
          (dist_matrix prev_vals new_roots unmatched_prev unmatched_new) []
    | _, _ => ([], unmatched_prev, unmatched_new)
    end in
  let branches := map (fun b => (fst b ++ [None], snd b ++ [None])) branches in
  let branches :=
    fold_left (fun bs p =>
      update_nth (fst p)
        (fun b => (set_last (Some (nth (snd p) new_roots 0)) (fst b),
                   set_last (nth_error new_stab (snd p)) (snd b))) bs)
      pairs branches in
  branches ++ map (fun jn => (repeat None t ++ [Some (nth jn new_roots 0)],
                              repeat None t ++ [nth_error new_stab jn]))
                  unmatched_new.

(** [track_branches(Rs, roots_list, stabs_list)]; [None] is the [IndexError]
    of [roots_list[0]] on an empty sweep.  The driver passes lists of
    length [len(Rs)] whose [t]-th root and stability lists have equal
    lengths. *)
Definition track_branches (Rs : list Q) (roots_list : list (list Q))
    (stabs_list : list (list Stab)) : option (list Branch) :=
  match roots_list, stabs_list with
  | r0_roots :: _, r0_stab :: _ =>
      let T := length Rs in
      let branches :=
        map (fun p => ([Some (fst p)], [Some (snd p)])) (combine r0_roots r0_stab) in
      let branches :=
        fold_left (fun bs t => track_step t bs (nth t roots_list []) (nth t stabs_list []))
                  (seq 1 (T - 1)) branches in
      Some (map (fun b =>
                   if (length (fst b) <? T)%nat then
                     mkBranch Rs (fst b ++ repeat None (T - length (fst b)))
                                 (snd b ++ repeat None (T - length (fst b)))
                   else mkBranch Rs (fst b) (snd b)) branches)
  | _, _ => None
  end.

(** ** Concrete instances *)

(** [sqrt] of a non-negative rational, rounded down at [1e-16] (the
    precision of a double near 1). *)
Definition sqrt_approx (q : Q) : Q :=
  (Z.sqrt (Z.div (Qnum q * 10 ^ 32) (Zpos (Qden q))) # Pos.pow 10 16).

Fixpoint drop_leading_zeros (cs : list Q) : list Q :=
  match cs with
  | c :: cs' => if Qeq_bool c 0 then drop_leading_zeros cs' else cs
  | [] => []
  end.

(** [numpy.roots] for polynomials of degree at most two: leading zeros are
    dropped, trailing zeros give roots [0], the remaining polynomial of
    degree 1 or 2 is solved in closed form (the eigenvalues of its companion
    matrix).  Polynomials of higher degree once the trailing zeros are
    removed are not used by the instances of this file. *)
Definition np_roots_upto2 (cs : list Q) : list (Q * Q) :=
  let p := drop_leading_zeros cs in
  let rp := drop_leading_zeros (rev p) in
  let trailing_zeros := (length p - length rp)%nat in
  let core :=
    match rev rp with
    | [a; b] => [(- b / a, 0)]
    | [a; b; c] =>
        let disc := b * b - 4 * a * c in
        if Qle_bool 0 disc then
          [((- b + sqrt_approx disc) / (2 * a), 0); ((- b - sqrt_approx disc) / (2 * a), 0)]
        else
          [(- b / (2 * a), sqrt_approx (- disc) / (2 * a));
           (- b / (2 * a), - sqrt_approx (- disc) / (2 * a))]
    | _ => []
    end in
  core ++ repeat (0, 0) trailing_zeros.

(** [f(x, r) = r + x**2]: [sp.Poly] succeeds with coefficients [1, 0, r]
    and the numerical path is never reached. *)
Definition saddle_field : Field :=
  mkField (fun r => Some [Fin 1; Fin 0; Fin r]) (fun _ _ => None) (fun _ _ _ => None).

(** The evaluator of [f_x = 2*x] for [f(x, r) = r + x**2]. *)
Definition saddle_fx (x_star _r : Q) : SymVal := SNum (2 * x_star).

(** The quantities compared by the transcritical test, on a sorted list:
    center of mass [sum(l) / len(l)] and span [abs(l[-1] - l[0])]. *)
Definition center_of_mass (l : list Q) : Q := sumQ l / inject_Z (Z.of_nat (length l)).

Definition span (l : list Q) : Q := Qabs (last l 0 - hd 0 l).

(** [f(x, r) = x - 5]: coefficients [1, -5]. *)
Definition shifted_line_field : Field :=
  mkField (fun _ => Some [Fin 1; Fin (-5)]) (fun _ _ => None) (fun _ _ _ => None).

(** The real part of [complex(c)] for a coefficient [c] of the form
    [g(r) + k/r] at [r]: at [r = 0] the coefficient is [zoo] and its real
    part [nan]. *)
Definition coeff_over_r (g k r : Q) : PyFloat :=
  if Qeq_bool r 0 then NaN else Fin (g + k / r).


(** [f(x, r) = x**2 + 1/r]: coefficients [1, 0, 1/r]. *)
Definition inv_quad_field : Field :=
  mkField (fun r => Some [Fin 1; Fin 0; coeff_over_r 0 1 r])
          (fun _ _ => None) (fun _ _ _ => None).

(** [f(x, r) = x**3 - r*x + r - 1/r]: coefficients [1, 0, -r, r - 1/r];
    at [r = 1] it is [x**3 - x] (roots [-1, 0, 1]), at [r = -1] it is
    [x**3 + x] (real root [0]). *)
Definition pitch_inv_field : Field :=
  mkField (fun r => Some [Fin 1; Fin 0; Fin (- r); coeff_over_r r (-1) r])
          (fun _ _ => None) (fun _ _ _ => None).

(** [f(x, r) = r*x - x**2], the field of [_test_transcritical]:
    coefficients [-1, r, 0]. *)
Definition transcritical_field : Field :=
  mkField (fun r => Some [Fin (-1); Fin r; Fin 0]) (fun _ _ => None) (fun _ _ _ => None).

(** The evaluator of [f_x = 1/x]: [zoo] at [x = 0]. *)
Definition inv_x_fx (x_star _r : Q) : SymVal :=
  if Qeq_bool x_star 0 then SZoo else SNum (1 / x_star).

(** The evaluator of the sympy expression [sqrt(x)]: a float for [x >= 0],
    the imaginary number [I*sqrt(-x)] for [x < 0]. *)
Definition sqrt_x_fx (x_star _r : Q) : SymVal :=
  if Qle_bool 0 x_star then SNum (sqrt_approx x_star)
  else SComplex 0 (sqrt_approx (- x_star)).

(** The evaluator of [f_x = r - 2*x] for [f(x, r) = r*x - x**2]. *)
Definition transcritical_fx (x_star r_val : Q) : SymVal := SNum (r_val - 2 * x_star).


(** The list of a computation that returns, [[]] when it raises. *)
Definition ok_or_nil {A} (m : Res (list A)) : list A :=
  match m with Ok l => l | Raise _ => [] end.


(** [f(x, r) = exp(x)*(x + 5e-11)*(x - 0.00009999999999)]: not a polynomial
    in [x], so the numerical path runs; Newton's iteration from a seed
    converges to the root nearer to it. *)
Definition close_roots_field : Field :=
  mkField (fun _ => None)
    (fun _ s =>
       if Qle_bool (Qabs (s - (-0.00000000005))) (Qabs (s - 0.00009999999999))
       then Some (-0.00000000005) else Some 0.00009999999999)
    (fun _ _ _ => None).

(** Consecutive pairs [(l[i], l[i+1])]. *)
Definition adjacent {A} (l : list A) : list (A * A) := combine l (tl l).

(** A root of the sweep and its stability label are present together:
    [x] is NaN exactly when [stab] is [None]. *)
Definition present_agrees (x : option Q) (s : option Stab) : Prop :=
  x = None <-> s = None.

(** Every branch has [x] and [stab] lists of length [t], NaN and [None] at
    the same places (the shape when step [t] of the loop starts). *)
Definition branches_inv (t : nat) (bs : list BranchAcc) : Prop :=
  Forall (fun b => length (fst b) = t /\ Forall2 present_agrees (fst b) (snd b)) bs.

(** ** Sample count of the sweep (lines 99-102, 950-955) *)

(** Python's [int(q)] on a float: truncation toward zero. *)
Definition py_int (q : Q) : Z := if Qle_bool 0 q then Qfloor q else - Qfloor (- q).

(** Binary64 arithmetic: an exact result rounded to the nearest double,
    ties to even.  [round_ne q] is the integer nearest to [q], the even one
    on a tie. *)
Definition round_ne (q : Q) : Z :=
  let f := Qfloor q in
  let d := q - inject_Z f in
  if Qltb d (1 # 2) then f
  else if Qltb (1 # 2) d then (f + 1)%Z
  else if Z.even f then f else (f + 1)%Z.

(** For [q > 0], the exponent [e] of the last place of the double nearest
    to [q]: [2^52 <= q * 2^-e < 2^53] for a normal number, [e = -1074] for
    a subnormal one. *)
Definition ulp_exp (q : Q) : Z :=
  let e0 := (Z.log2 (Qnum q) - Z.log2 (Zpos (Qden q)) - 52)%Z in
  let e := if Qltb (q * 2 ^ (- e0)) (2 ^ 52) then (e0 - 1)%Z else e0 in
  Z.max e (-1074).

Definition round_pos (q : Q) : Q :=
  let e := ulp_exp q in
  inject_Z (round_ne (q * 2 ^ (- e))) * 2 ^ e.

Definition round_double (q : Q) : Q :=
  if Qltb 0 q then round_pos q
  else if Qltb q 0 then - round_pos (- q)
  else 0.

(** The double of an exact result: the nearest double, or the infinity of
    its sign when that rounds beyond the largest double. *)
Definition fl (q : Q) : PyFloat :=
  let r := round_double q in
  if Qle_bool (2 ^ 1024) (Qabs r) then Inf (Qle_bool 0 q) else Fin r.

(** The float comparison [a > b] (false when one side is NaN). *)
Definition py_gt (a b : PyFloat) : bool :=
  match a, b with
  | Fin x, Fin y => Qltb y x
  | Inf true, Fin _ | Inf true, Inf false | Fin _, Inf false => true
  | _, _ => false
  end.

(** Python's [max(a, b)]: [b] only when [b > a]. *)
Definition py_max (a b : PyFloat) : PyFloat := if py_gt b a then b else a.

(** The float product [a * b]. *)
Definition py_mul (a b : PyFloat) : PyFloat :=
  match a, b with
  | Fin x, Fin y => fl (x * y)
  | Fin x, Inf s | Inf s, Fin x =>
      if Qeq_bool x 0 then NaN else Inf (Bool.eqb s (Qle_bool 0 x))
  | Inf s, Inf t => Inf (Bool.eqb s t)
  | _, _ => NaN
  end.

(** Python's [int(v)] on a float: [OverflowError] on an infinity,
    [ValueError] on NaN. *)
Definition py_int_float (v : PyFloat) : Res Z :=
  match v with
  | Fin q => Ok (py_int q)
  | Inf _ => Raise OverflowError
  | NaN => Raise ValueError
  end.

(** The order of the floats other than NaN: [-inf] below every float,
    [inf] above. *)
Definition pf_le (a b : PyFloat) : Prop :=
  match a, b with
  | Inf false, (Fin _ | Inf _) => True
  | (Fin _ | Inf _), Inf true => True
  | Fin x, Fin y => x <= y
  | _, _ => False
  end.

(** [auto_steps(r_min, r_max)] on the floats [r_min], [r_max]:
    [span = max(0.05, r_max - r_min)], [steps = int(100 * span)] and
    [np.clip(steps, 151, 801)], i.e. [min(max(steps, 151), 801)]. *)
Definition auto_steps (r_min r_max : Q) : Res Z :=
  let span := py_max (fl 0.05) (fl (r_max - r_min)) in
  let* steps := py_int_float (py_mul (Fin 100) span) in
  Ok (Z.min (Z.max steps 151) 801).

(** [r_steps_val] in [compute_and_plot]: [int(self.r_steps.get())] when the
    field parses to an integer ([parsed = Some n]) and [assert r_steps_val > 0]
    holds; otherwise (the [except] branch) [auto_steps(r_min, r_max)], whose
    exceptions are not caught. *)
Definition r_steps_value (parsed : option Z) (r_min r_max : Q) : Res Z :=
  match parsed with
  | Some n => if (0 <? n)%Z then Ok n else auto_steps r_min r_max
  | None => auto_steps r_min r_max
  end.

(** ** [compute_and_plot] (lines 940-1067) and its callees *)

(** The inner loop [for xs_star in roots: stab, _ = stability_fx(...)]. *)
Fixpoint stab_labels (fx : Q -> Q -> SymVal) (rv : Q) (roots : list Q) : Res (list Stab) :=
  match roots with
  | [] => Ok []
  | x :: xs =>
      match stability_fx fx x rv with
      | Raise e => Raise e
      | Ok (stab, _) =>
          match stab_labels fx rv xs with
          | Raise e => Raise e
          | Ok l => Ok (stab :: l)
          end
      end
  end.

(** The loop [for rv in Rs] building [roots_list] and [stabs_list]. *)
Fixpoint compute_sweep (np_roots : list Q -> list (Q * Q)) (F : Field)
    (fx : Q -> Q -> SymVal) (x_min x_max : Q) (Rs : list Q)
  : Res (list (list Q) * list (list Stab)) :=
  match Rs with
  | [] => Ok ([], [])
  | rv :: Rs' =>
      match find_equilibria np_roots F rv x_min x_max with
      | Raise e => Raise e
      | Ok roots =>
          match stab_labels fx rv roots with
          | Raise e => Raise e
          | Ok stabs =>
              match compute_sweep np_roots F fx x_min x_max Rs' with
              | Raise e => Raise e
              | Ok (rl, sl) => Ok (roots :: rl, stabs :: sl)
              end
          end
      end
  end.

(** Python's [max(l)] and [min(l)]; [None] is the [ValueError] of an empty
    list. *)
Definition py_max_nat (l : list nat) : option nat :=
  match l with [] => None | x :: l' => Some (fold_left Nat.max l' x) end.

Definition py_min_nat (l : list nat) : option nat :=
  match l with [] => None | x :: l' => Some (fold_left Nat.min l' x) end.

(** The three status lines: ["Detectadas n bifurcación(es): ..."],
    ["Cálculo completado. r_steps=N"] and the same followed by the note
    ["Nota: la cantidad de equilibrios no cambia en el rango; ..."]. *)
Inductive StatusMsg := StatusBifs (n : nat) | StatusSteps (steps : Z) | StatusNote (steps : Z).

(** The status chosen after the detection; [None] is the [ValueError] of
    [max(counts)] on an empty sweep. *)
Definition status_of (bifurcations : list (Q * BifType)) (roots_list : list (list Q))
    (r_steps_val : Z) : option StatusMsg :=
  let bif_count := length bifurcations in
  if (0 <? bif_count)%nat then Some (StatusBifs bif_count)
  else
    let counts := map (@length Q) roots_list in
    match py_max_nat counts, py_min_nat counts with
    | Some mx, Some mn =>
        if negb (mx =? mn)%nat then Some (StatusSteps r_steps_val)
        else Some (StatusNote r_steps_val)
    | _, _ => None
    end.

(** What a run of [compute_and_plot] that returns has computed and stored:
    the sample count, the grid, the root and stability lists, the branches
    of the diagram, the detected bifurcations and the status line. *)
Record PlotResult := mkPlot {
  p_steps : Z;
  p_Rs : list Q;
  p_roots : list (list Q);
  p_stabs : list (list Stab);
  p_branches : option (list Branch);
  p_bifs : list (Q * BifType);
  p_status : option StatusMsg
}.

Section Driver.

(** The parts of the application [compute_and_plot] works with: numpy's
    [roots], the field [F] of [f_expr], the evaluator [fx] of [fx_expr]
    and, for the phase plots, [plot_f r], the outcome of
    [ys = f_num(xs, r)] on the 800 points of the window followed by
    [ax.plot(xs, ys)] (numpy and matplotlib), and [f_eval x r], the value
    [float(f_num(x, r))] of the lambdified [f_expr] at a point. *)
Variable np_roots : list Q -> list (Q * Q).
Variable F : Field.
Variable fx : Q -> Q -> SymVal.
Variable plot_f : Q -> Res unit.
Variable f_eval : Q -> Q -> Res PyFloat.

(** [roots = find_equilibria(..., rv, x_min, x_max)] followed by
    [stability_fx] at each root, as in the phase plots, the results panel
    and the step-by-step text. *)
Definition roots_and_labels (x_min x_max rv : Q) : Res unit :=
  let* roots := find_equilibria np_roots F rv x_min x_max in
  let* _ := stab_labels fx rv roots in
  Ok tt.

(** [_create_phase_plot(ax, f_expr, fx_expr, r_val, title)]: the curve, the
    equilibria with their stability, then the [float(f_num(xp, r_val))] of
    the 27 arrows. *)
Definition create_phase_plot (x_min x_max r_val : Q) : Res unit :=
  let* _ := plot_f r_val in
  let* _ := roots_and_labels x_min x_max r_val in
  py_for (fun xp => let* _ := f_eval xp r_val in Ok tt) (linspace x_min x_max 27).

(** [_update_results_display(f_expr, fx_expr, sample_rs)]. *)
Definition update_results_display (x_min x_max : Q) (sample_rs : list Q) : Res unit :=
  py_for (roots_and_labels x_min x_max) sample_rs.

(** [_write_steps_detail()]: the three re-solves around each detected
    bifurcation ([delta_r = 0.01]), then the equilibria and their stability
    at the phase values [self._last_phase_rs] and at
    [[r_min, 0.5*(r_min + r_max), r_max]]. *)
Definition write_steps_detail (x_min x_max : Q) (bifurcations : list (Q * BifType))
    (phase_rs : list Q) (r_min r_max : Q) : Res unit :=
  let delta_r := 0.01 in
  let* _ := py_for (fun ev =>
              let r_bif := fst ev in
              let* _ := find_equilibria np_roots F (r_bif - delta_r) x_min x_max in
              let* _ := find_equilibria np_roots F r_bif x_min x_max in
              let* _ := find_equilibria np_roots F (r_bif + delta_r) x_min x_max in
              Ok tt) bifurcations in
  let* _ := py_for (roots_and_labels x_min x_max) phase_rs in
  py_for (roots_and_labels x_min x_max) [r_min; (1 # 2) * (r_min + r_max); r_max].

(** [compute_and_plot] from the parsed input on ([parsed] is the integer in
    the [r_steps] field if it parses, [phase_parsed] the list of floats of
    the phase field if every token parses): the sweep, the branches, the
    detection and the status line, then the phase tabs,
    [self._last_scan_Rs = [Rs[0], Rs[len(Rs)//2], Rs[-1]]], the results
    panel and the step-by-step text.  Nothing in the method is inside a
    [try] apart from the two parses, so every exception propagates:
    [Raise] is the exception that ends the call; a run that returns yields
    the stored results. *)
Definition compute_and_plot (parsed : option Z) (phase_parsed : option (list Q))
    (r_min r_max x_min x_max : Q) : Res PlotResult :=
  let* r_steps_val := r_steps_value parsed r_min r_max in
  let Rs := linspace r_min r_max (Z.to_nat r_steps_val) in
  let* sweep := compute_sweep np_roots F fx x_min x_max Rs in
  let roots_list := fst sweep in
  let stabs_list := snd sweep in
  match track_branches Rs roots_list stabs_list with
  | None => Raise IndexError
  | Some branches =>
      let bifurcations := detect_bifurcation_type np_roots F x_min x_max Rs roots_list in
      match status_of bifurcations roots_list r_steps_val with
      | None => Raise ValueError
      | Some status =>
          let r_list := match phase_parsed with Some l => l | None => [0] end in
          let* _ := py_for (create_phase_plot x_min x_max) r_list in
          let scan_Rs := [nth 0 Rs 0; nth (Nat.div (length Rs) 2) Rs 0; last Rs 0] in
          let* _ := update_results_display x_min x_max scan_Rs in
          let* _ := write_steps_detail x_min x_max bifurcations r_list r_min r_max in
          Ok (mkPlot r_steps_val Rs roots_list stabs_list (Some branches) bifurcations
                     (Some status))
      end
  end.

End Driver.

(** [float(v)] raises on a non-real or non-numeric value. *)
Definition raises_float (v : SymVal) : Prop :=
  (exists re im, v = SComplex re im) \/ v = SSymbolic \/ v = SZoo.

(** ** Self-tests (lines 707-793) *)

(** Python's [str.lower()] on ASCII letters (the labels have no other
    upper-case letters). *)
Definition lower_ascii (c : ascii) : ascii :=
  let n := nat_of_ascii c in
  if (65 <=? n)%nat && (n <=? 90)%nat then ascii_of_nat (n + 32) else c.

Fixpoint py_lower (s : string) : string :=
  match s with
  | EmptyString => EmptyString
  | String c s' => String (lower_ascii c) (py_lower s')
  end.

(** Python's [sub in s]. *)
Definition py_in (sub s : string) : bool :=
  match index 0 sub s with Some _ => true | None => false end.

(** The self-tests [_test_saddle_node], [_test_transcritical],
    [_test_pitchfork]: sweep [np.linspace(-0.1, 0.1, 21)], solving on the
    window [[-2, 2]], then classify with [_detect_bifurcation_type], which
    re-solves on the application's window [[x_min, x_max]]; pass when some
    event has [abs(r_bif) < 0.05] and a label accepted by [wanted] (applied
    to [bif_type.lower()]).  An exception of the sweep is caught by the
    test's [except Exception] and reported as an error, i.e. not passed.
    The field [F] is that of the test's [f_test]. *)
Definition self_test_passes (np_roots : list Q -> list (Q * Q)) (F : Field)
    (x_min x_max : Q) (wanted : string -> bool) : bool :=
  let r_vals := linspace (-0.1) 0.1 21 in
  match sweep_equilibria np_roots F (-2) 2 r_vals with
  | Raise _ => false
  | Ok eq_list =>
      let bifurcations := detect_bifurcation_type np_roots F x_min x_max r_vals eq_list in
      existsb (fun p => Qltb (Qabs (fst p)) 0.05 && wanted (py_lower (bif_label (snd p))))
              bifurcations
  end.

(** The check of [_test_transcritical]. *)
Definition transcritical_wanted (s : string) : bool := py_in "transcrítica" s.

(** ** Unused classifier helpers (lines 619-705) *)

(** [_is_saddle_node(n_before, n_at, n_after, eq_before, eq_at, eq_after)]. *)
Definition is_saddle_node (n_before n_at n_after : Z) (eq_before eq_at eq_after : list Q)
  : bool :=
  if (((n_before =? 2) && (n_at =? 1) && (n_after =? 0))
      || ((n_before =? 0) && (n_at =? 1) && (n_after =? 2)))%Z then true
  else if ((Z.abs (n_after - n_before) =? 2) && (n_at =? Z.min n_before n_after + 1))%Z
  then true
  else false.

(** [_is_pitchfork(..., n_before, n_after, eq_before, eq_after)]: the body
    of the [try] as an [option bool], [None] for the [IndexError] of
    [eq_before[0]] or [eq_after[0]] on an empty list, which the bare
    [except] turns into [False]. *)
Definition is_pitchfork (n_before n_after : Z) (eq_before eq_after : list Q) : bool :=
  if negb (((n_before =? 1) && (n_after =? 3)) || ((n_before =? 3) && (n_after =? 1)))%Z
  then false
  else
    let body : option bool :=
      if ((n_before =? 1) && (n_after =? 3))%Z then
        match eq_before with
        | [] => None
        | original_eq :: _ =>
            Some (existsb (fun new_eq => Qltb (Qabs (new_eq - original_eq)) 0.01) eq_after)
        end
      else if ((n_before =? 3) && (n_after =? 1))%Z then
        match eq_after with
        | [] => None
        | final_eq :: _ =>
            if (length eq_before =? 3)%nat then
              let middle_eq := nth 1 (sortQ eq_before) 0 in
              Some (Qltb (Qabs (final_eq - middle_eq)) 0.01)
            else Some false
        end
      else Some false in
    match body with Some b => b | None => false end.

(** Python's [l.count(v)] on the stability labels. *)
Definition count_stab (s : Stab) (l : list Stab) : nat :=
  length (filter (fun s' => match s, s' with
                            | Estable, Estable | Inestable, Inestable
                            | Neutra, Neutra | Desconocida, Desconocida => true
                            | _, _ => false end) l).

(** [_is_transcritical(f_expr, fx_expr, r_bif, eq_before, eq_after, delta)];
    an exception of [stability_fx] is caught by the bare [except]. *)
Definition is_transcritical (fx : Q -> Q -> SymVal) (r_bif : Q)
    (eq_before eq_after : list Q) (delta : Q) : bool :=
  if negb (length eq_before =? length eq_after)%nat || negb (length eq_before =? 2)%nat
  then false
  else
    let eq_before_sorted := sortQ eq_before in
    let eq_after_sorted := sortQ eq_after in
    let position_change :=
      Qabs ((nth 0 eq_before_sorted 0 - nth 0 eq_after_sorted 0)
            - (nth 1 eq_before_sorted 0 - nth 1 eq_after_sorted 0)) in
    if Qltb 0.01 position_change then
      match stab_labels fx (r_bif - delta) eq_before with
      | Raise _ => false
      | Ok stab_before =>
          match stab_labels fx (r_bif + delta) eq_after with
          | Raise _ => false
          | Ok stab_after =>
              (count_stab Estable stab_before =? count_stab Estable stab_after)%nat
          end
      end
    else false.

(** ** [_detect_critical_r] (lines 795-822) *)

(** Indexing [Rs] with the float [i + (Rs[i+1] - Rs[i]) / 2]: numpy refuses
    a float index ([IndexError]: only integers are valid indices) and so
    does a list ([TypeError]); [None] is that exception. *)
Definition index_by_float (Rs : list Q) (k : Q) : option Q := None.

(** [Rs[i + (Rs[i + 1] - Rs[i]) / 2]]. *)
Definition critical_at (last_Rs : option (list Q)) (i : nat) : option Q :=
  match last_Rs with
  | None => None
  | Some Rs =>
      match nth_error Rs (S i), nth_error Rs i with
      | Some a, Some b => index_by_float Rs (inject_Z (Z.of_nat i) + (a - b) / 2)
      | _, _ => None
      end
  end.

Definition stab_eqb (s s' : Stab) : bool :=
  match s, s' with
  | Estable, Estable | Inestable, Inestable
  | Neutra, Neutra | Desconocida, Desconocida => true
  | _, _ => false
  end.

(** [_detect_critical_r]: [self._last_Rs], [self._last_roots_list] and
    [self._last_stabs_list] always exist (set to [None] in [__init__]); the
    body of the [try] as an [option Q], [None] for an exception, which the
    bare [except] turns into [0.0]. *)
Definition detect_critical_r (last_Rs : option (list Q))
    (last_roots_list : option (list (list Q))) (last_stabs_list : option (list (list Stab)))
    (r_min r_max : Q) : Q :=
  let body : option Q :=
    match last_roots_list with
    | None | Some [] => Some r_min
    | Some roots_list =>
        match find (fun i => negb (length (nth i roots_list []) =?
                                   length (nth (S i) roots_list []))%nat)
                   (seq 0 (length roots_list - 1)) with
        | Some i => critical_at last_Rs i
        | None =>
            match last_stabs_list with
            | None => None
            | Some stabs_list =>
                match find (fun i =>
                              (length (nth i stabs_list []) =? length (nth (S i) stabs_list []))%nat
                              && existsb (fun j =>
                                   (j <? length (nth (S i) stabs_list []))%nat
                                   && negb (stab_eqb (nth j (nth i stabs_list []) Estable)
                                                     (nth j (nth (S i) stabs_list []) Estable)))
                                   (seq 0 (length (nth i stabs_list []))))
                           (seq 0 (length stabs_list - 1)) with
                | Some i => critical_at last_Rs i
                | None =>
                    match last_Rs with
                    | None => None
                    | Some Rs => nth_error Rs (Nat.div (length Rs) 2)
                    end
                end
            end
        end
    end in
  match body with Some v => v | None => 0 end.

(** ** Flow arrows of the phase plots (lines 526-535, 1095-1103) *)

(** The arrows [(x0, x1)] (from [xytext=(x0, 0)] to [xy=(x1, 0)]) drawn at
    the [n] points of [np.linspace(x_min, x_max, n)], with
    [dx = (x_max - x_min) / den]; [f_num x r] is the float
    [float(f_num(x, r))] of the lambdified expression. *)
Definition flow_arrows (f_num : Q -> Q -> PyFloat) (r_val x_min x_max : Q)
    (n : nat) (den : Q) : list (Q * Q) :=
  flat_map (fun xp =>
    let dx := (x_max - x_min) / den in
    match f_num xp r_val with
    | Fin v =>
        if Qltb 0.00000001 (Qabs v) then
          let x0 := xp - dx / 2 in
          let x1 := xp + dx / 2 in
          if Qltb v 0 then [(x1, x0)] else [(x0, x1)]
        else []
    | _ => []
    end) (linspace x_min x_max n).

(** [_create_phase_plot]: 27 points, [dx = (x_max - x_min) / 40]. *)
Definition phase_plot_arrows (f_num : Q -> Q -> PyFloat) (r_val x_min x_max : Q) :=
  flow_arrows f_num r_val x_min x_max 27 40.

(** [_open_phase_window]: 31 points, [dx = (x_max - x_min) / 36]. *)
Definition phase_window_arrows (f_num : Q -> Q -> PyFloat) (r_val x_min x_max : Q) :=
  flow_arrows f_num r_val x_min x_max 31 36.

(** ** Columns of the branch list *)

(** The root and stability a branch holds at sample [t], if any. *)
Definition entry_at (t : nat) (b : BranchAcc) : list (Q * option Stab) :=
  match nth t (fst b) None with
  | Some v => [(v, nth t (snd b) None)]
  | None => []
  end.

Definition column (t : nat) (bs : list BranchAcc) : list (Q * option Stab) :=
  flat_map (entry_at t) bs.

(** The branches cover sample [t < s] with exactly its roots and labels. *)
Definition columns_ok (roots_list : list (list Q)) (stabs_list : list (list Stab))
    (s : nat) (bs : list BranchAcc) : Prop :=
  forall t, (t < s)%nat ->
    Permutation (column t bs) (combine (nth t roots_list []) (map Some (nth t stabs_list []))).

(** The lambdified [f(x, r) = r - x]. *)
Definition relax_num (x r : Q) : PyFloat := Fin (r - x).

(** The update of a matched branch: its last [x] and [stab]. *)
Definition upd_branch (new_roots : list Q) (new_stab : list Stab) (p : nat * nat)
    (b : BranchAcc) : BranchAcc :=
  (set_last (Some (nth (snd p) new_roots 0)) (fst b),
   set_last (nth_error new_stab (snd p)) (snd b)).

(** Both lists of a branch have length [n]. *)
Definition len_ok (n : nat) (b : BranchAcc) : Prop :=
  length (fst b) = n /\ length (snd b) = n.

(** Consecutive elements differ by more than [tol]. *)
Fixpoint gaps (tol : Q) (l : list Q) : Prop :=
  match l with
  | a :: ((b :: _) as l') => tol < b - a /\ gaps tol l'
  | _ => True
  end.

(** Case analysis along an [if] chain, turning each boolean test into
    arithmetic facts. *)
Ltac case_chain :=
  repeat (match goal with
          | |- context [if ?c then _ else _] => destruct c eqn:?
          end; cbv beta iota);
  repeat match goal with
  | H : _ = true |- _ => progress rewrite ?orb_true_iff, ?andb_true_iff, ?Nat.eqb_eq,
                           ?Nat.leb_le, ?Nat.ltb_lt in H
  | H : _ = false |- _ => progress rewrite ?orb_false_iff, ?andb_false_iff, ?Nat.eqb_neq,
                            ?Nat.leb_gt, ?Nat.ltb_ge in H
  end.

(** ** Sorting and deduplication lemmas *)

Lemma insertQ_perm (x : Q) (l : list Q) : Permutation (x :: l) (insertQ x l).
Proof.
  induction l as [|y l IH]; simpl; [reflexivity|].
  destruct (Qle_bool x y); [reflexivity|].
  rewrite perm_swap. constructor. exact IH.
Qed.

Lemma sortQ_perm (l : list Q) : Permutation l (sortQ l).
Proof.
  induction l as [|x l IH]; simpl; [reflexivity|].
  rewrite <- insertQ_perm. constructor. exact IH.
Qed.

Lemma insertQ_sorted (x : Q) (l : list Q) :
  Sorted Qle l -> Sorted Qle (insertQ x l).
Proof.
  induction 1 as [|y l Hs IH Hhd]; simpl.
  - repeat constructor.
  - destruct (Qle_bool x y) eqn:E.
    + apply Qle_bool_iff in E. repeat constructor; auto.
    + assert (Hyx : y <= x).
      { apply Qlt_le_weak, Qnot_le_lt. intro H. apply Qle_bool_iff in H. congruence. }
      constructor; [exact IH|].
      destruct l as [|z l]; simpl; [constructor; exact Hyx|].
      destruct (Qle_bool x z); constructor; [exact Hyx|].
      inversion Hhd; assumption.
Qed.

Lemma sortQ_sorted (l : list Q) : Sorted Qle (sortQ l).
Proof. induction l; simpl; [constructor|apply insertQ_sorted; assumption]. Qed.

Lemma sortQ_ssorted (l : list Q) : StronglySorted Qle (sortQ l).
Proof.
  apply Sorted_StronglySorted; [intros a b c; apply Qle_trans|apply sortQ_sorted].
Qed.

Lemma dedup_from_incl (tol last : Q) (vs : list Q) (v : Q) :
  In v (dedup_from tol last vs) -> In v vs.
Proof.
  revert last. induction vs as [|w vs IH]; simpl; intros last H; [exact H|].
  destruct (Qltb _ _); simpl in H.
  - destruct H as [<-|H]; [left; reflexivity|right; eapply IH; exact H].
  - right. eapply IH. exact H.
Qed.

Lemma unique_sorted_incl (tol : Q) (vals : list Q) (v : Q) :
  In v (unique_sorted tol vals) -> In v vals.
Proof.
  unfold unique_sorted. intro H.
  apply (Permutation_in v (Permutation_sym (sortQ_perm vals))).
  destruct (sortQ vals) as [|w ws]; [contradiction|].
  destruct H as [<-|H]; [left; reflexivity|right; eapply dedup_from_incl; exact H].
Qed.

Lemma dedup_from_gaps (tol last : Q) (vs : list Q) :
  StronglySorted Qle (last :: vs) -> gaps tol (last :: dedup_from tol last vs).
Proof.
  revert last. induction vs as [|v vs IH]; intros last Hs; [exact I|].
  cbn [dedup_from].
  inversion Hs as [|? ? Hs' Hall]; subst. inversion Hall as [|? ? Hlv Hall']; subst.
  destruct (Qltb (tol) (Qabs (v - last))) eqn:E.
  - unfold Qltb in E. apply negb_true_iff in E.
    assert (Hlt : tol < Qabs (v - last)).
    { apply Qnot_le_lt. intro H. apply Qle_bool_iff in H. congruence. }
    rewrite Qabs_pos in Hlt by lra.
    split; [exact Hlt|]. apply IH. exact Hs'.
  - apply IH. constructor; [inversion Hs'; assumption|exact Hall'].
Qed.

Lemma unique_sorted_gaps (tol : Q) (vals : list Q) :
  gaps tol (unique_sorted tol vals).
Proof.
  unfold unique_sorted. pose proof (sortQ_ssorted vals) as Hs.
  destruct (sortQ vals) as [|v vs]; [exact I|].
  apply dedup_from_gaps. exact Hs.
Qed.

Lemma gaps_ssorted (tol : Q) (l : list Q) :
  0 <= tol -> gaps tol l -> StronglySorted (fun a b => tol < b - a) l.
Proof.
  intros Htol. induction l as [|a l IH]; intros Hg; [constructor|].
  constructor.
  - apply IH. destruct l; [exact I|apply Hg].
  - clear IH. revert a Hg. induction l as [|b l IHl]; intros a Hg; [constructor|].
    cbn in Hg. destruct Hg as [Hab Hg]. constructor; [exact Hab|].
    assert (Hb := IHl b Hg).
    eapply Forall_impl; [|exact Hb]. intros c Hc. simpl in Hc. lra.
Qed.

(** ** Clamping to zero *)

Lemma Qltb_true (x y : Q) : Qltb x y = true <-> x < y.
Proof.
  unfold Qltb. rewrite negb_true_iff. split.
  - intro E. apply Qnot_le_lt. intro H. apply Qle_bool_iff in H. congruence.
  - intro H. destruct (Qle_bool y x) eqn:E; [|reflexivity].
    apply Qle_bool_iff in E. exfalso. apply (Qlt_not_le x y H E).
Qed.

Lemma clamp0_cases (x : Q) :
  (clamp0 x = 0 /\ -0.0000000001 < x /\ x < 0.0000000001) \/
  (clamp0 x = x /\ (x <= -0.0000000001 \/ 0.0000000001 <= x)).
Proof.
  unfold clamp0. destruct (Qltb (Qabs x) 0.0000000001) eqn:E.
  - left. apply Qltb_true in E. apply Qabs_Qlt_condition in E. tauto.
  - right. split; [reflexivity|].
    assert (H : 0.0000000001 <= Qabs x).
    { apply Qnot_lt_le. intro H. apply Qltb_true in H. congruence. }
    destruct (Qlt_le_dec x 0).
    + left. rewrite Qabs_neg in H by lra. lra.
    + right. rewrite Qabs_pos in H by lra. exact H.
Qed.


Lemma nsolve_seed_window (F : Field) (r_val x_min x_max : Q) (n : nat) (s u : Q) :
  In u (nsolve_seed F r_val x_min x_max n s) ->
  x_min - 0.000001 <= u /\ u <= x_max + 0.000001.
Proof.
  unfold nsolve_seed, in_window.
  assert (Hw : forall sol, In u (if Qle_bool (x_min - 0.000001) sol && Qle_bool sol (x_max + 0.000001)
                                 then [sol] else []) ->
                           x_min - 0.000001 <= u /\ u <= x_max + 0.000001).
  { intros sol H. destruct (Qle_bool (x_min - 0.000001) sol) eqn:E1; [|contradiction].
    destruct (Qle_bool sol (x_max + 0.000001)) eqn:E2; [|contradiction].
    destruct H as [<-|[]]. apply Qle_bool_iff in E1, E2. split; assumption. }
  destruct (nsolve_pt F r_val s) as [sol|]; [apply Hw|].
  destruct (nsolve_br F r_val s _) as [sol|]; [apply Hw|intros []].
Qed.

Lemma nsolve_roots_window (F : Field) (r_val x_min x_max : Q) (n : nat) (v : Q) :
  In v (nsolve_roots F r_val x_min x_max n) ->
  x_min - 0.000001 - 0.0000000001 <= v /\ v <= x_max + 0.000001 + 0.0000000001.
Proof.
  unfold nsolve_roots. intros H. apply in_map_iff in H as [u [<- Hu]].
  apply unique_sorted_incl in Hu. apply in_flat_map in Hu as [s [_ Hs]].
  apply nsolve_seed_window in Hs.
  destruct (clamp0_cases u) as [[-> Hc]|[-> Hc]]; lra.
Qed.

(** ** Root finder: claims *)

(** C1 (as written): the claim that every returned root lies in
    [[x_min - eps, x_max + eps]] on both paths fails on the polynomial path:
    for [f = x - 5] at the window [[-2, 2]] the root finder returns [5]. *)
Lemma find_equilibria_outside_window :
  find_equilibria np_roots_upto2 shifted_line_field 0 (-2) 2 = Ok [5] /\ 2 + 1 < 5.
Proof. split; [vm_compute; reflexivity|reflexivity]. Qed.

(** C1 (amended): only the numerical path looks at the window: it returns
    and all its roots lie in [[x_min - 1e-6 - 1e-10, x_max + 1e-6 + 1e-10]]
    (window filter, then the clamp to 0).  When the polynomial path
    succeeds its result does not depend on the window at all, and an
    exception of [np.roots] propagates whatever the window. *)
Theorem find_equilibria_window :
  forall (np_roots : list Q -> list (Q * Q)) (F : Field) (r_val x_min x_max : Q),
    (poly_roots_real np_roots F r_val = Ok None ->
     exists roots, find_equilibria np_roots F r_val x_min x_max = Ok roots /\
       forall v, In v roots ->
         x_min - 0.000001 - 0.0000000001 <= v /\ v <= x_max + 0.000001 + 0.0000000001) /\
    (forall roots, poly_roots_real np_roots F r_val = Ok (Some roots) ->
     forall x_min' x_max',
       find_equilibria np_roots F r_val x_min x_max = Ok roots /\
       find_equilibria np_roots F r_val x_min' x_max' = Ok roots) /\
    (forall e, poly_roots_real np_roots F r_val = Raise e ->
     find_equilibria np_roots F r_val x_min x_max = Raise e).
Proof.
  intros np_roots F r_val x_min x_max. unfold find_equilibria. split; [|split].
  - intros ->. eexists. split; [reflexivity|].
    intros v Hv. eapply nsolve_roots_window. exact Hv.
  - intros roots -> x_min' x_max'. split; reflexivity.
  - intros e ->. reflexivity.
Qed.

(** The only exception of the root finder: the [LinAlgError] of [np.roots]
    on a coefficient that is not finite. *)
Lemma poly_roots_real_raise (np_roots : list Q -> list (Q * Q)) (F : Field) (r_val : Q)
    (e : PyExc) :
  poly_roots_real np_roots F r_val = Raise e ->
  e = LinAlgError /\ exists cs, poly_coeffs F r_val = Some cs /\ fin_list cs = None.
Proof.
  unfold poly_roots_real. destruct (poly_coeffs F r_val) as [cs|]; [|discriminate].
  destruct (allclose0 cs); [discriminate|].
  destruct (np_roots_checked np_roots cs) as [roots|e'] eqn:N; [discriminate|].
  intros E. injection E as <-. unfold np_roots_checked in N.
  destruct (fin_list cs) eqn:Ef; [discriminate|].
  destruct (rev (drop_zeros (rev (drop_zeros cs)))) as [|p0 [|y rest]];
    [discriminate|discriminate|].
  destruct (is_inf p0 && forallb isfinite (y :: rest)); [discriminate|].
  injection N as <-. split; [reflexivity|]. exists cs. split; [reflexivity|exact Ef].
Qed.



(** ** Stability classifier: claims *)

(** C4 (as written): [stability_fx] has no [try]: for [f_x = sqrt(x)] at
    [x* = -1] the value [I] reaches [float()], which raises. *)
Lemma stability_fx_raises :
  stability_fx sqrt_x_fx (-1) 0 = Raise TypeError.
Proof. vm_compute. reflexivity. Qed.

(** C4 (amended): [stability_fx] returns a label exactly when the evaluation
    of [f_x] is a real number, an infinity or NaN; infinities and NaN give
    [('desconocida', NaN)]; a non-real value, complex infinity [zoo] or a
    non-numeric value makes [float()] raise [TypeError], which is not
    caught. *)
Theorem stability_fx_total_on_reals :
  forall (fx : Q -> Q -> SymVal) (x_star r_val : Q),
    ((exists lv, stability_fx fx x_star r_val = Ok lv) <->
     (exists q, fx x_star r_val = SNum q) \/ (exists b, fx x_star r_val = SInf b)
     \/ fx x_star r_val = SNaN) /\
    ((exists b, fx x_star r_val = SInf b) \/ fx x_star r_val = SNaN ->
     stability_fx fx x_star r_val = Ok (Desconocida, NaN)) /\
    (stability_fx fx x_star r_val = Raise TypeError <->
     (exists re im, fx x_star r_val = SComplex re im) \/ fx x_star r_val = SSymbolic
     \/ fx x_star r_val = SZoo).
Proof.
  intros fx x_star r_val. unfold stability_fx.
  destruct (fx x_star r_val) as [q|b| |re im| |]; simpl.
  - split; [split; [intros _; left; exists q; reflexivity|intros _]|split].
    + destruct (Qltb q 0); [eexists; reflexivity|].
      destruct (Qltb 0 q); eexists; reflexivity.
    + intros [[b H]|H]; discriminate H.
    + split; [|intros [[re [im H]]|[H|H]]; discriminate H].
      destruct (Qltb q 0); [discriminate|]. destruct (Qltb 0 q); discriminate.
  - split; [split; [intros _; right; left; exists b; reflexivity|intros _; eexists; reflexivity]|].
    split; [intros _; reflexivity|].
    split; [discriminate|intros [[re [im H]]|[H|H]]; discriminate H].
  - split; [split; [intros _; right; right; reflexivity|intros _; eexists; reflexivity]|].
    split; [intros _; reflexivity|].
    split; [discriminate|intros [[re [im H]]|[H|H]]; discriminate H].
  - split; [split; [intros [lv H]; discriminate H|intros [[q H]|[[b H]|H]]; discriminate H]|].
    split; [intros [[b H]|H]; discriminate H|].
    split; [intros _; left; exists re, im; reflexivity|reflexivity].
  - split; [split; [intros [lv H]; discriminate H|intros [[q H]|[[b H]|H]]; discriminate H]|].
    split; [intros [[b H]|H]; discriminate H|].
    split; [intros _; right; left; reflexivity|reflexivity].
  - split; [split; [intros [lv H]; discriminate H|intros [[q H]|[[b H]|H]]; discriminate H]|].
    split; [intros [[b H]|H]; discriminate H|].
    split; [intros _; right; right; reflexivity|reflexivity].
Qed.

(** C5 (as written): complex infinity is a non-finite value, but [float()]
    of it raises instead of giving ['desconocida']: for [f_x = 1/x] at
    [x* = 0] the value is [zoo]. *)
Lemma stability_fx_zoo_raises :
  inv_x_fx 0 0 = SZoo /\ stability_fx inv_x_fx 0 0 = Raise TypeError.
Proof. split; vm_compute; reflexivity. Qed.

(** C5 (amended): a finite value [v] of [f_x] gives [('estable', v)] when
    [v < 0], [('inestable', v)] when [v > 0] and [('neutra', v)] when
    [v = 0]; [oo], [-oo] and [nan] give [('desconocida', NaN)]; complex
    infinity [zoo] makes [float()] raise [TypeError].  For
    [f = r*x - x**2], [f_x = r - 2*x] at [r = 1]: [x* = 0] is unstable with
    derivative [1], [x* = 1] is stable with derivative [-1]. *)
Theorem stability_fx_sign :
  (forall (fx : Q -> Q -> SymVal) (x_star r_val v : Q),
     fx x_star r_val = SNum v ->
     (v < 0 -> stability_fx fx x_star r_val = Ok (Estable, Fin v)) /\
     (0 < v -> stability_fx fx x_star r_val = Ok (Inestable, Fin v)) /\
     (v == 0 -> stability_fx fx x_star r_val = Ok (Neutra, Fin v))) /\
  (forall (fx : Q -> Q -> SymVal) (x_star r_val : Q),
     (exists b, fx x_star r_val = SInf b) \/ fx x_star r_val = SNaN ->
     stability_fx fx x_star r_val = Ok (Desconocida, NaN)) /\
  (forall (fx : Q -> Q -> SymVal) (x_star r_val : Q),
     fx x_star r_val = SZoo -> stability_fx fx x_star r_val = Raise TypeError) /\
  stability_fx transcritical_fx 0 1 = Ok (Inestable, Fin 1) /\
  stability_fx transcritical_fx 1 1 = Ok (Estable, Fin (-1)).
Proof.
  split; [|split; [|split; [|split; vm_compute; reflexivity]]].
  - intros fx x_star r_val v E. unfold stability_fx. rewrite E. simpl.
    split; [|split].
    + intros H. apply Qltb_true in H. rewrite H. reflexivity.
    + intros H. assert (Hn : Qltb v 0 = false).
      { destruct (Qltb v 0) eqn:E'; [|reflexivity].
        apply Qltb_true in E'. exfalso. lra. }
      apply Qltb_true in H. rewrite Hn, H. reflexivity.
    + intros H. assert (Hn : Qltb v 0 = false).
      { destruct (Qltb v 0) eqn:E'; [|reflexivity].
        apply Qltb_true in E'. exfalso. lra. }
      assert (Hp : Qltb 0 v = false).
      { destruct (Qltb 0 v) eqn:E'; [|reflexivity].
        apply Qltb_true in E'. exfalso. lra. }
      rewrite Hn, Hp. reflexivity.
  - intros fx x_star r_val [[b E]|E]; unfold stability_fx; rewrite E; reflexivity.
  - intros fx x_star r_val E. unfold stability_fx. rewrite E. reflexivity.
Qed.

(** ** Bifurcation classifier: claims *)

Lemma analyze_bifurcation_at_point_counts
    (np_roots : list Q -> list (Q * Q)) (F : Field) (x_min x_max r_bif r_before r_after : Q) :
  analyze_bifurcation_at_point np_roots F x_min x_max r_bif r_before r_after =
  match find_equilibria np_roots F r_before x_min x_max,
        find_equilibria np_roots F r_bif x_min x_max,
        find_equilibria np_roots F r_after x_min x_max with
  | Ok eq_before, Ok _, Ok eq_after =>
      classify_counts (length eq_before) (length eq_after)
                      (transcritical_shift eq_before eq_after)
  | _, _, _ => NoClasificada
  end.
Proof.
  unfold analyze_bifurcation_at_point.
  destruct (find_equilibria np_roots F r_before x_min x_max),
           (find_equilibria np_roots F r_bif x_min x_max),
           (find_equilibria np_roots F r_after x_min x_max); reflexivity.
Qed.

Lemma classify_counts_order (nb na : nat) (sh : bool) :
  let pitchfork := (nb = 1 /\ na = 3)%nat \/ (nb = 3 /\ na = 1)%nat in
  let transcritical := nb = na /\ (2 <= nb)%nat /\ sh = true in
  let t := classify_counts nb na sh in
  (t = Horquilla <-> pitchfork) /\
  (t = Transcritica <-> ~ pitchfork /\ transcritical) /\
  (t = SillaNodo <-> ~ pitchfork /\ ~ transcritical /\ nb <> na) /\
  (t = CambioEstabilidad <-> ~ pitchfork /\ ~ transcritical /\ nb = na) /\
  t <> Aparicion /\ t <> Desaparicion.
Proof.
  intros pf tc t. subst pf tc t. unfold classify_counts.
  case_chain; intuition (try discriminate; try congruence; try lia).
Qed.

Lemma transcritical_shift_spec (eq_before eq_after : list Q) :
  transcritical_shift eq_before eq_after = true <->
  0.001 < Qabs (center_of_mass (sortQ eq_before) - center_of_mass (sortQ eq_after)) \/
  0.001 < Qabs (span (sortQ eq_before) - span (sortQ eq_after)).
Proof.
  unfold transcritical_shift, center_of_mass, span.
  rewrite orb_true_iff, !Qltb_true. reflexivity.
Qed.

(** C3 (as written): a 1 -> 3 change of the re-solved counts is not always
    labelled pitchfork.  For [f = x**3 - r*x + r - 1/r] on the grid
    [[-1, 1]] the count goes from 1 (root [0] at [r = -1]) to 3 (roots
    [-1, 0, 1] at [r = 1)]; at the midpoint [r = 0] the coefficient
    [r - 1/r] is [zoo], [np.roots] raises [LinAlgError], and the [except]
    of [_analyze_bifurcation_at_point] returns "no clasificada". *)
Lemma analyze_pitchfork_unclassified :
  (exists l, find_equilibria np_roots_upto2 pitch_inv_field (-1) (-2) 2 = Ok l /\
             length l = 1%nat) /\
  (exists l, find_equilibria np_roots_upto2 pitch_inv_field 1 (-2) 2 = Ok l /\
             length l = 3%nat) /\
  find_equilibria np_roots_upto2 pitch_inv_field 0 (-2) 2 = Raise LinAlgError /\
  analyze_bifurcation_at_point np_roots_upto2 pitch_inv_field (-2) 2 0 (-1) 1 = NoClasificada.
Proof.
  split; [|split; [|split]].
  - eexists. split; [vm_compute; reflexivity|vm_compute; reflexivity].
  - eexists. split; [vm_compute; reflexivity|vm_compute; reflexivity].
  - vm_compute. reflexivity.
  - vm_compute. reflexivity.
Qed.

(** C3 (amended): when the three re-solves at [r_before], [r_bif] and
    [r_after] return, the checks run in the order pitchfork,
    transcritical, saddle-node: pitchfork exactly when the counts go
    1 -> 3 or 3 -> 1; transcritical exactly when not pitchfork, the counts
    are equal and at least 2 and the center of mass or the span of the
    sorted equilibria moves by more than [0.001]; saddle-node exactly when
    neither and the counts differ.  When one of them raises, the label is
    "no clasificada". *)
Theorem analyze_bifurcation_order :
  forall (np_roots : list Q -> list (Q * Q)) (F : Field) (x_min x_max r_bif r_before r_after : Q),
    let t := analyze_bifurcation_at_point np_roots F x_min x_max r_bif r_before r_after in
    match find_equilibria np_roots F r_before x_min x_max,
          find_equilibria np_roots F r_bif x_min x_max,
          find_equilibria np_roots F r_after x_min x_max with
    | Ok eq_before, Ok _, Ok eq_after =>
        let n_before := length eq_before in
        let n_after := length eq_after in
        let pitchfork :=
          (n_before = 1 /\ n_after = 3)%nat \/ (n_before = 3 /\ n_after = 1)%nat in
        let transcritical :=
          n_before = n_after /\ (2 <= n_before)%nat /\
          (0.001 < Qabs (center_of_mass (sortQ eq_before) - center_of_mass (sortQ eq_after)) \/
           0.001 < Qabs (span (sortQ eq_before) - span (sortQ eq_after))) in
        (t = Horquilla <-> pitchfork) /\
        (t = Transcritica <-> ~ pitchfork /\ transcritical) /\
        (t = SillaNodo <-> ~ pitchfork /\ ~ transcritical /\ n_before <> n_after)
    | _, _, _ => t = NoClasificada
    end.
Proof.
  intros np_roots F x_min x_max r_bif r_before r_after t. subst t.
  rewrite analyze_bifurcation_at_point_counts.
  destruct (find_equilibria np_roots F r_before x_min x_max) as [eb|];
  destruct (find_equilibria np_roots F r_bif x_min x_max) as [ea0|];
  destruct (find_equilibria np_roots F r_after x_min x_max) as [ea|]; try reflexivity.
  intros nb na pf tc. subst nb na pf tc. rewrite <- transcritical_shift_spec.
  destruct (classify_counts_order (length eb) (length ea) (transcritical_shift eb ea))
    as [H1 [H2 [H3 _]]].
  split; [exact H1|split; [exact H2|exact H3]].
Qed.

(** C10 (as written): a count change that is neither a pitchfork nor a
    transcritical is not always a saddle-node.  For [f = x**2 + 1/r] on the
    grid [[-1, 1]] the count goes from 2 (roots [-1, 1] at [r = -1]) to 0
    (at [r = 1]); at [r = 0] the coefficient [1/r] is [zoo], [np.roots]
    raises [LinAlgError], and the label is "no clasificada". *)
Lemma analyze_count_change_unclassified :
  (exists l, find_equilibria np_roots_upto2 inv_quad_field (-1) (-2) 2 = Ok l /\
             length l = 2%nat) /\
  find_equilibria np_roots_upto2 inv_quad_field 1 (-2) 2 = Ok [] /\
  find_equilibria np_roots_upto2 inv_quad_field 0 (-2) 2 = Raise LinAlgError /\
  analyze_bifurcation_at_point np_roots_upto2 inv_quad_field (-2) 2 0 (-1) 1 = NoClasificada.
Proof.
  split; [|split; [|split]].
  - eexists. split; [vm_compute; reflexivity|vm_compute; reflexivity].
  - vm_compute. reflexivity.
  - vm_compute. reflexivity.
  - vm_compute. reflexivity.
Qed.

(** C10 (amended): the fallback labels "Aparición de equilibrios" and
    "Desaparición de equilibrios" are never returned.  When the three
    re-solves return, a count change that is neither a pitchfork nor a
    transcritical is a saddle-node; when one of them raises, the label is
    "no clasificada". *)
Theorem analyze_no_appearing_vanishing :
  forall (np_roots : list Q -> list (Q * Q)) (F : Field) (x_min x_max r_bif r_before r_after : Q),
    let t := analyze_bifurcation_at_point np_roots F x_min x_max r_bif r_before r_after in
    t <> Aparicion /\ t <> Desaparicion /\
    match find_equilibria np_roots F r_before x_min x_max,
          find_equilibria np_roots F r_bif x_min x_max,
          find_equilibria np_roots F r_after x_min x_max with
    | Ok eq_before, Ok _, Ok eq_after =>
        length eq_before <> length eq_after ->
        t <> Horquilla -> t <> Transcritica -> t = SillaNodo
    | _, _, _ => t = NoClasificada
    end.
Proof.
  intros np_roots F x_min x_max r_bif r_before r_after t. subst t.
  rewrite analyze_bifurcation_at_point_counts.
  destruct (find_equilibria np_roots F r_before x_min x_max) as [eb|];
  destruct (find_equilibria np_roots F r_bif x_min x_max) as [ea0|];
  destruct (find_equilibria np_roots F r_after x_min x_max) as [ea|];
    try (split; [discriminate|split; [discriminate|reflexivity]]).
  destruct (classify_counts_order (length eb) (length ea) (transcritical_shift eb ea))
    as [H1 [H2 [H3 [_ [H5 H6]]]]].
  split; [exact H5|split; [exact H6|]].
  intros Hne Hp Ht. apply H3. split; [|split; [|exact Hne]].
  - intro Hpf. apply Hp, H1, Hpf.
  - intro Htc. apply Ht, H2. split; [|exact Htc].
    intro Hpf. apply Hp, H1, Hpf.
Qed.



Lemma bif_label_nonempty (t : BifType) : String.eqb (bif_label t) ""%string = false.
Proof. destruct t; reflexivity. Qed.

Lemma detect_bifurcation_type_cons
    (np_roots : list Q -> list (Q * Q)) (F : Field) (x_min x_max : Q)
    (r_curr r_next : Q) (rs : list Q) (eq_curr eq_next : list Q) (es : list (list Q)) :
  detect_bifurcation_type np_roots F x_min x_max (r_curr :: r_next :: rs) (eq_curr :: eq_next :: es) =
  let rest := detect_bifurcation_type np_roots F x_min x_max (r_next :: rs) (eq_next :: es) in
  if negb (length eq_curr =? length eq_next) then
    let r_bif := (r_curr + r_next) / 2 in
    (r_bif, analyze_bifurcation_at_point np_roots F x_min x_max r_bif r_curr r_next) :: rest
  else rest.
Proof.
  cbn [detect_bifurcation_type]. destruct (negb _); [|reflexivity].
  rewrite bif_label_nonempty. reflexivity.
Qed.

Lemma detect_bifurcation_type_spec
    (np_roots : list Q -> list (Q * Q)) (F : Field) (x_min x_max : Q)
    (Rs : list Q) (eqs : list (list Q)) :
  length eqs = length Rs ->
  detect_bifurcation_type np_roots F x_min x_max Rs eqs =
  map (fun p => let '((r_curr, r_next), _) := p in
                ((r_curr + r_next) / 2,
                 analyze_bifurcation_at_point np_roots F x_min x_max
                   ((r_curr + r_next) / 2) r_curr r_next))
      (filter (fun p => let '(_, (eq_curr, eq_next)) := p in
                        negb (length eq_curr =? length eq_next))
              (combine (adjacent Rs) (adjacent eqs))).
Proof.
  revert eqs. induction Rs as [|r1 Rs IH]; intros eqs Hlen.
  - destruct eqs; reflexivity.
  - destruct eqs as [|e1 eqs]; [discriminate|]. simpl in Hlen.
    injection Hlen as Hlen.
    destruct Rs as [|r2 rs].
    + destruct eqs; [reflexivity|discriminate].
    + destruct eqs as [|e2 es]; [discriminate|].
      change (adjacent (r1 :: r2 :: rs)) with ((r1, r2) :: adjacent (r2 :: rs)).
      change (adjacent (e1 :: e2 :: es)) with ((e1, e2) :: adjacent (e2 :: es)).
      rewrite detect_bifurcation_type_cons, (IH (e2 :: es) Hlen).
      cbn [combine filter]. destruct (length e1 =? length e2); reflexivity.
Qed.

(** C6: the detector emits exactly one event per adjacent pair of samples
    whose equilibrium counts differ, in order, at the midpoint
    [(r_i + r_{i+1}) / 2]; so nothing when no count changes, and on a grid
    of distinct consecutive samples every [r_bif] lies strictly between
    the two samples of its pair. *)
Theorem detect_bifurcation_midpoints :
  forall (np_roots : list Q -> list (Q * Q)) (F : Field) (x_min x_max : Q)
         (Rs : list Q) (eqs : list (list Q)),
    length eqs = length Rs ->
    map fst (detect_bifurcation_type np_roots F x_min x_max Rs eqs) =
      map (fun p => let '((r_curr, r_next), _) := p in (r_curr + r_next) / 2)
          (filter (fun p => let '(_, (eq_curr, eq_next)) := p in
                            negb (length eq_curr =? length eq_next))
                  (combine (adjacent Rs) (adjacent eqs))) /\
    ((forall r1 r2, In (r1, r2) (adjacent Rs) -> ~ r1 == r2) ->
     forall r_bif t, In (r_bif, t) (detect_bifurcation_type np_roots F x_min x_max Rs eqs) ->
       exists r1 r2, In (r1, r2) (adjacent Rs) /\
         ((r1 < r_bif /\ r_bif < r2) \/ (r2 < r_bif /\ r_bif < r1))).
Proof.
  intros np_roots F x_min x_max Rs eqs Hlen.
  rewrite (detect_bifurcation_type_spec np_roots F x_min x_max Rs eqs Hlen).
  split.
  - rewrite map_map. apply map_ext. intros [[r1 r2] [e1 e2]]. reflexivity.
  - intros Hdist r_bif t Hin. apply in_map_iff in Hin as [[[r1 r2] [e1 e2]] [Heq Hin]].
    injection Heq as <- _. apply filter_In in Hin as [Hin _].
    apply in_combine_l in Hin. exists r1, r2. split; [exact Hin|].
    specialize (Hdist r1 r2 Hin).
    unfold Qdiv. change (Qinv 2) with (1 # 2).
    destruct (Q_dec r1 r2) as [[Hlt|Hgt]|Heq]; [left|right|contradiction]; split; lra.
Qed.

(** The 21-sample sweep of [r + x**2] meets the hypothesis of C6. *)
Lemma detect_bifurcation_midpoints_witness :
  length (ok_or_nil (sweep_equilibria np_roots_upto2 saddle_field (-2) 2 (linspace (-0.1) 0.1 21)))
    = length (linspace (-0.1) 0.1 21) /\
  map fst (detect_bifurcation_type np_roots_upto2 saddle_field (-2) 2 (linspace (-0.1) 0.1 21)
             (ok_or_nil (sweep_equilibria np_roots_upto2 saddle_field (-2) 2 (linspace (-0.1) 0.1 21)))) =
    map (fun p => let '((r_curr, r_next), _) := p in (r_curr + r_next) / 2)
        (filter (fun p => let '(_, (eq_curr, eq_next)) := p in
                          negb (length eq_curr =? length eq_next))
                (combine (adjacent (linspace (-0.1) 0.1 21))
                         (adjacent (ok_or_nil (sweep_equilibria np_roots_upto2 saddle_field (-2) 2
                                      (linspace (-0.1) 0.1 21)))))).
Proof.
  assert (H : length (ok_or_nil (sweep_equilibria np_roots_upto2 saddle_field (-2) 2 (linspace (-0.1) 0.1 21)))
              = length (linspace (-0.1) 0.1 21)) by (vm_compute; reflexivity).
  split; [exact H|].
  exact (proj1 (detect_bifurcation_midpoints np_roots_upto2 saddle_field (-2) 2
                  (linspace (-0.1) 0.1 21) _ H)).
Defined.

(** ** Branch tracker: claims *)

(** C2: the tracker does not exclude a branch that was absent at the
    previous sample.  Its row of the distance matrix is NaN and numpy's
    [argmin] returns the first NaN, so that branch is matched first, to the
    first remaining root.  Roots [[0, 1]], [[0]], [[0, 1]]: branch [B] born
    at [1] dies at step 1 and is revived at step 2 with the root [0]; the
    root [1] next to its last location goes to branch [A], which jumps from
    [0] to [1]; no new branch is created. *)
Theorem track_branches_revives_dead_branch :
  track_branches [0; 1; 2] [[0; 1]; [0]; [0; 1]]
                 [[Estable; Inestable]; [Estable]; [Estable; Inestable]] =
  Some [mkBranch [0; 1; 2] [Some 0; Some 0; Some 1]
                 [Some Estable; Some Estable; Some Inestable];
        mkBranch [0; 1; 2] [Some 1; None; Some 0]
                 [Some Inestable; None; Some Estable]].
Proof. vm_compute. reflexivity. Qed.

Lemma set_last_length {A} (v : A) (l : list A) : length (set_last v l) = length l.
Proof.
  induction l as [|a l IH]; [reflexivity|].
  destruct l as [|b l]; [reflexivity|]. simpl in *. rewrite IH. reflexivity.
Qed.

Lemma Forall2_set_last {A B} (R : A -> B -> Prop) (a : A) (b : B) l1 l2 :
  Forall2 R l1 l2 -> R a b -> Forall2 R (set_last a l1) (set_last b l2).
Proof.
  intros H Hab. induction H as [|x y l1 l2 Hxy H IH]; [constructor|].
  destruct H as [|x' y' l1' l2' Hxy' H'].
  - simpl. repeat constructor. exact Hab.
  - simpl. constructor; [exact Hxy|exact IH].
Qed.

Lemma Forall_update_nth {A} (P : A -> Prop) (f : A -> A) (i : nat) (l : list A) :
  Forall P l -> (forall x, P x -> P (f x)) -> Forall P (update_nth i f l).
Proof.
  intros H Hf. revert i. induction H as [|x l Hx H IH]; intros i; [destruct i; constructor|].
  destruct i; simpl; constructor; auto.
Qed.

Lemma remove_nth_incl {A} (i : nat) (l : list A) (x : A) :
  In x (remove_nth i l) -> In x l.
Proof.
  revert i. induction l as [|a l IH]; intros i H; [destruct i; exact H|].
  destruct i; simpl in H; [right; exact H|].
  destruct H as [<-|H]; [left; reflexivity|right; eapply IH; exact H].
Qed.

(** The new roots paired or left over by the matching loop are indices of
    the new roots. *)
Lemma match_loop_bounds (n fuel : nat) (up un : list nat) (D : list (list (option Q)))
    (pairs : list (nat * nat)) :
  (forall j, In j un -> (j < n)%nat) -> un <> [] ->
  (forall p, In p pairs -> (snd p < n)%nat) ->
  forall pairs' up' un', match_loop fuel up un D pairs = (pairs', up', un') ->
  (forall p, In p pairs' -> (snd p < n)%nat) /\ (forall j, In j un' -> (j < n)%nat).
Proof.
  revert up un D pairs.
  induction fuel as [|fuel IH]; intros up un D pairs Hun Hne Hp pairs' up' un' E.
  - injection E as <- <- <-. split; assumption.
  - cbn [match_loop] in E.
    destruct (_ && _); [|injection E as <- <- <-; split; assumption].
    set (k := argmin (concat D)) in E.
    set (jn := nth (Nat.modulo k (length (hd [] D))) un O) in E.
    assert (Hjn : (jn < n)%nat).
    { destruct (nth_in_or_default (Nat.modulo k (length (hd [] D))) un O) as [Hin|Hd].
      - apply Hun. exact Hin.
      - subst jn. rewrite Hd. destruct un as [|j un]; [contradiction|].
        specialize (Hun j (or_introl eq_refl)). lia. }
    assert (Hp' : forall p, In p (pairs ++ [(nth (Nat.div k (length (hd [] D))) up O, jn)]) ->
                            (snd p < n)%nat).
    { intros p Hin. apply in_app_or in Hin as [Hin|[<-|[]]]; [apply Hp; exact Hin|exact Hjn]. }
    assert (Hun' : forall j, In j (remove_nth (Nat.modulo k (length (hd [] D))) un) -> (j < n)%nat).
    { intros j Hin. apply Hun. eapply remove_nth_incl. exact Hin. }
    destruct (remove_nth (Nat.div k (length (hd [] D))) up) as [|u up0];
    [injection E as <- <- <-; split; assumption|].
    destruct (remove_nth (Nat.modulo k (length (hd [] D))) un) as [|v un0] eqn:Er;
    [injection E as <- <- <-; split; assumption|].
    eapply IH; [exact Hun'|discriminate|exact Hp'|exact E].
Qed.

Lemma branches_inv_append (t : nat) (bs : list BranchAcc) :
  branches_inv t bs ->
  branches_inv (S t) (map (fun b => (fst b ++ [None], snd b ++ [None])) bs).
Proof.
  intros H. apply Forall_map. eapply Forall_impl; [|exact H].
  intros b [Hl Hf]. simpl. split.
  - rewrite length_app, Hl. simpl. lia.
  - apply Forall2_app; [exact Hf|]. repeat constructor.
Qed.

Lemma fold_update_inv (t : nat) (new_roots : list Q) (new_stab : list Stab)
    (pairs : list (nat * nat)) (bs : list BranchAcc) :
  (forall p, In p pairs -> (snd p < length new_stab)%nat) ->
  branches_inv (S t) bs ->
  branches_inv (S t)
    (fold_left (fun bs0 p =>
       update_nth (fst p)
         (fun b => (set_last (Some (nth (snd p) new_roots 0)) (fst b),
                    set_last (nth_error new_stab (snd p)) (snd b))) bs0)
       pairs bs).
Proof.
  revert bs. induction pairs as [|p pairs IH]; intros bs Hp Hinv; [exact Hinv|].
  simpl. apply IH; [intros q Hq; apply Hp; right; exact Hq|].
  apply Forall_update_nth; [exact Hinv|].
  intros b [Hl Hf]. simpl. split; [rewrite set_last_length; exact Hl|].
  apply Forall2_set_last; [exact Hf|].
  destruct (nth_error new_stab (snd p)) eqn:E; [split; intro H; discriminate H|].
  apply nth_error_None in E. specialize (Hp p (or_introl eq_refl)). lia.
Qed.

Lemma new_branches_inv (t : nat) (new_roots : list Q) (new_stab : list Stab)
    (un : list nat) :
  (forall j, In j un -> (j < length new_stab)%nat) ->
  branches_inv (S t)
    (map (fun jn => (repeat None t ++ [Some (nth jn new_roots 0)],
                     repeat None t ++ [nth_error new_stab jn])) un).
Proof.
  intros Hun. apply Forall_map, Forall_forall. intros jn Hjn. simpl. split.
  - rewrite length_app, repeat_length. simpl. lia.
  - apply Forall2_app.
    + induction t as [|t IH]; simpl; constructor; [split; reflexivity|exact IH].
    + constructor; [|constructor].
      destruct (nth_error new_stab jn) eqn:E; [split; intro H; discriminate H|].
      apply nth_error_None in E. specialize (Hun jn Hjn). lia.
Qed.

Lemma track_step_inv (t : nat) (bs : list BranchAcc) (new_roots : list Q) (new_stab : list Stab) :
  length new_stab = length new_roots ->
  branches_inv t bs -> branches_inv (S t) (track_step t bs new_roots new_stab).
Proof.
  intros Hlen Hinv. unfold track_step.
  lazymatch goal with
  | |- branches_inv _ (match ?M with pair _ _ => _ end) => destruct M as [[pairs up'] un'] eqn:Em
  end.
  assert (Hb : (forall p, In p pairs -> (snd p < length new_roots)%nat) /\
               (forall j, In j un' -> (j < length new_roots)%nat)).
  { revert Em. destruct (seq 0 (length (map (prev_val t) bs))) as [|a l]; intros Em.
    - cbn in Em. injection Em as <- _ <-.
      split; [intros _ []|intros j Hj; apply in_seq in Hj; lia].
    - revert Em. destruct (seq 0 (length new_roots)) as [|j0 l0] eqn:Es; intros Em.
      + cbn in Em. injection Em as <- _ <-. split; intros _ [].
      + apply (fun H1 H2 H3 =>
                 match_loop_bounds (length new_roots) _ _ _ _ _ H1 H2 H3 _ _ _ Em);
          [|discriminate|intros _ []].
        intros j Hj. rewrite <- Es in Hj. apply in_seq in Hj. lia. }
  destruct Hb as [Hp Hu]. rewrite <- Hlen in Hp, Hu.
  apply Forall_app. split.
  - apply fold_update_inv; [exact Hp|]. apply branches_inv_append. exact Hinv.
  - apply new_branches_inv. exact Hu.
Qed.

Lemma track_fold_inv (roots_list : list (list Q)) (stabs_list : list (list Stab)) :
  (forall t, length (nth t stabs_list []) = length (nth t roots_list [])) ->
  forall k s bs, branches_inv s bs ->
  branches_inv (s + k)
    (fold_left (fun bs t => track_step t bs (nth t roots_list []) (nth t stabs_list []))
               (seq s k) bs).
Proof.
  intros Hl k. induction k as [|k IH]; intros s bs H; simpl.
  - rewrite Nat.add_0_r. exact H.
  - replace (s + S k)%nat with (S s + k)%nat by lia.
    apply IH. apply track_step_inv; [apply Hl|exact H].
Qed.

(** C8: on a sweep of [T >= 1] samples (the driver's lists: one root list
    and one stability list per sample, of equal lengths), every branch has
    [r = Rs] and [x], [stab] of length exactly [T], aligned to the grid,
    with NaN in [x] at exactly the samples where [stab] is [None]. *)
Theorem track_branches_full_length :
  forall (Rs : list Q) (roots_list : list (list Q)) (stabs_list : list (list Stab)),
    (1 <= length Rs)%nat ->
    length roots_list = length Rs -> length stabs_list = length Rs ->
    (forall t, length (nth t stabs_list []) = length (nth t roots_list [])) ->
    exists branches,
      track_branches Rs roots_list stabs_list = Some branches /\
      Forall (fun b => br b = Rs /\ length (bx b) = length Rs /\
                       length (bstab b) = length Rs /\
                       Forall2 (fun x s => x = None <-> s = None) (bx b) (bstab b))
             branches.
Proof.
  intros Rs roots_list stabs_list HT Hr Hs Hl.
  destruct roots_list as [|r0 rl]; [simpl in Hr; lia|].
  destruct stabs_list as [|s0 sl]; [simpl in Hs; lia|].
  eexists. split; [reflexivity|].
  assert (Hinit : branches_inv 1 (map (fun p => ([Some (fst p)], [Some (snd p)])) (combine r0 s0))).
  { apply Forall_map, Forall_forall. intros p _. split; [reflexivity|].
    constructor; [split; intro H; discriminate H|constructor]. }
  pose proof (track_fold_inv (r0 :: rl) (s0 :: sl) Hl (length Rs - 1) 1 _ Hinit) as Hf.
  replace (1 + (length Rs - 1))%nat with (length Rs) in Hf by lia.
  apply Forall_map. eapply Forall_impl; [|exact Hf].
  intros b [Hlen Hagree]. rewrite Hlen, Nat.ltb_irrefl. simpl.
  split; [reflexivity|]. split; [exact Hlen|].
  split; [rewrite <- (Forall2_length Hagree); exact Hlen|exact Hagree].
Qed.

(** The sweep of the C2 example meets the hypotheses of C8. *)
Lemma track_branches_full_length_witness :
  exists branches,
    track_branches [0; 1; 2] [[0; 1]; [0]; [0; 1]]
                   [[Estable; Inestable]; [Estable]; [Estable; Inestable]] = Some branches /\
    Forall (fun b => br b = [0; 1; 2] /\ length (bx b) = 3%nat /\
                     length (bstab b) = 3%nat /\
                     Forall2 (fun x s => x = None <-> s = None) (bx b) (bstab b))
           branches.
Proof.
  apply (track_branches_full_length [0; 1; 2] [[0; 1]; [0]; [0; 1]]
           [[Estable; Inestable]; [Estable]; [Estable; Inestable]]);
    [simpl; lia|reflexivity|reflexivity|].
  intros [|[|[|[|t]]]]; reflexivity.
Defined.

(** ** Sample count, deduplication and branch columns *)

Lemma Qltb_false (x y : Q) : Qltb x y = false -> y <= x.
Proof. unfold Qltb. intros H. apply Qle_bool_iff. destruct (Qle_bool y x); [reflexivity|discriminate]. Qed.

Lemma round_ne_bounds (q : Q) :
  (Qfloor q <= round_ne q <= Qfloor q + 1)%Z.
Proof.
  unfold round_ne.
  destruct (Qltb _ _); [lia|]. destruct (Qltb _ _); [lia|].
  destruct (Z.even _); lia.
Qed.

Lemma round_ne_mono (q q' : Q) : q <= q' -> (round_ne q <= round_ne q')%Z.
Proof.
  intros H. pose proof (Qfloor_resp_le q q' H) as Hf.
  destruct (Z.eq_dec (Qfloor q) (Qfloor q')) as [E|E].
  - unfold round_ne. rewrite <- E.
    destruct (Qltb (q - inject_Z (Qfloor q)) (1 # 2)) eqn:A1;
    destruct (Qltb (1 # 2) (q - inject_Z (Qfloor q))) eqn:A2;
    destruct (Qltb (q' - inject_Z (Qfloor q)) (1 # 2)) eqn:A3;
    destruct (Qltb (1 # 2) (q' - inject_Z (Qfloor q))) eqn:A4;
    destruct (Z.even (Qfloor q));
    repeat match goal with
    | A : Qltb _ _ = true |- _ => apply Qltb_true in A
    | A : Qltb _ _ = false |- _ => apply Qltb_false in A
    end; try lia; exfalso; lra.
  - pose proof (round_ne_bounds q). pose proof (round_ne_bounds q'). lia.
Qed.

Lemma two_nz : ~ (2 == 0).
Proof. discriminate. Qed.

Lemma pow2_pos (e : Z) : 0 < 2 ^ e.
Proof. apply Qpower_0_lt. reflexivity. Qed.

Lemma pow2_plus (a b : Z) : 2 ^ (a + b) == 2 ^ a * 2 ^ b.
Proof. apply Qpower_plus. discriminate. Qed.

Lemma pow2_le (a b : Z) : (a <= b)%Z -> 2 ^ a <= 2 ^ b.
Proof. intros H. apply Qpower_le_compat_l; [exact H|discriminate]. Qed.

Lemma pow2_inv (e : Z) : 2 ^ (- e) * 2 ^ e == 1.
Proof.
  rewrite <- pow2_plus. replace (- e + e)%Z with 0%Z by lia. reflexivity.
Qed.

Lemma pow2_Z (n : nat) : inject_Z (2 ^ Z.of_nat n) == 2 ^ Z.of_nat n.
Proof. apply Zpower_Qpower. lia. Qed.

(** [q * 2^-e] shifted by [k]. *)
Lemma scale_shift (q : Q) (e k : Z) : q * 2 ^ (- (e - k)) == q * 2 ^ (- e) * 2 ^ k.
Proof.
  replace (- (e - k))%Z with (- e + k)%Z by lia. rewrite pow2_plus. ring.
Qed.

Lemma log2_bounds (n : Z) : (0 < n)%Z ->
  2 ^ Z.log2 n <= inject_Z n /\ inject_Z n < 2 ^ (Z.log2 n + 1).
Proof.
  intros Hn. destruct (Z.log2_spec n Hn) as [L U].
  assert (H0 := Z.log2_nonneg n).
  assert (E1 := Zpower_Qpower 2 (Z.log2 n) H0).
  assert (E2 := Zpower_Qpower 2 (Z.log2 n + 1) ltac:(lia)).
  change (inject_Z 2) with 2 in E1, E2. rewrite <- E1, <- E2, Z.add_1_r.
  split; [rewrite <- Zle_Qle; exact L|rewrite <- Zlt_Qlt; exact U].
Qed.

Lemma pow2_51 : 2 ^ 51 == 2251799813685248.
Proof. reflexivity. Qed.
Lemma pow2_52 : 2 ^ 52 == 4503599627370496.
Proof. reflexivity. Qed.
Lemma pow2_53 : 2 ^ 53 == 9007199254740992.
Proof. reflexivity. Qed.

Lemma ulp_exp_spec (q : Q) : 0 < q ->
  (-1074 <= ulp_exp q)%Z /\ q * 2 ^ (- ulp_exp q) < 2 ^ 53 /\
  (ulp_exp q = (-1074)%Z \/ 2 ^ 52 <= q * 2 ^ (- ulp_exp q)).
Proof.
  intros Hq. unfold ulp_exp. cbv zeta.
  set (e0 := (Z.log2 (Qnum q) - Z.log2 (Zpos (Qden q)) - 52)%Z).
  assert (B : 2 ^ 51 < q * 2 ^ (- e0) /\ q * 2 ^ (- e0) < 2 ^ 53).
  { destruct q as [n d]. cbn [Qnum Qden] in e0.
    assert (Hn : (0 < n)%Z) by (unfold Qlt in Hq; simpl in Hq; lia).
    set (a := Z.log2 n) in e0. set (b := Z.log2 (Zpos d)) in e0.
    destruct (log2_bounds n Hn) as [La Ua]. fold a in La, Ua.
    destruct (log2_bounds (Zpos d) eq_refl) as [Lb Ub]. fold b in Lb, Ub.
    assert (HD : 0 < inject_Z (Zpos d)) by (unfold Qlt; simpl; lia).
    assert (Hq' : (n # d) == inject_Z n / inject_Z (Zpos d)) by apply Qmake_Qdiv.
    assert (He : 2 ^ (- e0) == 2 ^ (- a) * 2 ^ b * 2 ^ 52).
    { replace (- e0)%Z with (- a + b + 52)%Z by (unfold e0; lia).
      rewrite !pow2_plus. reflexivity. }
    set (u := inject_Z n * 2 ^ (- a)).
    set (v := 2 ^ b / inject_Z (Zpos d)).
    assert (Hx : (n # d) * 2 ^ (- e0) == u * v * 2 ^ 52).
    { rewrite Hq', He. unfold u, v. field. intro H0. rewrite H0 in HD. discriminate. }
    assert (Ia : 2 ^ a * 2 ^ (- a) == 1).
    { rewrite <- pow2_plus. replace (a + - a)%Z with 0%Z by lia. reflexivity. }
    assert (Ia1 : 2 ^ (a + 1) * 2 ^ (- a) == 2).
    { rewrite <- pow2_plus. replace (a + 1 + - a)%Z with 1%Z by lia. reflexivity. }
    assert (Pa := pow2_pos (- a)). assert (Pb := pow2_pos b).
    assert (U1 : 1 <= u).
    { rewrite <- Ia. apply Qmult_le_compat_r; [exact La|lra]. }
    assert (U2 : u < 2).
    { rewrite <- Ia1. unfold u. apply Qmult_lt_r; [exact Pa|exact Ua]. }
    assert (Hv : v * inject_Z (Zpos d) == 2 ^ b).
    { unfold v. field. intro H0. rewrite H0 in HD. discriminate. }
    assert (Hb1 : 2 ^ (b + 1) == 2 * 2 ^ b).
    { rewrite pow2_plus. change (2 ^ 1) with 2. ring. }
    assert (V1 : v <= 1).
    { apply (Qmult_le_r _ _ (inject_Z (Zpos d)) HD). rewrite Hv. lra. }
    assert (V2 : 1 # 2 < v).
    { apply (Qmult_lt_r _ _ (inject_Z (Zpos d)) HD). rewrite Hv. lra. }
    rewrite Hx, pow2_51, pow2_53, pow2_52.
    assert (W1 : 1 # 2 < u * v) by nra.
    assert (W2 : u * v < 2) by nra.
    split; nra. }
  set (x0 := q * 2 ^ (- e0)) in B |- *.
  set (e1 := if Qltb x0 (2 ^ 52) then (e0 - 1)%Z else e0).
  assert (B1 : 2 ^ 52 <= q * 2 ^ (- e1) /\ q * 2 ^ (- e1) < 2 ^ 53).
  { unfold e1. destruct (Qltb x0 (2 ^ 52)) eqn:E.
    - apply Qltb_true in E. rewrite scale_shift. fold x0. change (2 ^ 1) with 2.
      rewrite pow2_51, pow2_53 in B. rewrite pow2_52 in E |- *. rewrite pow2_53. lra.
    - apply Qltb_false in E. split; [exact E|exact (proj2 B)]. }
  clearbody e1.
  destruct (Z.max_spec e1 (-1074)) as [[Hlt Hm]|[Hle Hm]]; rewrite Hm.
  - split; [lia|]. split; [|left; reflexivity].
    replace (- (-1074))%Z with (- (e1 - (e1 + 1074)))%Z by lia. rewrite scale_shift.
    assert (Hk : 2 ^ (e1 + 1074) <= 1) by (apply (pow2_le _ 0); lia).
    assert (Hk0 := pow2_pos (e1 + 1074)).
    assert (Hx0 : 0 <= q * 2 ^ (- e1)).
    { apply Qmult_le_0_compat; [lra|apply Qlt_le_weak, pow2_pos]. }
    destruct B1 as [_ B1]. nra.
  - split; [lia|]. split; [exact (proj2 B1)|right; exact (proj1 B1)].
Qed.

Lemma mul_back (x : Q) (e : Z) : x * 2 ^ (- e) * 2 ^ e == x.
Proof. rewrite <- Qmult_assoc, pow2_inv. ring. Qed.

Lemma ulp_exp_mono (q q' : Q) : 0 < q -> q <= q' -> (ulp_exp q <= ulp_exp q')%Z.
Proof.
  intros Hq Hqq'.
  destruct (ulp_exp_spec q Hq) as [L [U [Hm|N]]];
  destruct (ulp_exp_spec q' ltac:(lra)) as [L' [U' _]]; [lia|].
  destruct (Z_le_gt_dec (ulp_exp q) (ulp_exp q')) as [|Hgt]; [assumption|exfalso].
  set (e := ulp_exp q) in *. set (e' := ulp_exp q') in *.
  assert (A : 2 ^ 52 * 2 ^ e <= q).
  { rewrite <- (mul_back q e). apply Qmult_le_compat_r; [exact N|apply Qlt_le_weak, pow2_pos]. }
  assert (B : q' < 2 ^ 53 * 2 ^ e').
  { rewrite <- (mul_back q' e'). apply Qmult_lt_r; [apply pow2_pos|exact U']. }
  assert (C : 2 ^ 53 * 2 ^ e' <= 2 ^ 52 * 2 ^ e).
  { rewrite <- !pow2_plus. apply pow2_le. lia. }
  lra.
Qed.

Lemma round_ne_floor_le (x : Q) (z : Z) : inject_Z z <= x -> (z <= round_ne x)%Z.
Proof.
  intros H. pose proof (round_ne_bounds x).
  assert (z <= Qfloor x)%Z by (rewrite <- (Qfloor_Z z); apply Qfloor_resp_le; exact H).
  lia.
Qed.

Lemma round_ne_lt_le (x : Q) (z : Z) : x < inject_Z z -> (round_ne x <= z)%Z.
Proof.
  intros H. pose proof (round_ne_bounds x).
  assert (Qfloor x < z)%Z.
  { apply Z.nle_gt. intro H'. rewrite Zle_Qle in H'. pose proof (Qfloor_le x). lra. }
  lia.
Qed.

Lemma round_pos_nonneg (q : Q) : 0 < q -> 0 <= round_pos q.
Proof.
  intros Hq. unfold round_pos.
  apply Qmult_le_0_compat; [|apply Qlt_le_weak, pow2_pos].
  change 0 with (inject_Z 0). rewrite <- Zle_Qle. apply round_ne_floor_le.
  apply Qmult_le_0_compat; [lra|apply Qlt_le_weak, pow2_pos].
Qed.

Lemma round_pos_mono (q q' : Q) : 0 < q -> q <= q' -> round_pos q <= round_pos q'.
Proof.
  intros Hq Hqq'. pose proof (ulp_exp_mono q q' Hq Hqq') as He.
  destruct (ulp_exp_spec q Hq) as [L [U _]].
  destruct (ulp_exp_spec q' ltac:(lra)) as [L' [_ Hm']].
  unfold round_pos. set (e := ulp_exp q) in *. set (e' := ulp_exp q') in *.
  destruct (Z.eq_dec e e') as [E|E].
  - rewrite <- E. apply Qmult_le_compat_r; [|apply Qlt_le_weak, pow2_pos].
    rewrite <- Zle_Qle. apply round_ne_mono.
    apply Qmult_le_compat_r; [exact Hqq'|apply Qlt_le_weak, pow2_pos].
  - destruct Hm' as [Hm|N']; [lia|].
    assert (R1 : (round_ne (q * 2 ^ (- e)) <= 9007199254740992)%Z).
    { apply round_ne_lt_le. rewrite <- pow2_53. exact U. }
    assert (R2 : (4503599627370496 <= round_ne (q' * 2 ^ (- e')))%Z).
    { apply round_ne_floor_le. rewrite <- pow2_52. exact N'. }
    rewrite Zle_Qle in R1, R2.
    assert (C : 2 ^ 53 * 2 ^ e <= 2 ^ 52 * 2 ^ e').
    { rewrite <- !pow2_plus. apply pow2_le. lia. }
    rewrite pow2_52, pow2_53 in C.
    assert (P := pow2_pos e). assert (P' := pow2_pos e').
    change (inject_Z 9007199254740992) with 9007199254740992 in R1.
    change (inject_Z 4503599627370496) with 4503599627370496 in R2.
    nra.
Qed.

Lemma round_double_nonneg (q : Q) : 0 <= q -> 0 <= round_double q.
Proof.
  intros H. unfold round_double.
  destruct (Qltb 0 q) eqn:E1; [apply Qltb_true in E1; apply round_pos_nonneg; exact E1|].
  destruct (Qltb q 0) eqn:E2; [apply Qltb_true in E2; lra|lra].
Qed.

Lemma round_double_nonpos (q : Q) : q <= 0 -> round_double q <= 0.
Proof.
  intros H. unfold round_double.
  destruct (Qltb 0 q) eqn:E1; [apply Qltb_true in E1; lra|].
  destruct (Qltb q 0) eqn:E2; [|lra].
  apply Qltb_true in E2. assert (0 <= round_pos (- q)) by (apply round_pos_nonneg; lra). lra.
Qed.

Lemma round_double_mono (q q' : Q) : q <= q' -> round_double q <= round_double q'.
Proof.
  intros H. destruct (Qlt_le_dec 0 q) as [Hq|Hq].
  - unfold round_double.
    assert (E1 : Qltb 0 q = true) by (apply Qltb_true; exact Hq).
    assert (E2 : Qltb 0 q' = true) by (apply Qltb_true; lra).
    rewrite E1, E2. apply round_pos_mono; assumption.
  - destruct (Qlt_le_dec q' 0) as [Hq'|Hq'].
    + unfold round_double.
      assert (E1 : Qltb 0 q = false).
      { destruct (Qltb 0 q) eqn:E; [apply Qltb_true in E; lra|reflexivity]. }
      assert (E2 : Qltb 0 q' = false).
      { destruct (Qltb 0 q') eqn:E; [apply Qltb_true in E; lra|reflexivity]. }
      assert (E3 : Qltb q 0 = true) by (apply Qltb_true; lra).
      assert (E4 : Qltb q' 0 = true) by (apply Qltb_true; lra).
      rewrite E1, E2, E3, E4.
      assert (round_pos (- q') <= round_pos (- q)) by (apply round_pos_mono; lra).
      lra.
    + assert (A := round_double_nonpos q Hq). assert (B := round_double_nonneg q' Hq').
      lra.
Qed.

Lemma fl_mono (q q' : Q) : q <= q' -> pf_le (fl q) (fl q').
Proof.
  intros H. assert (R := round_double_mono q q' H). unfold fl.
  set (M := 2 ^ 1024). assert (HM : 0 < M) by apply pow2_pos. clearbody M.
  set (r := round_double q) in *. set (r' := round_double q') in *.
  assert (S1 : 0 <= q -> 0 <= r) by apply round_double_nonneg.
  assert (S2 : q' <= 0 -> r' <= 0) by apply round_double_nonpos.
  destruct (Qle_bool M (Qabs r)) eqn:A; destruct (Qle_bool M (Qabs r')) eqn:A';
  destruct (Qle_bool 0 q) eqn:B; destruct (Qle_bool 0 q') eqn:B'; simpl; auto;
  repeat match goal with
  | E : Qle_bool _ _ = true |- _ => apply Qle_bool_iff in E
  | E : Qle_bool _ _ = false |- _ =>
      apply not_true_iff_false in E; rewrite Qle_bool_iff in E; apply Qnot_le_lt in E
  end;
  repeat match goal with
  | E : context [Qabs ?x] |- _ =>
      let h := fresh in destruct (Qlt_le_dec x 0) as [h|h];
      [rewrite (Qabs_neg x) in * by lra|rewrite (Qabs_pos x) in * by lra]
  end; try lra. all: exfalso; (first [specialize (S1 ltac:(lra)) | idtac]); (first [specialize (S2 ltac:(lra)) | idtac]); lra.
Qed.

Lemma fl_nonneg (q : Q) : 0 <= q -> (exists y, fl q = Fin y /\ 0 <= y) \/ fl q = Inf true.
Proof.
  intros H. unfold fl. destruct (Qle_bool _ _).
  - right. rewrite (proj2 (Qle_bool_iff 0 q) H). reflexivity.
  - left. eexists. split; [reflexivity|apply round_double_nonneg; exact H].
Qed.

Lemma py_max_fin_shape (c : Q) (b : PyFloat) :
  (exists x, py_max (Fin c) b = Fin x /\ c <= x) \/
  (b = Inf true /\ py_max (Fin c) b = Inf true).
Proof.
  unfold py_max, py_gt. destruct b as [y|[|]|].
  - destruct (Qltb c y) eqn:E.
    + left. exists y. split; [reflexivity|apply Qltb_true in E; lra].
    + left. exists c. split; [reflexivity|lra].
  - right. split; reflexivity.
  - left. exists c. split; [reflexivity|lra].
  - left. exists c. split; [reflexivity|lra].
Qed.

Lemma py_max_fin_mono (c : Q) (b b' : PyFloat) :
  pf_le b b' -> pf_le (py_max (Fin c) b) (py_max (Fin c) b').
Proof.
  unfold py_max, py_gt.
  destruct b as [y|[|]|], b' as [y'|[|]|]; simpl; try tauto; intros H;
  repeat match goal with |- context [Qltb ?a ?b] => destruct (Qltb a b) eqn:? end; simpl;
  repeat match goal with
  | E : Qltb _ _ = true |- _ => apply Qltb_true in E
  | E : Qltb _ _ = false |- _ => apply Qltb_false in E
  end; try exact I; lra.
Qed.

(** The double [0.05]. *)
Lemma fl_005 : fl 0.05 = Fin (7205759403792794 # 144115188075855872).
Proof. vm_compute. reflexivity. Qed.

(** The float [100 * span] of [auto_steps]. *)
Lemma auto_steps_product (r_min r_max : Q) :
  let p := py_mul (Fin 100) (py_max (fl 0.05) (fl (r_max - r_min))) in
  ((exists y, p = Fin y /\ 0 <= y) \/ p = Inf true) /\
  auto_steps r_min r_max = match p with
                           | Fin y => Ok (Z.min (Z.max (py_int y) 151) 801)
                           | Inf _ => Raise OverflowError
                           | NaN => Raise ValueError
                           end.
Proof.
  intros p. split.
  - unfold p. rewrite fl_005.
    destruct (py_max_fin_shape (7205759403792794 # 144115188075855872) (fl (r_max - r_min)))
      as [[x [-> Hx]]|[_ ->]].
    + apply fl_nonneg. lra.
    + right. reflexivity.
  - unfold p, auto_steps, res_bind. cbv zeta.
    destruct (py_mul _ _); reflexivity.
Qed.

Lemma product_mono (r_min r_max r_min' r_max' : Q) :
  r_max - r_min <= r_max' - r_min' ->
  pf_le (py_mul (Fin 100) (py_max (fl 0.05) (fl (r_max - r_min))))
        (py_mul (Fin 100) (py_max (fl 0.05) (fl (r_max' - r_min')))).
Proof.
  intros H. rewrite fl_005.
  set (c := 7205759403792794 # 144115188075855872).
  assert (M := py_max_fin_mono c _ _ (fl_mono _ _ H)).
  destruct (py_max_fin_shape c (fl (r_max - r_min))) as [[x [Ex Hx]]|[_ Ex]];
  destruct (py_max_fin_shape c (fl (r_max' - r_min'))) as [[x' [Ex' Hx']]|[_ Ex']];
  rewrite Ex, Ex' in *; simpl in M.
  - apply fl_mono. unfold c in *. nra.
  - change (py_mul (Fin 100) (Inf true)) with (Inf true).
    simpl py_mul. destruct (fl (100 * x)) as [|[|]|] eqn:E; try exact I.
    unfold fl in E. destruct (Qle_bool _ _); discriminate E.
  - contradiction.
  - exact I.
Qed.

Lemma py_int_mono (y y' : Q) : 0 <= y -> y <= y' -> (py_int y <= py_int y')%Z.
Proof.
  intros H0 H. unfold py_int.
  rewrite (proj2 (Qle_bool_iff 0 y) H0), (proj2 (Qle_bool_iff 0 y') ltac:(lra)).
  apply Qfloor_resp_le. exact H.
Qed.

(** [auto_steps] on finite floats returns a count in [[151, 801]] or
    raises [OverflowError] (when [r_max - r_min] or [100 * span] overflows
    to [inf]).  The count is [int()] of the float product: for the span
    [2.03] (the double nearest to it), [100 * span] is
    [202.99999999999997] and the count is [202], not
    [floor(100 * 2.03) = 203]. *)
Theorem auto_steps_range (r_min r_max : Q) :
  match auto_steps r_min r_max with
  | Ok s => (151 <= s <= 801)%Z
  | Raise e => e = OverflowError
  end /\
  auto_steps 0 (round_double (203 # 100)) = Ok 202%Z /\
  Qfloor (100 * (203 # 100)) = 203%Z.
Proof.
  split; [|split; [vm_compute; reflexivity|reflexivity]].
  destruct (auto_steps_product r_min r_max) as [[[y [Ey _]]|Ey] ->]; rewrite Ey; [lia|reflexivity].
Qed.

(** [auto_steps] never decreases as the span [r_max - r_min] grows: of
    two spans, the larger gives a count at least as large, and when the
    smaller one raises, so does the larger. *)
Theorem auto_steps_monotone (r_min r_max r_min' r_max' : Q) :
  r_max - r_min <= r_max' - r_min' ->
  match auto_steps r_min r_max, auto_steps r_min' r_max' with
  | Ok s, Ok s' => (s <= s')%Z
  | Raise _, Ok _ => False
  | _, _ => True
  end.
Proof.
  intros H. assert (M := product_mono _ _ _ _ H).
  destruct (auto_steps_product r_min r_max) as [[[y [Ey Hy]]|Ey] ->];
  destruct (auto_steps_product r_min' r_max') as [[[y' [Ey' Hy']]|Ey'] ->];
  rewrite Ey, Ey' in *; simpl in M; try exact I; try contradiction.
  pose proof (py_int_mono y y' Hy M). lia.
Qed.

Lemma auto_steps_monotone_witness :
  1 - 0 <= 3 - 0 /\
  match auto_steps 0 1, auto_steps 0 3 with
  | Ok s, Ok s' => (s <= s')%Z
  | Raise _, Ok _ => False
  | _, _ => True
  end.
Proof.
  split; [lra|]. apply (auto_steps_monotone 0 1 0 3). lra.
Defined.

Lemma dedup_from_cover (tol last : Q) (vs : list Q) (v : Q) :
  0 <= tol -> In v vs ->
  exists w, In w (last :: dedup_from tol last vs) /\ Qabs (v - w) <= tol.
Proof.
  intros Htol. revert last. induction vs as [|u vs IH]; intros last Hin; [destruct Hin|].
  cbn [dedup_from]. destruct (Qltb tol (Qabs (u - last))) eqn:E.
  - destruct Hin as [<-|Hin].
    + exists u. split; [right; left; reflexivity|]. setoid_replace (u - u) with 0 by ring. exact Htol.
    + destruct (IH u Hin) as [w [Hw Hd]]. exists w. split; [right; exact Hw|exact Hd].
  - destruct Hin as [<-|Hin].
    + exists last. split; [left; reflexivity|]. apply Qltb_false. exact E.
    + exact (IH last Hin).
Qed.

Lemma unique_sorted_cover (tol : Q) (vals : list Q) (v : Q) :
  0 <= tol -> In v vals -> exists w, In w (unique_sorted tol vals) /\ Qabs (v - w) <= tol.
Proof.
  intros Htol Hin. apply (Permutation_in v (sortQ_perm vals)) in Hin.
  unfold unique_sorted. destruct (sortQ vals) as [|s ss]; [destruct Hin|].
  destruct Hin as [->|Hin].
  - exists v. split; [left; reflexivity|]. setoid_replace (v - v) with 0 by ring. exact Htol.
  - exact (dedup_from_cover tol s ss v Htol Hin).
Qed.

(** [unique_sorted] returns an ascending list of values of the input,
    consecutive ones more than [tol] apart, and every input value lies
    within [tol] of some returned value. *)
Theorem unique_sorted_covers (tol : Q) (vals : list Q) :
  0 <= tol ->
  StronglySorted (fun a b => tol < b - a) (unique_sorted tol vals) /\
  (forall w, In w (unique_sorted tol vals) -> In w vals) /\
  (forall v, In v vals -> exists w, In w (unique_sorted tol vals) /\ Qabs (v - w) <= tol).
Proof.
  intros Htol. split; [apply gaps_ssorted; [exact Htol|apply unique_sorted_gaps]|].
  split; [intros w; apply unique_sorted_incl|].
  intros v. apply unique_sorted_cover. exact Htol.
Qed.

Lemma unique_sorted_covers_witness :
  0 <= 0.0001 /\
  StronglySorted (fun a b => 0.0001 < b - a) (unique_sorted 0.0001 [1; 0; 1.00001]) /\
  (forall w, In w (unique_sorted 0.0001 [1; 0; 1.00001]) -> In w [1; 0; 1.00001]) /\
  (forall v, In v [1; 0; 1.00001] ->
     exists w, In w (unique_sorted 0.0001 [1; 0; 1.00001]) /\ Qabs (v - w) <= 0.0001).
Proof.
  split; [lra|]. apply unique_sorted_covers. lra.
Defined.

Lemma sortQ_id (l : list Q) : Sorted Qle l -> sortQ l = l.
Proof.
  induction l as [|x l IH]; intros Hs; [reflexivity|].
  apply Sorted_inv in Hs as [Hs Hh]. simpl. rewrite (IH Hs).
  destruct l as [|y l]; [reflexivity|]. inversion Hh; subst.
  simpl. rewrite (proj2 (Qle_bool_iff x y) H0). reflexivity.
Qed.

Lemma dedup_from_ssorted (tol last : Q) (vs : list Q) :
  StronglySorted Qle (last :: vs) -> StronglySorted Qle (last :: dedup_from tol last vs).
Proof.
  revert last. induction vs as [|v vs IH]; intros last Hs; [exact Hs|].
  inversion Hs as [|? ? Hs' Hall]; subst. inversion Hall as [|? ? Hlv Hall']; subst.
  cbn [dedup_from]. destruct (Qltb tol (Qabs (v - last))).
  - constructor; [apply IH; exact Hs'|].
    constructor; [exact Hlv|].
    apply Forall_forall. intros w Hw. apply dedup_from_incl in Hw.
    eapply Forall_forall in Hall'; [exact Hall'|exact Hw].
  - apply IH. constructor; [inversion Hs'; assumption|exact Hall'].
Qed.

Lemma unique_sorted_sorted (tol : Q) (vals : list Q) :
  Sorted Qle (unique_sorted tol vals).
Proof.
  apply StronglySorted_Sorted. unfold unique_sorted. pose proof (sortQ_ssorted vals) as Hs.
  destruct (sortQ vals) as [|v vs]; [constructor|]. apply dedup_from_ssorted. exact Hs.
Qed.

Lemma dedup_from_gaps_id (tol last : Q) (vs : list Q) :
  gaps tol (last :: vs) -> dedup_from tol last vs = vs.
Proof.
  revert last. induction vs as [|v vs IH]; intros last Hg; [reflexivity|].
  destruct Hg as [Hlt Hg]. cbn [dedup_from].
  rewrite (proj2 (Qltb_true _ _)) by (eapply Qlt_le_trans; [exact Hlt|apply Qle_Qabs]).
  rewrite (IH v Hg). reflexivity.
Qed.

(** Applying [unique_sorted] to its own output changes nothing. *)
Theorem unique_sorted_idempotent (tol : Q) (vals : list Q) :
  unique_sorted tol (unique_sorted tol vals) = unique_sorted tol vals.
Proof.
  pose proof (unique_sorted_gaps tol vals) as Hg.
  pose proof (unique_sorted_sorted tol vals) as Hs.
  unfold unique_sorted at 1. rewrite (sortQ_id _ Hs).
  destruct (unique_sorted tol vals) as [|v vs]; [reflexivity|].
  rewrite (dedup_from_gaps_id tol v vs Hg). reflexivity.
Qed.

Lemma argmin_go_lt (l : list (option Q)) (i : nat) (mp : option Q) (m : nat) :
  (m < i)%nat -> (argmin_go l i mp m < i + length l)%nat.
Proof.
  revert i mp m. induction l as [|x l IH]; intros i mp m H; simpl; [lia|].
  destruct (float_ge x mp).
  - specialize (IH (S i) mp m ltac:(lia)). lia.
  - destruct x; [specialize (IH (S i) (Some q) i ltac:(lia)); lia|lia].
Qed.

Lemma argmin_lt (l : list (option Q)) : l <> [] -> (argmin l < length l)%nat.
Proof.
  intros H. destruct l as [|x l]; [contradiction|].
  destruct x; simpl; [|lia]. apply (argmin_go_lt l 1 (Some q) 0). lia.
Qed.

Lemma length_concat_uniform {A} (c : nat) (D : list (list A)) :
  Forall (fun row => length row = c) D -> length (concat D) = (length D * c)%nat.
Proof.
  induction 1 as [|row D Hr _ IH]; [reflexivity|].
  simpl. rewrite length_app, Hr, IH. reflexivity.
Qed.

Lemma remove_nth_perm {A} (i : nat) (l : list A) (d : A) :
  (i < length l)%nat -> Permutation l (nth i l d :: remove_nth i l).
Proof.
  revert i. induction l as [|a l IH]; intros i H; [simpl in H; lia|].
  destruct i as [|i]; [reflexivity|]. simpl in *.
  eapply perm_trans; [apply perm_skip, (IH i ltac:(lia))|apply perm_swap].
Qed.

Lemma length_remove_nth {A} (i : nat) (l : list A) :
  (i < length l)%nat -> length (remove_nth i l) = pred (length l).
Proof.
  revert i. induction l as [|a l IH]; intros i H; [simpl in H; lia|].
  destruct i as [|i]; [reflexivity|]. simpl in *. rewrite IH by lia.
  destruct l; simpl in *; lia.
Qed.

(** Every index taken out of [unmatched_prev] or [unmatched_new] by the
    matching loop goes into [pairs]. *)
Lemma match_loop_perm (fuel : nat) (up un : list nat) (D : list (list (option Q)))
    (pairs pairs' : list (nat * nat)) (up' un' : list nat) :
  length D = length up -> Forall (fun row => length row = length un) D ->
  match_loop fuel up un D pairs = (pairs', up', un') ->
  Permutation (map fst pairs ++ up) (map fst pairs' ++ up') /\
  Permutation (map snd pairs ++ un) (map snd pairs' ++ un').
Proof.
  revert up un D pairs.
  induction fuel as [|fuel IH]; intros up un D pairs HD Hrows E.
  - injection E as <- <- <-. split; reflexivity.
  - cbn [match_loop] in E.
    destruct (negb (length D * length (hd [] D) =? 0)%nat && any_finite D) eqn:Hc;
      [|injection E as <- <- <-; split; reflexivity].
    apply andb_true_iff in Hc as [Hc _]. apply negb_true_iff, Nat.eqb_neq in Hc.
    destruct D as [|row D']; [simpl in Hc; lia|].
    pose proof (Forall_inv Hrows) as Hrow. cbv beta in Hrow. simpl hd in *.
    pose proof (length_concat_uniform _ _ Hrows) as Hlen. rewrite HD in Hlen.
    set (k := argmin (concat (row :: D'))) in E.
    assert (Hk : (k < length up * length un)%nat).
    { rewrite <- Hlen. apply argmin_lt.
      intro Hn. rewrite Hn in Hlen. simpl in Hlen. rewrite Hrow in Hc. rewrite HD in Hc. lia. }
    rewrite Hrow in E.
    assert (Hun : length un <> 0%nat) by (rewrite Hrow in Hc; lia).
    assert (Hi : (Nat.div k (length un) < length up)%nat).
    { apply Nat.Div0.div_lt_upper_bound. lia. }
    assert (Hj : (Nat.modulo k (length un) < length un)%nat) by (apply Nat.mod_upper_bound; exact Hun).
    set (i := Nat.div k (length un)) in *. set (j := Nat.modulo k (length un)) in *.
    assert (P1 : Permutation (map fst pairs ++ up)
                   (map fst (pairs ++ [(nth i up O, nth j un O)]) ++ remove_nth i up)).
    { rewrite map_app, <- app_assoc. apply Permutation_app_head. apply remove_nth_perm. exact Hi. }
    assert (P2 : Permutation (map snd pairs ++ un)
                   (map snd (pairs ++ [(nth i up O, nth j un O)]) ++ remove_nth j un)).
    { rewrite map_app, <- app_assoc. apply Permutation_app_head. apply remove_nth_perm. exact Hj. }
    destruct (remove_nth i up) as [|u up0] eqn:Eup; [injection E as <- <- <-; split; assumption|].
    destruct (remove_nth j un) as [|v un0] eqn:Eun; [injection E as <- <- <-; split; assumption|].
    rewrite <- Eup, <- Eun in E. rewrite <- Eup in P1. rewrite <- Eun in P2.
    assert (HD' : length (delete_row_col i j (row :: D')) = length (remove_nth i up)).
    { unfold delete_row_col. rewrite length_map, !length_remove_nth; [lia|lia|].
      rewrite HD. exact Hi. }
    assert (Hrows' : Forall (fun r => length r = length (remove_nth j un))
                       (delete_row_col i j (row :: D'))).
    { unfold delete_row_col. apply Forall_map, Forall_forall. intros r Hr.
      apply remove_nth_incl in Hr. eapply Forall_forall in Hrows; [|exact Hr].
      cbv beta in Hrows. rewrite !length_remove_nth; lia. }
    destruct (IH _ _ _ _ HD' Hrows' E) as [Q1 Q2].
    split; eapply perm_trans; eassumption.
Qed.

Lemma nth_set_last_lt {A} (v : A) (l : list A) (t : nat) (d : A) :
  (S t < length l)%nat -> nth t (set_last v l) d = nth t l d.
Proof.
  revert t. induction l as [|a l IH]; intros t H; [simpl in H; lia|].
  destruct l as [|b l]; [simpl in H; lia|].
  destruct t as [|t]; [reflexivity|]. cbn [set_last nth]. apply IH. simpl in *. lia.
Qed.

Lemma nth_set_last_last {A} (v : A) (l : list A) (s : nat) (d : A) :
  length l = S s -> nth s (set_last v l) d = v.
Proof.
  revert s. induction l as [|a l IH]; intros s H; [discriminate|].
  destruct l as [|b l]; [simpl in H; injection H as <-; reflexivity|].
  destruct s as [|s]; [simpl in H; lia|]. cbn [set_last nth]. apply IH. simpl in *. lia.
Qed.

Lemma flat_map_update_nth_eq {A B} (P : A -> Prop) (f : A -> list B) (g : A -> A)
    (i : nat) (l : list A) :
  (forall b, P b -> f (g b) = f b) -> Forall P l ->
  flat_map f (update_nth i g l) = flat_map f l.
Proof.
  intros Hg Hl. revert i. induction Hl as [|a l Ha Hl IH]; intros i; [destruct i; reflexivity|].
  destruct i as [|i]; simpl; [rewrite (Hg a Ha); reflexivity|rewrite IH; reflexivity].
Qed.

Lemma flat_map_update_nth_perm {A B} (f : A -> list B) (g : A -> A) (i : nat) (l : list A) (d : A) :
  (i < length l)%nat -> f (nth i l d) = [] ->
  Permutation (flat_map f (update_nth i g l)) (f (g (nth i l d)) ++ flat_map f l).
Proof.
  revert i. induction l as [|a l IH]; intros i Hi Hf; [simpl in Hi; lia|].
  destruct i as [|i]; simpl in *.
  - rewrite Hf. reflexivity.
  - rewrite (IH i ltac:(lia) Hf). rewrite !app_assoc. apply Permutation_app_tail.
    apply Permutation_app_comm.
Qed.

Lemma nth_update_nth_neq {A} (i j : nat) (g : A -> A) (l : list A) (d : A) :
  i <> j -> nth j (update_nth i g l) d = nth j l d.
Proof.
  revert i j. induction l as [|a l IH]; intros i j H; [destruct i; reflexivity|].
  destruct i, j; simpl; try reflexivity; [lia|]. apply IH. lia.
Qed.

Lemma length_update_nth {A} (i : nat) (g : A -> A) (l : list A) :
  length (update_nth i g l) = length l.
Proof.
  revert i. induction l as [|a l IH]; intros i; [destruct i; reflexivity|].
  destruct i; simpl; [reflexivity|rewrite IH; reflexivity].
Qed.

Lemma flat_map_of_map {A B C} (f : B -> list C) (g : A -> B) (l : list A) :
  flat_map f (map g l) = flat_map (fun x => f (g x)) l.
Proof. induction l as [|a l IH]; simpl; [reflexivity|rewrite IH; reflexivity]. Qed.

Lemma flat_map_ext_Forall {A B} (P : A -> Prop) (f g : A -> list B) (l : list A) :
  Forall P l -> (forall x, P x -> f x = g x) -> flat_map f l = flat_map g l.
Proof.
  intros Hl Hfg. induction Hl as [|a l Ha _ IH]; [reflexivity|].
  simpl. rewrite (Hfg a Ha), IH. reflexivity.
Qed.

Lemma flat_map_nil' {A B} (f : A -> list B) (l : list A) :
  (forall x, In x l -> f x = []) -> flat_map f l = [].
Proof.
  intros H. induction l as [|a l IH]; [reflexivity|].
  simpl. rewrite (H a (or_introl eq_refl)), IH; [reflexivity|]. intros x Hx. apply H. right. exact Hx.
Qed.

Lemma flat_map_singleton {A B} (f : A -> B) (l : list A) :
  flat_map (fun x => [f x]) l = map f l.
Proof. induction l as [|a l IH]; simpl; [reflexivity|rewrite IH; reflexivity]. Qed.

Lemma column_app (t : nat) (bs1 bs2 : list BranchAcc) :
  column t (bs1 ++ bs2) = column t bs1 ++ column t bs2.
Proof. unfold column. apply flat_map_app. Qed.

Lemma fold_column_old (s t : nat) (new_roots : list Q) (new_stab : list Stab)
    (pairs : list (nat * nat)) (bs : list BranchAcc) :
  (t < s)%nat -> Forall (len_ok (S s)) bs ->
  column t (fold_left (fun bs0 p => update_nth (fst p) (upd_branch new_roots new_stab p) bs0)
                      pairs bs) = column t bs /\
  Forall (len_ok (S s))
    (fold_left (fun bs0 p => update_nth (fst p) (upd_branch new_roots new_stab p) bs0) pairs bs).
Proof.
  intros Ht. revert bs. induction pairs as [|p pairs IH]; intros bs Hl; [split; [reflexivity|exact Hl]|].
  simpl. assert (Hl' : Forall (len_ok (S s)) (update_nth (fst p) (upd_branch new_roots new_stab p) bs)).
  { apply Forall_update_nth; [exact Hl|]. intros b [H1 H2]. unfold upd_branch, len_ok. simpl.
    rewrite !set_last_length. split; assumption. }
  destruct (IH _ Hl') as [IH1 IH2]. split; [|exact IH2]. rewrite IH1.
  unfold column. apply (flat_map_update_nth_eq (len_ok (S s))); [|exact Hl].
  intros b [H1 H2]. unfold entry_at, upd_branch. simpl.
  rewrite !nth_set_last_lt by lia. reflexivity.
Qed.

Lemma fold_column_new (s : nat) (new_roots : list Q) (new_stab : list Stab)
    (pairs : list (nat * nat)) (bs : list BranchAcc) :
  Forall (len_ok (S s)) bs ->
  NoDup (map fst pairs) -> (forall p, In p pairs -> (fst p < length bs)%nat) ->
  (forall p, In p pairs -> entry_at s (nth (fst p) bs ([], [])) = []) ->
  Permutation
    (column s (fold_left (fun bs0 p => update_nth (fst p) (upd_branch new_roots new_stab p) bs0)
                         pairs bs))
    (map (fun p => (nth (snd p) new_roots 0, nth_error new_stab (snd p))) pairs ++ column s bs).
Proof.
  revert bs. induction pairs as [|p pairs IH]; intros bs Hl Hnd Hlt Hempty; [reflexivity|].
  simpl. simpl in Hnd. apply NoDup_cons_iff in Hnd as [Hnin Hnd].
  set (bs' := update_nth (fst p) (upd_branch new_roots new_stab p) bs).
  assert (Hl' : Forall (len_ok (S s)) bs').
  { apply Forall_update_nth; [exact Hl|]. intros b [H1 H2]. unfold upd_branch, len_ok. simpl.
    rewrite !set_last_length. split; assumption. }
  assert (Hlen' : length bs' = length bs) by apply length_update_nth.
  eapply perm_trans.
  - apply IH; [exact Hl'|exact Hnd| |].
    + intros q Hq. rewrite Hlen'. apply Hlt. right. exact Hq.
    + intros q Hq. unfold bs'. rewrite nth_update_nth_neq.
      * apply Hempty. right. exact Hq.
      * intro He. apply Hnin. rewrite He. apply in_map. exact Hq.
  - eapply perm_trans; [apply Permutation_app_head|apply Permutation_sym, Permutation_middle].
    change ((nth (snd p) new_roots 0, nth_error new_stab (snd p)) :: column s bs)
      with ([(nth (snd p) new_roots 0, nth_error new_stab (snd p))] ++ column s bs).
    unfold bs', column. eapply perm_trans.
    + apply flat_map_update_nth_perm; [apply Hlt; left; reflexivity|].
      apply Hempty. left. reflexivity.
    + assert (Hb : len_ok (S s) (nth (fst p) bs ([], []))).
      { eapply Forall_forall; [exact Hl|]. apply nth_In. apply Hlt. left. reflexivity. }
      destruct Hb as [H1 H2].
      unfold entry_at at 1, upd_branch. simpl.
      rewrite !nth_set_last_last by assumption. reflexivity.
Qed.

Lemma map_entry_seq (roots : list Q) (stabs : list Stab) :
  length stabs = length roots ->
  map (fun jn => (nth jn roots 0, nth_error stabs jn)) (seq 0 (length roots)) =
  combine roots (map Some stabs).
Proof.
  revert stabs. induction roots as [|r roots IH]; intros stabs H; [reflexivity|].
  destruct stabs as [|st stabs]; [discriminate|]. simpl in H. injection H as H.
  simpl length. rewrite <- cons_seq, <- seq_shift. cbn [map]. rewrite map_map. simpl.
  f_equal. apply IH. exact H.
Qed.

Lemma track_step_columns (roots_list : list (list Q)) (stabs_list : list (list Stab))
    (s : nat) (bs : list BranchAcc) :
  length (nth s stabs_list []) = length (nth s roots_list []) ->
  branches_inv s bs -> columns_ok roots_list stabs_list s bs ->
  columns_ok roots_list stabs_list (S s)
    (track_step s bs (nth s roots_list []) (nth s stabs_list [])).
Proof.
  intros Hlen Hinv Hcol. unfold track_step.
  set (new_roots := nth s roots_list []) in *.
  set (new_stab := nth s stabs_list []) in *.
  lazymatch goal with
  | |- columns_ok _ _ _ (match ?M with pair _ _ => _ end) => destruct M as [[pairs up'] un'] eqn:Em
  end.
  assert (HP : Permutation (seq 0 (length bs)) (map fst pairs ++ up') /\
               Permutation (seq 0 (length new_roots)) (map snd pairs ++ un')).
  { rewrite length_map in Em.
    remember (seq 0 (length bs)) as up0 eqn:Eup0.
    remember (seq 0 (length new_roots)) as un0 eqn:Eun0.
    destruct up0 as [|a l]; [cbn in Em; injection Em as <- <- <-; split; reflexivity|].
    destruct un0 as [|j0 l0]; [cbn in Em; injection Em as <- <- <-; split; reflexivity|].
    apply match_loop_perm in Em; [exact Em| |].
    - unfold dist_matrix. rewrite length_map. reflexivity.
    - unfold dist_matrix. apply Forall_map, Forall_forall. intros ip _. rewrite length_map. reflexivity. }
  destruct HP as [HP1 HP2].
  set (app_bs := map (fun b => (fst b ++ [None], snd b ++ [None])) bs).
  assert (Hlok : Forall (len_ok (S s)) app_bs).
  { apply Forall_map. eapply Forall_impl; [|exact Hinv]. intros b [H1 H2].
    unfold len_ok. simpl. rewrite !length_app, <- (Forall2_length H2), H1. simpl. lia. }
  assert (Hold : forall t, (t < s)%nat -> column t app_bs = column t bs).
  { intros t Ht. unfold column, app_bs. rewrite flat_map_of_map.
    apply (flat_map_ext_Forall _ _ _ _ Hinv). intros b [H1 H2].
    unfold entry_at. simpl. rewrite !app_nth1; [reflexivity| |]; rewrite ?(Forall2_length H2) in *; lia. }
  assert (Hnew_empty : Forall (fun b => entry_at s b = []) app_bs).
  { apply Forall_map. eapply Forall_impl; [|exact Hinv]. intros b [H1 H2].
    unfold entry_at. simpl. rewrite app_nth2 by lia. rewrite H1, Nat.sub_diag. reflexivity. }
  change (fold_left (fun bs0 p =>
            update_nth (fst p)
              (fun b => (set_last (Some (nth (snd p) new_roots 0)) (fst b),
                         set_last (nth_error new_stab (snd p)) (snd b))) bs0) pairs app_bs)
    with (fold_left (fun bs0 p => update_nth (fst p) (upd_branch new_roots new_stab p) bs0)
                    pairs app_bs).
  intros t Ht. rewrite column_app.
  assert (Hlen_app : length app_bs = length bs) by apply length_map.
  destruct (Nat.lt_ge_cases t s) as [Hts|Hts].
  - destruct (fold_column_old s t new_roots new_stab pairs app_bs Hts Hlok) as [-> _].
    rewrite Hold by exact Hts.
    replace (column t (map (fun jn => (repeat None s ++ [Some (nth jn new_roots 0)],
                                       repeat None s ++ [nth_error new_stab jn])) un'))
      with (@nil (Q * option Stab)).
    + rewrite app_nil_r. apply Hcol. exact Hts.
    + unfold column. rewrite flat_map_of_map. symmetry. apply flat_map_nil'. intros jn _.
      unfold entry_at. simpl. rewrite app_nth1 by (rewrite repeat_length; lia).
      rewrite nth_repeat. reflexivity.
  - assert (t = s) as -> by lia. clear Ht Hts.
    eapply perm_trans; [apply Permutation_app_tail, fold_column_new|].
    + exact Hlok.
    + apply (NoDup_app_remove_r _ up'). eapply Permutation_NoDup; [exact HP1|apply seq_NoDup].
    + intros p Hp. unfold app_bs. rewrite length_map.
      assert (Hin : In (fst p) (seq 0 (length bs))).
      { apply (Permutation_in _ (Permutation_sym HP1)). apply in_or_app. left. apply in_map. exact Hp. }
      apply in_seq in Hin. exact (proj2 Hin).
    + intros p _. destruct (Nat.lt_ge_cases (fst p) (length app_bs)) as [Hi|Hi].
      * eapply Forall_forall in Hnew_empty; [exact Hnew_empty|apply nth_In; exact Hi].
      * rewrite nth_overflow by exact Hi. unfold entry_at. simpl. destruct s; reflexivity.
    + replace (column s app_bs) with (@nil (Q * option Stab)).
      2:{ unfold column. symmetry. apply flat_map_nil'. intros b Hb.
          eapply Forall_forall in Hnew_empty; [exact Hnew_empty|exact Hb]. }
      rewrite app_nil_r.
      replace (column s (map (fun jn => (repeat None s ++ [Some (nth jn new_roots 0)],
                                         repeat None s ++ [nth_error new_stab jn])) un'))
        with (map (fun jn => (nth jn new_roots 0, nth_error new_stab jn)) un').
      2:{ unfold column. rewrite flat_map_of_map, <- flat_map_singleton. symmetry.
          apply (flat_map_ext_Forall (fun _ => True)); [apply Forall_forall; intros; exact I|].
          intros jn _. unfold entry_at. simpl.
          rewrite !app_nth2 by (rewrite repeat_length; lia).
          rewrite !repeat_length, !Nat.sub_diag. reflexivity. }
      rewrite <- (map_map snd (fun jn => (nth jn new_roots 0, nth_error new_stab jn))).
      rewrite <- map_app.
      change (combine (nth s roots_list []) (map Some (nth s stabs_list [])))
        with (combine new_roots (map Some new_stab)).
      rewrite <- (map_entry_seq new_roots new_stab Hlen).
      apply Permutation_map. apply Permutation_sym. exact HP2.
Qed.

Lemma track_fold_columns (roots_list : list (list Q)) (stabs_list : list (list Stab)) :
  (forall t, length (nth t stabs_list []) = length (nth t roots_list [])) ->
  forall k s bs, branches_inv s bs -> columns_ok roots_list stabs_list s bs ->
  columns_ok roots_list stabs_list (s + k)
    (fold_left (fun bs t => track_step t bs (nth t roots_list []) (nth t stabs_list []))
               (seq s k) bs).
Proof.
  intros Hl k. induction k as [|k IH]; intros s bs Hinv Hcol; simpl.
  - rewrite Nat.add_0_r. exact Hcol.
  - replace (s + S k)%nat with (S s + k)%nat by lia.
    apply IH; [apply track_step_inv; [apply Hl|exact Hinv]|].
    apply track_step_columns; [apply Hl|exact Hinv|exact Hcol].
Qed.

Lemma combine_map_r {A B C} (f : B -> C) (l : list A) (l' : list B) :
  combine l (map f l') = map (fun p => (fst p, f (snd p))) (combine l l').
Proof.
  revert l'. induction l as [|a l IH]; intros l'; [reflexivity|].
  destruct l' as [|b l']; [reflexivity|]. simpl. rewrite IH. reflexivity.
Qed.

(** The shape of the tracker's output: every branch spans the grid, and
    the branches hold at each sample exactly that sample's roots with their
    labels. *)
Lemma track_branches_shape (Rs : list Q) (roots_list : list (list Q))
    (stabs_list : list (list Stab)) :
  (1 <= length Rs)%nat ->
  length roots_list = length Rs -> length stabs_list = length Rs ->
  (forall t, length (nth t stabs_list []) = length (nth t roots_list [])) ->
  exists branches,
    track_branches Rs roots_list stabs_list = Some branches /\
    Forall (fun b => br b = Rs /\ length (bx b) = length Rs /\
                     length (bstab b) = length Rs /\
                     Forall2 (fun x s => x = None <-> s = None) (bx b) (bstab b))
           branches /\
    (forall t, (t < length Rs)%nat ->
       Permutation
         (flat_map (fun b => match nth t (bx b) None with
                             | Some v => [(v, nth t (bstab b) None)]
                             | None => []
                             end) branches)
         (combine (nth t roots_list []) (map Some (nth t stabs_list [])))).
Proof.
  intros HT Hr Hs Hl.
  destruct roots_list as [|r0 rl]; [simpl in Hr; lia|].
  destruct stabs_list as [|s0 sl]; [simpl in Hs; lia|].
  eexists. split; [reflexivity|].
  set (init := map (fun p => ([Some (fst p)], [Some (snd p)])) (combine r0 s0)).
  assert (Hinit : branches_inv 1 init).
  { apply Forall_map, Forall_forall. intros p _. split; [reflexivity|].
    constructor; [split; intro H; discriminate H|constructor]. }
  assert (Hcol0 : columns_ok (r0 :: rl) (s0 :: sl) 1 init).
  { intros t Ht. assert (t = 0%nat) as -> by lia. unfold column, init.
    rewrite flat_map_of_map. cbn [nth].
    rewrite combine_map_r, <- flat_map_singleton. unfold entry_at. simpl. reflexivity. }
  pose proof (track_fold_inv (r0 :: rl) (s0 :: sl) Hl (length Rs - 1) 1 _ Hinit) as Hf.
  pose proof (track_fold_columns (r0 :: rl) (s0 :: sl) Hl (length Rs - 1) 1 _ Hinit Hcol0) as Hc.
  replace (1 + (length Rs - 1))%nat with (length Rs) in Hf, Hc by lia.
  revert Hf Hc.
  generalize (fold_left (fun bs t => track_step t bs (nth t (r0 :: rl) []) (nth t (s0 :: sl) []))
                        (seq 1 (length Rs - 1)) init).
  intros accs Hf Hc.
  assert (Hconv : map (fun b => if (length (fst b) <? length Rs)%nat then
                                  mkBranch Rs (fst b ++ repeat None (length Rs - length (fst b)))
                                              (snd b ++ repeat None (length Rs - length (fst b)))
                                else mkBranch Rs (fst b) (snd b)) accs =
                  map (fun b => mkBranch Rs (fst b) (snd b)) accs).
  { apply map_ext_in. intros b Hb. eapply Forall_forall in Hf; [|exact Hb].
    destruct Hf as [Hlen _]. rewrite Hlen, Nat.ltb_irrefl. reflexivity. }
  rewrite Hconv. split.
  - apply Forall_map. eapply Forall_impl; [|exact Hf].
    intros b [Hlen Hagree]. simpl.
    split; [reflexivity|]. split; [exact Hlen|].
    split; [rewrite <- (Forall2_length Hagree); exact Hlen|exact Hagree].
  - intros t Ht. rewrite flat_map_of_map. apply Hc. exact Ht.
Qed.

(** Each root found at a sample is held by exactly one branch at that
    sample, with its own stability label. *)
Theorem track_branches_partition :
  forall (Rs : list Q) (roots_list : list (list Q)) (stabs_list : list (list Stab)),
    (1 <= length Rs)%nat ->
    length roots_list = length Rs -> length stabs_list = length Rs ->
    (forall t, length (nth t stabs_list []) = length (nth t roots_list [])) ->
    exists branches,
      track_branches Rs roots_list stabs_list = Some branches /\
      forall t, (t < length Rs)%nat ->
        Permutation
          (flat_map (fun b => match nth t (bx b) None with
                              | Some v => [(v, nth t (bstab b) None)]
                              | None => []
                              end) branches)
          (combine (nth t roots_list []) (map Some (nth t stabs_list []))).
Proof.
  intros Rs roots_list stabs_list HT Hr Hs Hl.
  destruct (track_branches_shape Rs roots_list stabs_list HT Hr Hs Hl) as [bs [E [_ H]]].
  exists bs. split; [exact E|exact H].
Qed.

Lemma track_branches_partition_witness :
  exists branches,
    track_branches [0; 1; 2] [[0; 1]; [0]; [0; 1]]
                   [[Estable; Inestable]; [Estable]; [Estable; Inestable]] = Some branches /\
    forall t, (t < 3)%nat ->
      Permutation
        (flat_map (fun b => match nth t (bx b) None with
                            | Some v => [(v, nth t (bstab b) None)]
                            | None => []
                            end) branches)
        (combine (nth t [[0; 1]; [0]; [0; 1]] [])
                 (map Some (nth t [[Estable; Inestable]; [Estable]; [Estable; Inestable]] []))).
Proof.
  apply (track_branches_partition [0; 1; 2] [[0; 1]; [0]; [0; 1]]
           [[Estable; Inestable]; [Estable]; [Estable; Inestable]]);
    [simpl; lia|reflexivity|reflexivity|].
  intros [|[|[|[|t]]]]; reflexivity.
Defined.

(** ** The driver [compute_and_plot] *)


Lemma classify_counts_ne (nb na : nat) (sh : bool) :
  nb <> na ->
  classify_counts nb na sh =
  if ((nb =? 1) && (na =? 3)) || ((nb =? 3) && (na =? 1)) then Horquilla else SillaNodo.
Proof.
  intros Hne. unfold classify_counts.
  case_chain; try reflexivity; try lia; congruence.
Qed.

Lemma In_adjacent {A} (l : list A) (a b : A) :
  In (a, b) (adjacent l) -> In a l /\ In b l.
Proof.
  unfold adjacent. intros H. split.
  - exact (in_combine_l _ _ _ _ H).
  - apply in_combine_r in H. destruct l as [|c l]; [destruct H|right; exact H].
Qed.

Lemma sweep_equilibria_cons (np_roots : list Q -> list (Q * Q)) (F : Field) (a b r : Q)
    (Rs : list Q) (eqs : list (list Q)) :
  sweep_equilibria np_roots F a b (r :: Rs) = Ok eqs ->
  exists l ls, find_equilibria np_roots F r a b = Ok l /\
               sweep_equilibria np_roots F a b Rs = Ok ls /\ eqs = l :: ls.
Proof.
  cbn [sweep_equilibria]. intros H.
  destruct (find_equilibria np_roots F r a b) as [l|e]; [|discriminate].
  destruct (sweep_equilibria np_roots F a b Rs) as [ls|e]; [|discriminate].
  injection H as <-. exists l, ls. split; [reflexivity|split; reflexivity].
Qed.

Lemma sweep_equilibria_in (np_roots : list Q -> list (Q * Q)) (F : Field) (a b : Q)
    (Rs : list Q) (eqs : list (list Q)) (r : Q) :
  sweep_equilibria np_roots F a b Rs = Ok eqs -> In r Rs ->
  exists l, find_equilibria np_roots F r a b = Ok l.
Proof.
  revert eqs. induction Rs as [|r1 Rs IH]; intros eqs H Hr; [destruct Hr|].
  destruct (sweep_equilibria_cons _ _ _ _ _ _ _ H) as [l [ls [H1 [Hs _]]]].
  destruct Hr as [<-|Hr]; [exists l; exact H1|exact (IH ls Hs Hr)].
Qed.

(** The sweep's lists have the counts [eq_count] of their samples. *)
Lemma sweep_equilibria_lengths (np_roots : list Q -> list (Q * Q)) (F : Field) (a b : Q)
    (Rs : list Q) (eqs : list (list Q)) :
  sweep_equilibria np_roots F a b Rs = Ok eqs ->
  map (@length Q) eqs = map (fun r => eq_count np_roots F r a b) Rs.
Proof.
  revert eqs. induction Rs as [|r Rs IH]; intros eqs H.
  - cbn in H. injection H as <-. reflexivity.
  - destruct (sweep_equilibria_cons _ _ _ _ _ _ _ H) as [l [ls [Hf [Hs ->]]]].
    cbn [map]. rewrite (IH ls Hs). f_equal. unfold eq_count. rewrite Hf. reflexivity.
Qed.

(** [_detect_bifurcation_type] on a sweep solved on the window [[a, b]]
    and re-solved on [[x_min, x_max]]: one event per adjacent pair whose
    counts on [[a, b]] differ. *)
Lemma detect_on_sweep (np_roots : list Q -> list (Q * Q)) (F : Field) (a b x_min x_max : Q)
    (Rs : list Q) (eqs : list (list Q)) :
  sweep_equilibria np_roots F a b Rs = Ok eqs ->
  detect_bifurcation_type np_roots F x_min x_max Rs eqs =
  map (fun q => ((fst q + snd q) / 2,
                 analyze_bifurcation_at_point np_roots F x_min x_max
                   ((fst q + snd q) / 2) (fst q) (snd q)))
      (filter (fun q => negb (eq_count np_roots F (fst q) a b =? eq_count np_roots F (snd q) a b))
              (adjacent Rs)).
Proof.
  revert eqs. induction Rs as [|r1 Rs IH]; intros eqs H.
  - cbn in H. injection H as <-. reflexivity.
  - destruct (sweep_equilibria_cons _ _ _ _ _ _ _ H) as [e1 [es [H1 [Hs ->]]]].
    destruct Rs as [|r2 rs].
    + cbn in Hs. injection Hs as <-. reflexivity.
    + destruct (sweep_equilibria_cons _ _ _ _ _ _ _ Hs) as [e2 [es' [H2 [_ ->]]]].
      rewrite detect_bifurcation_type_cons, (IH (e2 :: es') Hs).
      change (adjacent (r1 :: r2 :: rs)) with ((r1, r2) :: adjacent (r2 :: rs)).
      cbn [filter fst snd].
      replace (eq_count np_roots F r1 a b) with (length e1) by (unfold eq_count; rewrite H1; reflexivity).
      replace (eq_count np_roots F r2 a b) with (length e2) by (unfold eq_count; rewrite H2; reflexivity).
      destruct (length e1 =? length e2); reflexivity.
Qed.

(** An event between two samples with different counts: pitchfork on
    [1 <-> 3], saddle-node otherwise, unclassified when the solve at the
    midpoint raises. *)
Lemma analyze_count_change (np_roots : list Q -> list (Q * Q)) (F : Field)
    (x_min x_max r_bif r1 r2 : Q) (l1 l2 : list Q) :
  find_equilibria np_roots F r1 x_min x_max = Ok l1 ->
  find_equilibria np_roots F r2 x_min x_max = Ok l2 ->
  length l1 <> length l2 ->
  analyze_bifurcation_at_point np_roots F x_min x_max r_bif r1 r2 =
  match find_equilibria np_roots F r_bif x_min x_max with
  | Ok _ => if ((length l1 =? 1) && (length l2 =? 3)) || ((length l1 =? 3) && (length l2 =? 1))
            then Horquilla else SillaNodo
  | Raise _ => NoClasificada
  end.
Proof.
  intros H1 H2 Hne. rewrite analyze_bifurcation_at_point_counts, H1, H2.
  destruct (find_equilibria np_roots F r_bif x_min x_max); [|reflexivity].
  apply classify_counts_ne. exact Hne.
Qed.

(** The events of [_detect_bifurcation_type] on the driver's own sweep. *)
Lemma sweep_events_spec (np_roots : list Q -> list (Q * Q)) (F : Field) (x_min x_max : Q)
    (Rs : list Q) (eqs : list (list Q)) :
  sweep_equilibria np_roots F x_min x_max Rs = Ok eqs ->
  detect_bifurcation_type np_roots F x_min x_max Rs eqs =
  map (fun q => ((fst q + snd q) / 2,
                 match find_equilibria np_roots F ((fst q + snd q) / 2) x_min x_max with
                 | Ok _ =>
                     if ((eq_count np_roots F (fst q) x_min x_max =? 1)
                         && (eq_count np_roots F (snd q) x_min x_max =? 3))
                        || ((eq_count np_roots F (fst q) x_min x_max =? 3)
                            && (eq_count np_roots F (snd q) x_min x_max =? 1))
                     then Horquilla else SillaNodo
                 | Raise _ => NoClasificada
                 end))
      (filter (fun q => negb (eq_count np_roots F (fst q) x_min x_max
                              =? eq_count np_roots F (snd q) x_min x_max))
              (adjacent Rs)).
Proof.
  intros H. rewrite (detect_on_sweep np_roots F x_min x_max x_min x_max Rs eqs H).
  apply map_ext_in. intros [r1 r2] Hq. apply filter_In in Hq. destruct Hq as [Hq Hc].
  cbn [fst snd] in *. apply negb_true_iff, Nat.eqb_neq in Hc.
  destruct (In_adjacent _ _ _ Hq) as [I1 I2].
  destruct (sweep_equilibria_in _ _ _ _ _ _ r1 H I1) as [l1 E1].
  destruct (sweep_equilibria_in _ _ _ _ _ _ r2 H I2) as [l2 E2].
  unfold eq_count in *. rewrite E1, E2 in *.
  rewrite (analyze_count_change _ _ _ _ _ _ _ l1 l2 E1 E2 Hc). reflexivity.
Qed.

Lemma stab_labels_length (fx : Q -> Q -> SymVal) (rv : Q) (roots : list Q) (l : list Stab) :
  stab_labels fx rv roots = Ok l -> length l = length roots.
Proof.
  revert l. induction roots as [|x xs IH]; intros l H; simpl in H.
  - injection H as <-. reflexivity.
  - destruct (stability_fx fx x rv) as [[stab v]|e]; [|discriminate].
    destruct (stab_labels fx rv xs) as [l'|e] eqn:E; [|discriminate].
    injection H as <-. simpl. f_equal. apply IH. reflexivity.
Qed.

Lemma compute_sweep_ok (np_roots : list Q -> list (Q * Q)) (F : Field)
    (fx : Q -> Q -> SymVal) (x_min x_max : Q) (Rs : list Q) rl sl :
  compute_sweep np_roots F fx x_min x_max Rs = Ok (rl, sl) ->
  sweep_equilibria np_roots F x_min x_max Rs = Ok rl /\ length sl = length Rs /\
  (forall t, length (nth t sl []) = length (nth t rl [])).
Proof.
  revert rl sl. induction Rs as [|rv Rs IH]; intros rl sl H; cbn [compute_sweep] in H.
  - injection H as <- <-. split; [reflexivity|split; [reflexivity|]].
    intros [|t]; reflexivity.
  - cbn [sweep_equilibria].
    destruct (find_equilibria np_roots F rv x_min x_max) as [roots|e]; [|discriminate].
    destruct (stab_labels fx rv roots) as [stabs|e] eqn:Es; [|discriminate].
    destruct (compute_sweep np_roots F fx x_min x_max Rs) as [[rl' sl']|e]; [|discriminate].
    injection H as <- <-. destruct (IH rl' sl' eq_refl) as [-> [Hl Ht]].
    split; [reflexivity|]. split; [simpl; f_equal; exact Hl|].
    intros [|t]; [apply (stab_labels_length fx rv _ _ Es)|apply Ht].
Qed.

Lemma linspace_length (a b : Q) (n : nat) : length (linspace a b n) = n.
Proof.
  destruct n as [|[|m]]; [reflexivity|reflexivity|].
  unfold linspace. rewrite length_app, length_map, length_seq. simpl. lia.
Qed.

Lemma auto_steps_pos (r_min r_max : Q) (s : Z) :
  auto_steps r_min r_max = Ok s -> (151 <= s)%Z.
Proof.
  unfold auto_steps, res_bind. cbv zeta.
  destruct (py_int_float _) as [n|e]; [|discriminate].
  intros H. injection H as <-. lia.
Qed.

Lemma r_steps_value_pos (parsed : option Z) (r_min r_max : Q) (s : Z) :
  r_steps_value parsed r_min r_max = Ok s -> (1 <= s)%Z.
Proof.
  unfold r_steps_value. intros H.
  destruct parsed as [n|]; [destruct (0 <? n)%Z eqn:E|].
  - injection H as <-. apply Z.ltb_lt in E. lia.
  - apply auto_steps_pos in H. lia.
  - apply auto_steps_pos in H. lia.
Qed.

Lemma fold_max_const (l : list nat) (x : nat) :
  Forall (fun y => y = x) l -> fold_left Nat.max l x = x.
Proof.
  induction 1 as [|y l Hy _ IH]; [reflexivity|]. simpl. subst y.
  rewrite Nat.max_id. exact IH.
Qed.

Lemma fold_min_const (l : list nat) (x : nat) :
  Forall (fun y => y = x) l -> fold_left Nat.min l x = x.
Proof.
  induction 1 as [|y l Hy _ IH]; [reflexivity|]. simpl. subst y.
  rewrite Nat.min_id. exact IH.
Qed.

Lemma adjacent_const {A} (f : A -> nat) (a : A) (l : list A) :
  (forall p, In p (adjacent (a :: l)) -> f (fst p) = f (snd p)) ->
  Forall (fun y => f y = f a) l.
Proof.
  revert a. induction l as [|b l IH]; intros a H; [constructor|].
  change (adjacent (a :: b :: l)) with ((a, b) :: adjacent (b :: l)) in H.
  assert (Hab : f a = f b) by exact (H (a, b) (or_introl eq_refl)).
  constructor; [symmetry; exact Hab|].
  eapply Forall_impl; [|apply IH; intros p Hp; apply H; right; exact Hp].
  intros y Hy. simpl in Hy. congruence.
Qed.

Lemma filter_nil_false {A} (f : A -> bool) (l : list A) :
  filter f l = [] -> forall x, In x l -> f x = false.
Proof.
  induction l as [|y l IH]; intros H x Hx; [destruct Hx|].
  simpl in H. destruct (f y) eqn:E; [discriminate|].
  destruct Hx as [<-|Hx]; [exact E|exact (IH H x Hx)].
Qed.

(** A run of [compute_and_plot] that returns has gone through the sample
    count, the grid, the sweep, the branches, the detection and the status
    line, and stored what they computed. *)
Lemma compute_and_plot_ok (np_roots : list Q -> list (Q * Q)) (F : Field)
    (fx : Q -> Q -> SymVal) (plot_f : Q -> Res unit) (f_eval : Q -> Q -> Res PyFloat)
    (parsed : option Z) (phase_parsed : option (list Q)) (r_min r_max x_min x_max : Q)
    (p : PlotResult) :
  compute_and_plot np_roots F fx plot_f f_eval parsed phase_parsed r_min r_max x_min x_max = Ok p ->
  r_steps_value parsed r_min r_max = Ok (p_steps p) /\
  p_Rs p = linspace r_min r_max (Z.to_nat (p_steps p)) /\
  compute_sweep np_roots F fx x_min x_max (p_Rs p) = Ok (p_roots p, p_stabs p) /\
  p_branches p = track_branches (p_Rs p) (p_roots p) (p_stabs p) /\
  p_bifs p = detect_bifurcation_type np_roots F x_min x_max (p_Rs p) (p_roots p) /\
  p_status p = status_of (p_bifs p) (p_roots p) (p_steps p).
Proof.
  unfold compute_and_plot, res_bind. intros H.
  destruct (r_steps_value parsed r_min r_max) as [s|e] eqn:Es; [|discriminate].
  destruct (compute_sweep _ _ _ _ _ _) as [[rl sl]|e] eqn:Ec; [|discriminate].
  cbn [fst snd] in H.
  destruct (track_branches _ rl sl) as [bs|] eqn:Et; [|discriminate].
  destruct (status_of _ rl s) as [st|] eqn:Est; [|discriminate].
  repeat match type of H with
         | context [match ?m with Ok _ => _ | Raise _ => _ end] =>
             destruct m; [|discriminate]
         end.
  injection H as <-. cbn [p_steps p_Rs p_roots p_stabs p_branches p_bifs p_status].
  split; [reflexivity|]. split; [reflexivity|]. split; [exact Ec|].
  split; [symmetry; exact Et|]. split; [reflexivity|]. symmetry. exact Est.
Qed.

(** The status line: the bifurcation count when some event is detected,
    otherwise the note that the number of equilibria does not change. *)
Theorem compute_and_plot_status :
  forall (np_roots : list Q -> list (Q * Q)) (F : Field) (fx : Q -> Q -> SymVal)
         (plot_f : Q -> Res unit) (f_eval : Q -> Q -> Res PyFloat)
         (parsed : option Z) (phase_parsed : option (list Q)) (r_min r_max x_min x_max : Q)
         (p : PlotResult),
    compute_and_plot np_roots F fx plot_f f_eval parsed phase_parsed r_min r_max x_min x_max
      = Ok p ->
    r_steps_value parsed r_min r_max = Ok (p_steps p) /\
    p_status p =
      Some (match p_bifs p with
            | [] => StatusNote (p_steps p)
            | _ :: _ => StatusBifs (length (p_bifs p))
            end).
Proof.
  intros np_roots F fx plot_f f_eval parsed phase_parsed r_min r_max x_min x_max p H.
  destruct (compute_and_plot_ok _ _ _ _ _ _ _ _ _ _ _ _ H) as [Hs [HR [Hc [_ [Hb Hst]]]]].
  split; [exact Hs|]. rewrite Hst. unfold status_of.
  destruct (compute_sweep_ok _ _ _ _ _ _ _ _ Hc) as [Hsw _].
  destruct (p_bifs p) as [|ev evs] eqn:Ed; [|reflexivity].
  cbn [length Nat.ltb Nat.leb].
  rewrite (sweep_events_spec _ _ _ _ _ _ Hsw) in Hb.
  symmetry in Hb. apply map_eq_nil in Hb.
  rewrite (sweep_equilibria_lengths _ _ _ _ _ _ Hsw).
  assert (HRs : (1 <= length (p_Rs p))%nat).
  { rewrite HR, linspace_length. pose proof (r_steps_value_pos _ _ _ _ Hs). lia. }
  destruct (p_Rs p) as [|r0 rest]; [simpl in HRs; lia|].
  assert (Hc' : Forall (fun y => eq_count np_roots F y x_min x_max =
                                 eq_count np_roots F r0 x_min x_max) rest).
  { apply (adjacent_const (fun r => eq_count np_roots F r x_min x_max)). intros q Hq.
    pose proof (filter_nil_false _ _ Hb q Hq) as Hq'. cbv beta in Hq'.
    apply negb_false_iff, Nat.eqb_eq in Hq'. exact Hq'. }
  cbn [map py_max_nat py_min_nat].
  assert (Hm : Forall (fun y => y = eq_count np_roots F r0 x_min x_max)
                      (map (fun r => eq_count np_roots F r x_min x_max) rest)).
  { apply Forall_map. exact Hc'. }
  rewrite (fold_max_const _ _ Hm), (fold_min_const _ _ Hm), Nat.eqb_refl. reflexivity.
Qed.

Lemma compute_and_plot_status_witness :
  exists p,
    compute_and_plot np_roots_upto2 saddle_field saddle_fx (fun _ => Ok tt)
      (fun x r => Ok (Fin (r + x * x))) (Some 3%Z) None (-1) 1 (-2) 2 = Ok p /\
    r_steps_value (Some 3%Z) (-1) 1 = Ok (p_steps p) /\
    p_status p =
      Some (match p_bifs p with
            | [] => StatusNote (p_steps p)
            | _ :: _ => StatusBifs (length (p_bifs p))
            end).
Proof.
  eexists. split; [vm_compute; reflexivity|].
  apply (compute_and_plot_status np_roots_upto2 saddle_field saddle_fx (fun _ => Ok tt)
           (fun x r => Ok (Fin (r + x * x))) (Some 3%Z) None (-1) 1 (-2) 2).
  vm_compute. reflexivity.
Defined.

(** The diagram's branches: the grid has [r_steps_val] samples,
    [track_branches] succeeds on the driver's sweep, every branch spans the
    whole grid with NaN and [None] at the same places, and at each sample
    the branches hold exactly the roots found there with their stability
    labels. *)
Theorem compute_and_plot_branches :
  forall (np_roots : list Q -> list (Q * Q)) (F : Field) (fx : Q -> Q -> SymVal)
         (plot_f : Q -> Res unit) (f_eval : Q -> Q -> Res PyFloat)
         (parsed : option Z) (phase_parsed : option (list Q)) (r_min r_max x_min x_max : Q)
         (p : PlotResult),
    compute_and_plot np_roots F fx plot_f f_eval parsed phase_parsed r_min r_max x_min x_max
      = Ok p ->
    r_steps_value parsed r_min r_max = Ok (p_steps p) /\
    length (p_Rs p) = Z.to_nat (p_steps p) /\
    exists branches,
      p_branches p = Some branches /\
      Forall (fun b => br b = p_Rs p /\ length (bx b) = length (p_Rs p) /\
                       length (bstab b) = length (p_Rs p) /\
                       Forall2 (fun x s => x = None <-> s = None) (bx b) (bstab b))
             branches /\
      (forall t, (t < length (p_Rs p))%nat ->
         Permutation
           (flat_map (fun b => match nth t (bx b) None with
                               | Some v => [(v, nth t (bstab b) None)]
                               | None => []
                               end) branches)
           (combine (nth t (p_roots p) []) (map Some (nth t (p_stabs p) [])))).
Proof.
  intros np_roots F fx plot_f f_eval parsed phase_parsed r_min r_max x_min x_max p H.
  destruct (compute_and_plot_ok _ _ _ _ _ _ _ _ _ _ _ _ H) as [Hs [HR [Hc [Hbr _]]]].
  assert (HRs : length (p_Rs p) = Z.to_nat (p_steps p)) by (rewrite HR; apply linspace_length).
  split; [exact Hs|]. split; [exact HRs|].
  destruct (compute_sweep_ok _ _ _ _ _ _ _ _ Hc) as [Hsw [Hsl Ht]].
  rewrite Hbr.
  apply track_branches_shape; [| |exact Hsl|exact Ht].
  - rewrite HRs. pose proof (r_steps_value_pos _ _ _ _ Hs). lia.
  - rewrite <- (length_map (@length Q) (p_roots p)), (sweep_equilibria_lengths _ _ _ _ _ _ Hsw).
    apply length_map.
Qed.

Lemma compute_and_plot_branches_witness :
  exists p,
    compute_and_plot np_roots_upto2 saddle_field saddle_fx (fun _ => Ok tt)
      (fun x r => Ok (Fin (r + x * x))) (Some 3%Z) None (-1) 1 (-2) 2 = Ok p /\
    r_steps_value (Some 3%Z) (-1) 1 = Ok (p_steps p) /\
    length (p_Rs p) = Z.to_nat (p_steps p) /\
    exists branches,
      p_branches p = Some branches /\
      Forall (fun b => br b = p_Rs p /\ length (bx b) = length (p_Rs p) /\
                       length (bstab b) = length (p_Rs p) /\
                       Forall2 (fun x s => x = None <-> s = None) (bx b) (bstab b))
             branches /\
      (forall t, (t < length (p_Rs p))%nat ->
         Permutation
           (flat_map (fun b => match nth t (bx b) None with
                               | Some v => [(v, nth t (bstab b) None)]
                               | None => []
                               end) branches)
           (combine (nth t (p_roots p) []) (map Some (nth t (p_stabs p) [])))).
Proof.
  eexists. split; [vm_compute; reflexivity|].
  apply (compute_and_plot_branches np_roots_upto2 saddle_field saddle_fx (fun _ => Ok tt)
           (fun x r => Ok (Fin (r + x * x))) (Some 3%Z) None (-1) 1 (-2) 2).
  vm_compute. reflexivity.
Defined.

(** The events reported by [compute_and_plot]: the sample counts are
    those of the sweep, and there is one event per adjacent pair of grid
    samples whose counts differ, at the midpoint.  It is labelled pitchfork
    on a [1 <-> 3] change and saddle-node otherwise; when the solve at the
    midpoint raises, the [except] of [_analyze_bifurcation_at_point] labels
    it unclassified.  The counts re-solved at the two samples are those of
    the sweep, so the transcritical label (equal counts) is never
    reported. *)
Theorem compute_and_plot_events :
  forall (np_roots : list Q -> list (Q * Q)) (F : Field) (fx : Q -> Q -> SymVal)
         (plot_f : Q -> Res unit) (f_eval : Q -> Q -> Res PyFloat)
         (parsed : option Z) (phase_parsed : option (list Q)) (r_min r_max x_min x_max : Q)
         (p : PlotResult),
    compute_and_plot np_roots F fx plot_f f_eval parsed phase_parsed r_min r_max x_min x_max
      = Ok p ->
    map (@length Q) (p_roots p) = map (fun r => eq_count np_roots F r x_min x_max) (p_Rs p) /\
    p_bifs p =
    map (fun q => ((fst q + snd q) / 2,
                   match find_equilibria np_roots F ((fst q + snd q) / 2) x_min x_max with
                   | Ok _ =>
                       if ((eq_count np_roots F (fst q) x_min x_max =? 1)
                           && (eq_count np_roots F (snd q) x_min x_max =? 3))
                          || ((eq_count np_roots F (fst q) x_min x_max =? 3)
                              && (eq_count np_roots F (snd q) x_min x_max =? 1))
                       then Horquilla else SillaNodo
                   | Raise _ => NoClasificada
                   end))
        (filter (fun q => negb (eq_count np_roots F (fst q) x_min x_max
                                =? eq_count np_roots F (snd q) x_min x_max))
                (adjacent (p_Rs p))).
Proof.
  intros np_roots F fx plot_f f_eval parsed phase_parsed r_min r_max x_min x_max p H.
  destruct (compute_and_plot_ok _ _ _ _ _ _ _ _ _ _ _ _ H) as [_ [_ [Hc [_ [Hb _]]]]].
  destruct (compute_sweep_ok _ _ _ _ _ _ _ _ Hc) as [Hsw _].
  split; [exact (sweep_equilibria_lengths _ _ _ _ _ _ Hsw)|].
  rewrite Hb. exact (sweep_events_spec _ _ _ _ _ _ Hsw).
Qed.

Lemma compute_and_plot_events_witness :
  exists p,
    compute_and_plot np_roots_upto2 saddle_field saddle_fx (fun _ => Ok tt)
      (fun x r => Ok (Fin (r + x * x))) (Some 3%Z) None (-1) 1 (-2) 2 = Ok p /\
    map (@length Q) (p_roots p) =
      map (fun r => eq_count np_roots_upto2 saddle_field r (-2) 2) (p_Rs p) /\
    p_bifs p =
    map (fun q => ((fst q + snd q) / 2,
                   match find_equilibria np_roots_upto2 saddle_field ((fst q + snd q) / 2) (-2) 2 with
                   | Ok _ =>
                       if ((eq_count np_roots_upto2 saddle_field (fst q) (-2) 2 =? 1)
                           && (eq_count np_roots_upto2 saddle_field (snd q) (-2) 2 =? 3))
                          || ((eq_count np_roots_upto2 saddle_field (fst q) (-2) 2 =? 3)
                              && (eq_count np_roots_upto2 saddle_field (snd q) (-2) 2 =? 1))
                       then Horquilla else SillaNodo
                   | Raise _ => NoClasificada
                   end))
        (filter (fun q => negb (eq_count np_roots_upto2 saddle_field (fst q) (-2) 2
                                =? eq_count np_roots_upto2 saddle_field (snd q) (-2) 2))
                (adjacent (p_Rs p))).
Proof.
  eexists. split; [vm_compute; reflexivity|].
  apply (compute_and_plot_events np_roots_upto2 saddle_field saddle_fx (fun _ => Ok tt)
           (fun x r => Ok (Fin (r + x * x))) (Some 3%Z) None (-1) 1 (-2) 2).
  vm_compute. reflexivity.
Defined.

(** ** Unused helpers, critical parameter and phase arrows *)


Lemma In_adjacent_nth {A} (l : list A) (d a b : A) :
  In (a, b) (adjacent l) -> exists i, (S i < length l)%nat /\ nth i l d = a /\ nth (S i) l d = b.
Proof.
  induction l as [|x l IH]; [intros []|].
  destruct l as [|y l]; [intros []|].
  change (adjacent (x :: y :: l)) with ((x, y) :: adjacent (y :: l)).
  intros [E|Hin].
  - injection E as <- <-. exists 0%nat. simpl. split; [lia|split; reflexivity].
  - destruct (IH Hin) as [i [Hi [Ha Hb]]]. exists (S i).
    split; [simpl in *; lia|split; assumption].
Qed.

Lemma critical_at_none (last_Rs : option (list Q)) (i : nat) : critical_at last_Rs i = None.
Proof.
  unfold critical_at. destruct last_Rs as [Rs|]; [|reflexivity].
  destruct (nth_error Rs (S i)), (nth_error Rs i); reflexivity.
Qed.

Lemma critical_r_of_count_change :
  forall (last_Rs : option (list Q)) (roots_list : list (list Q))
         (last_stabs_list : option (list (list Stab))) (r_min r_max : Q) (e1 e2 : list Q),
    In (e1, e2) (adjacent roots_list) -> length e1 <> length e2 ->
    detect_critical_r last_Rs (Some roots_list) last_stabs_list r_min r_max = 0.
Proof.
  intros last_Rs roots_list stabs r_min r_max e1 e2 Hin Hne.
  destruct (In_adjacent_nth roots_list [] e1 e2 Hin) as [i [Hi [H1 H2]]].
  unfold detect_critical_r.
  destruct roots_list as [|r0 rl]; [simpl in Hi; lia|].
  set (f := fun i => negb (length (nth i (r0 :: rl) []) =? length (nth (S i) (r0 :: rl) []))%nat).
  destruct (find f (seq 0 (length (r0 :: rl) - 1))) as [j|] eqn:E.
  - rewrite critical_at_none. reflexivity.
  - exfalso. apply find_none with (x := i) in E.
    + unfold f in E. rewrite H1, H2 in E. apply negb_false_iff, Nat.eqb_eq in E. lia.
    + apply in_seq. lia.
Qed.

(** [_detect_critical_r] returns [0.0] as soon as the equilibrium count
    changes between two consecutive samples: [Rs] is then indexed by the
    float [i + (Rs[i+1] - Rs[i]) / 2], which raises, and the bare [except]
    returns [0.0]. *)
Theorem detect_critical_r_count_change :
  forall (last_Rs : option (list Q)) (roots_list : list (list Q))
         (last_stabs_list : option (list (list Stab))) (r_min r_max : Q) (e1 e2 : list Q),
    In (e1, e2) (adjacent roots_list) -> length e1 <> length e2 ->
    detect_critical_r last_Rs (Some roots_list) last_stabs_list r_min r_max = 0.
Proof. exact critical_r_of_count_change. Qed.

Lemma detect_critical_r_count_change_witness :
  In ([0], [0; 1]) (adjacent [[0]; [0; 1]; [0; 1]]) /\ length [0] <> length [0; 1] /\
  detect_critical_r (Some [0; 1; 2]) (Some [[0]; [0; 1]; [0; 1]])
    (Some [[Estable]; [Estable; Inestable]; [Estable; Inestable]]) 0 2 = 0.
Proof.
  split; [simpl; left; reflexivity|]. split; [simpl; lia|].
  apply (detect_critical_r_count_change (Some [0; 1; 2]) [[0]; [0; 1]; [0; 1]]
           (Some [[Estable]; [Estable; Inestable]; [Estable; Inestable]]) 0 2 [0] [0; 1]);
    [simpl; left; reflexivity|simpl; lia].
Defined.

(** [_is_saddle_node] holds exactly when the counts before and after differ
    by two and the count at the point is one more than the smaller: the
    first test ([2 -> 1 -> 0] or [0 -> 1 -> 2]) is a special case of the
    second, and the equilibrium lists are never read. *)
Theorem is_saddle_node_iff :
  forall (n_before n_at n_after : Z) (eq_before eq_at eq_after : list Q),
    is_saddle_node n_before n_at n_after eq_before eq_at eq_after = true <->
    Z.abs (n_after - n_before) = 2%Z /\ n_at = (Z.min n_before n_after + 1)%Z.
Proof.
  intros nb na nf eb ea ef. unfold is_saddle_node.
  destruct (((nb =? 2) && (na =? 1) && (nf =? 0)) || ((nb =? 0) && (na =? 1) && (nf =? 2)))%Z eqn:E1.
  - split; [intros _|reflexivity].
    rewrite orb_true_iff, !andb_true_iff, !Z.eqb_eq in E1. lia.
  - destruct ((Z.abs (nf - nb) =? 2) && (na =? Z.min nb nf + 1))%Z eqn:E2.
    + rewrite andb_true_iff, !Z.eqb_eq in E2. tauto.
    + rewrite andb_false_iff, !Z.eqb_neq in E2. split; [discriminate|lia].
Qed.



(** [_is_pitchfork] holds exactly on a [1 -> 3] change where some new
    equilibrium lies within [0.01] of the first old one, or on a [3 -> 1]
    change with three old equilibria where the first new one lies within
    [0.01] of the middle old one; empty lists give [False] through the bare
    [except]. *)
Theorem is_pitchfork_iff :
  forall (n_before n_after : Z) (eq_before eq_after : list Q),
    is_pitchfork n_before n_after eq_before eq_after = true <->
    (n_before = 1%Z /\ n_after = 3%Z /\
     exists original_eq rest, eq_before = original_eq :: rest /\
       exists new_eq, In new_eq eq_after /\ Qabs (new_eq - original_eq) < 0.01) \/
    (n_before = 3%Z /\ n_after = 1%Z /\ length eq_before = 3%nat /\
     exists final_eq rest, eq_after = final_eq :: rest /\
       Qabs (final_eq - nth 1 (sortQ eq_before) 0) < 0.01).
Proof.
  intros nb na eb ea. unfold is_pitchfork.
  destruct (Z.eqb_spec nb 1) as [E1|E1], (Z.eqb_spec na 3) as [E2|E2];
  destruct (Z.eqb_spec nb 3) as [E3|E3], (Z.eqb_spec na 1) as [E4|E4];
  try (exfalso; lia); cbv beta iota; cbn [andb orb negb];
  try (split; [discriminate|]; intros [[H1 [H2 _]]|[H1 [H2 _]]]; lia).
  - destruct eb as [|o rest]; cbv beta iota.
    + split; [discriminate|]. intros [[_ [_ [o [rest [H _]]]]]|[H _]]; [discriminate|lia].
    + rewrite existsb_exists. split.
      * intros [y [Hy Hlt]]. apply Qltb_true in Hlt. left.
        split; [exact E1|split; [exact E2|]]. exists o, rest. split; [reflexivity|].
        exists y. split; assumption.
      * intros [[_ [_ [o' [rest' [H [y [Hy Hlt]]]]]]]|[H _]]; [|lia].
        injection H as <- <-. exists y. split; [exact Hy|apply Qltb_true; exact Hlt].
  - destruct ea as [|f rest]; cbv beta iota.
    + split; [discriminate|]. intros [[H _]|[_ [_ [_ [f [rest [H _]]]]]]]; [lia|discriminate].
    + destruct (length eb =? 3)%nat eqn:E5.
      * apply Nat.eqb_eq in E5. rewrite Qltb_true. split.
        -- intros Hlt. right. split; [exact E3|split; [exact E4|split; [exact E5|]]].
           exists f, rest. split; [reflexivity|exact Hlt].
        -- intros [[H _]|[_ [_ [_ [f' [rest' [H Hlt]]]]]]]; [lia|].
           injection H as <- <-. exact Hlt.
      * apply Nat.eqb_neq in E5. split; [discriminate|].
        intros [[H _]|[_ [_ [H _]]]]; [lia|contradiction].
Qed.

Lemma Qle_bool_shift (a b c : Q) : Qle_bool (a + c) (b + c) = Qle_bool a b.
Proof.
  destruct (Qle_bool a b) eqn:E.
  - apply Qle_bool_iff in E. apply Qle_bool_iff. lra.
  - destruct (Qle_bool (a + c) (b + c)) eqn:E'; [|reflexivity].
    apply Qle_bool_iff in E'. exfalso.
    assert (H : a <= b) by lra. apply Qle_bool_iff in H. congruence.
Qed.

(** [_is_transcritical] never holds when the two equilibria after the
    point are those before it shifted by a common amount [c]: the position
    change of the sorted pairs is [0].  This includes the normal form
    [r*x - x**2] sampled at [r_bif -/+ delta] around [r_bif = 0], with
    equilibria [{-delta, 0}] before and [{0, delta}] after. *)
Theorem is_transcritical_shift_false :
  forall (fx : Q -> Q -> SymVal) (r_bif : Q) (eq_before : list Q) (c delta : Q),
    is_transcritical fx r_bif eq_before (map (fun x => x + c) eq_before) delta = false.
Proof.
  intros fx r_bif eb c delta. unfold is_transcritical.
  rewrite length_map, Nat.eqb_refl. cbn [negb orb].
  destruct eb as [|a [|b [|d l]]]; try reflexivity.
  cbn [length Nat.eqb negb map sortQ insertQ].
  rewrite Qle_bool_shift.
  destruct (Qltb 0.01 _) eqn:E; [|reflexivity].
  apply Qltb_true in E. exfalso.
  destruct (Qle_bool a b); cbn [nth] in E.
  - setoid_replace (a - (a + c) - (b - (b + c))) with 0 in E by ring. simpl in E. lra.
  - setoid_replace (b - (b + c) - (a - (a + c))) with 0 in E by ring. simpl in E. lra.
Qed.

Lemma flow_point_spec (f_num : Q -> Q -> PyFloat) (r_val x_min x_max den xp tail head : Q) :
  0 < (x_max - x_min) / den ->
  In (tail, head)
    (let dx := (x_max - x_min) / den in
     match f_num xp r_val with
     | Fin v =>
         if Qltb 0.00000001 (Qabs v) then
           let x0 := xp - dx / 2 in
           let x1 := xp + dx / 2 in
           if Qltb v 0 then [(x1, x0)] else [(x0, x1)]
         else []
     | _ => []
     end) ->
  exists v, f_num xp r_val = Fin v /\ 0.00000001 < Qabs v /\
    (tail + head) / 2 == xp /\ Qabs (head - tail) == (x_max - x_min) / den /\
    (0 < v <-> tail < head).
Proof.
  intros Hdx. cbv zeta. set (dx := (x_max - x_min) / den) in *. clearbody dx.
  change (dx / 2) with (dx * (1#2)).
  destruct (f_num xp r_val) as [v| |]; [|intros []|intros []].
  destruct (Qltb 0.00000001 (Qabs v)) eqn:Ev; [|intros []].
  apply Qltb_true in Ev.
  destruct (Qltb v 0) eqn:Es; intros [E|[]]; injection E as <- <-; exists v;
    (split; [reflexivity|]); (split; [exact Ev|]).
  - apply Qltb_true in Es.
    split; [field|]. split; [rewrite Qabs_neg by lra; lra|]. split; lra.
  - apply Qltb_false in Es. rewrite Qabs_pos in Ev by exact Es.
    split; [field|]. split; [rewrite Qabs_pos by lra; lra|]. split; lra.
Qed.

(** The flow arrows of the phase plots: each arrow is centred on a grid
    point where [f] is finite and not within [1e-8] of zero, has length
    [dx = (x_max - x_min) / den] and points right exactly when [f > 0];
    every such grid point gets an arrow. *)
Theorem flow_arrows_spec :
  forall (f_num : Q -> Q -> PyFloat) (r_val x_min x_max : Q) (n : nat) (den : Q),
    x_min < x_max -> 0 < den ->
    (forall tail head, In (tail, head) (flow_arrows f_num r_val x_min x_max n den) ->
       exists xp v, In xp (linspace x_min x_max n) /\ f_num xp r_val = Fin v /\
         0.00000001 < Qabs v /\ (tail + head) / 2 == xp /\
         Qabs (head - tail) == (x_max - x_min) / den /\ (0 < v <-> tail < head)) /\
    (forall xp v, In xp (linspace x_min x_max n) -> f_num xp r_val = Fin v ->
       0.00000001 < Qabs v ->
       exists tail head, In (tail, head) (flow_arrows f_num r_val x_min x_max n den) /\
         (tail + head) / 2 == xp /\ (0 < v <-> tail < head)).
Proof.
  intros f_num r_val x_min x_max n den Hx Hd.
  assert (Hdx : 0 < (x_max - x_min) / den) by (apply Qlt_shift_div_l; lra).
  split.
  - intros tail head Hin. unfold flow_arrows in Hin. apply in_flat_map in Hin.
    destruct Hin as [xp [Hxp Hin]].
    destruct (flow_point_spec f_num r_val x_min x_max den xp tail head Hdx Hin) as [v Hv].
    exists xp, v. split; [exact Hxp|exact Hv].
  - intros xp v Hxp Hf Hv.
    set (dx := (x_max - x_min) / den) in *.
    assert (Hmid : forall d, (xp - d / 2 + (xp + d / 2)) / 2 == xp /\
                             (xp + d / 2 + (xp - d / 2)) / 2 == xp) by (intros; split; field).
    destruct (Qltb v 0) eqn:Es.
    + exists (xp + dx / 2), (xp - dx / 2).
      unfold flow_arrows. split.
      * apply in_flat_map. exists xp. split; [exact Hxp|].
        cbv zeta. rewrite Hf. rewrite (proj2 (Qltb_true _ _) Hv), Es. left. reflexivity.
      * apply Qltb_true in Es. split; [apply Hmid|].
        clearbody dx. change (dx / 2) with (dx * (1#2)). split; lra.
    + exists (xp - dx / 2), (xp + dx / 2).
      unfold flow_arrows. split.
      * apply in_flat_map. exists xp. split; [exact Hxp|].
        cbv zeta. rewrite Hf. rewrite (proj2 (Qltb_true _ _) Hv), Es. left. reflexivity.
      * apply Qltb_false in Es. rewrite Qabs_pos in Hv by exact Es.
        split; [apply Hmid|]. clearbody dx. change (dx / 2) with (dx * (1#2)). split; lra.
Qed.

Lemma flow_arrows_spec_witness :
  -2 < 2 /\ 0 < 40 /\
  (forall tail head, In (tail, head) (flow_arrows relax_num 1 (-2) 2 27 40) ->
     exists xp v, In xp (linspace (-2) 2 27) /\ relax_num xp 1 = Fin v /\
       0.00000001 < Qabs v /\ (tail + head) / 2 == xp /\
       Qabs (head - tail) == (2 - -2) / 40 /\ (0 < v <-> tail < head)) /\
  (forall xp v, In xp (linspace (-2) 2 27) -> relax_num xp 1 = Fin v ->
     0.00000001 < Qabs v ->
     exists tail head, In (tail, head) (flow_arrows relax_num 1 (-2) 2 27 40) /\
       (tail + head) / 2 == xp /\ (0 < v <-> tail < head)).
Proof.
  split; [lra|]. split; [lra|].
  apply (flow_arrows_spec relax_num 1 (-2) 2 27 40); lra.
Defined.

(** ** Self-tests and the critical parameter after a run *)

Lemma find_equilibria_poly_window (np_roots : list Q -> list (Q * Q)) (F : Field)
    (r a b c d : Q) :
  poly_roots_real np_roots F r <> Ok None ->
  find_equilibria np_roots F r a b = find_equilibria np_roots F r c d.
Proof.
  intros H. unfold find_equilibria.
  destruct (poly_roots_real np_roots F r) as [[l|]|e]; [reflexivity|congruence|reflexivity].
Qed.

(** A self-test whose sweep (window [[-2, 2]]) and re-solves (window
    [[x_min, x_max]]) find the same equilibria at the samples labels every
    event pitchfork, saddle-node or unclassified. *)
Lemma self_test_labels (np_roots : list Q -> list (Q * Q)) (F : Field) (x_min x_max : Q)
    (eqs : list (list Q)) (r_bif : Q) (t : BifType) :
  let r_vals := linspace (-0.1) 0.1 21 in
  (forall r, In r r_vals ->
     find_equilibria np_roots F r (-2) 2 = find_equilibria np_roots F r x_min x_max) ->
  sweep_equilibria np_roots F (-2) 2 r_vals = Ok eqs ->
  In (r_bif, t) (detect_bifurcation_type np_roots F x_min x_max r_vals eqs) ->
  t = Horquilla \/ t = SillaNodo \/ t = NoClasificada.
Proof.
  intros r_vals Hw Hs Hin.
  rewrite (detect_on_sweep np_roots F (-2) 2 x_min x_max r_vals eqs Hs) in Hin.
  apply in_map_iff in Hin. destruct Hin as [[r1 r2] [E Hq]].
  injection E as _ <-. apply filter_In in Hq. destruct Hq as [Hq Hc].
  cbn [fst snd] in *. apply negb_true_iff, Nat.eqb_neq in Hc.
  destruct (In_adjacent _ _ _ Hq) as [I1 I2].
  destruct (sweep_equilibria_in _ _ _ _ _ _ r1 Hs I1) as [l1 E1].
  destruct (sweep_equilibria_in _ _ _ _ _ _ r2 Hs I2) as [l2 E2].
  unfold eq_count in Hc. rewrite E1, E2 in Hc.
  rewrite (Hw r1 I1) in E1. rewrite (Hw r2 I2) in E2.
  rewrite (analyze_count_change _ _ _ _ _ _ _ l1 l2 E1 E2 Hc).
  destruct (find_equilibria np_roots F ((r1 + r2) / 2) x_min x_max); [|right; right; reflexivity].
  destruct (_ || _); [left|right; left]; reflexivity.
Qed.

(** [_test_transcritical] never passes when the application's window is
    the sweep's window [[-2, 2]], or when [f_test] is a polynomial in [x]
    that is not close to [0] at any [r] (so the roots do not depend on the
    window): the detector labels every event pitchfork, saddle-node or
    unclassified, and none of these labels contains ["transcrítica"]. *)
Theorem test_transcritical_never_passes :
  forall (np_roots : list Q -> list (Q * Q)) (F : Field) (x_min x_max : Q),
    (x_min = -2 /\ x_max = 2) \/ (forall r, poly_roots_real np_roots F r <> Ok None) ->
    self_test_passes np_roots F x_min x_max transcritical_wanted = false.
Proof.
  intros np_roots F x_min x_max Hw. unfold self_test_passes.
  destruct (sweep_equilibria np_roots F (-2) 2 (linspace (-0.1) 0.1 21)) as [eqs|e] eqn:Hs;
    [|reflexivity].
  apply not_true_iff_false. rewrite existsb_exists.
  intros [[r_bif t] [Hin Hp]].
  assert (Hw' : forall r, In r (linspace (-0.1) 0.1 21) ->
                find_equilibria np_roots F r (-2) 2 = find_equilibria np_roots F r x_min x_max).
  { intros r _. destruct Hw as [[-> ->]|Hp'];
      [reflexivity|apply find_equilibria_poly_window; apply Hp']. }
  destruct (self_test_labels np_roots F x_min x_max eqs r_bif t Hw' Hs Hin) as [->|[->| ->]];
    rewrite andb_true_iff in Hp; destruct Hp as [_ Hp]; vm_compute in Hp; discriminate Hp.
Qed.

Lemma test_transcritical_never_passes_witness :
  ((-2 : Q) = -2 /\ (2 : Q) = 2) /\
  self_test_passes np_roots_upto2 transcritical_field (-2) 2 transcritical_wanted = false.
Proof.
  split; [split; reflexivity|].
  apply (test_transcritical_never_passes np_roots_upto2 transcritical_field (-2) 2).
  left. split; reflexivity.
Defined.

(** The possible values of [_detect_critical_r]: [0.0], [r_min] or the
    middle sample [Rs[len(Rs) // 2]]; a point between two samples is never
    returned. *)
Theorem detect_critical_r_values :
  forall (last_Rs : option (list Q)) (last_roots_list : option (list (list Q)))
         (last_stabs_list : option (list (list Stab))) (r_min r_max : Q),
    let v := detect_critical_r last_Rs last_roots_list last_stabs_list r_min r_max in
    v = 0 \/ v = r_min \/
    exists Rs, last_Rs = Some Rs /\ nth_error Rs (Nat.div (length Rs) 2) = Some v.
Proof.
  intros last_Rs rl sl r_min r_max v. subst v. unfold detect_critical_r.
  destruct rl as [[|r0 rl]|]; [right; left; reflexivity| |right; left; reflexivity].
  destruct (find _ _) as [i|]; [rewrite critical_at_none; left; reflexivity|].
  destruct sl as [sl|]; [|left; reflexivity].
  destruct (find _ _) as [i|]; [rewrite critical_at_none; left; reflexivity|].
  destruct last_Rs as [Rs|]; [|left; reflexivity].
  destruct (nth_error Rs (Nat.div (length Rs) 2)) as [w|] eqn:E; [|left; reflexivity].
  right; right. exists Rs. split; [reflexivity|exact E].
Qed.

Lemma map_ne_In {A B} (f : A -> B) (l : list A) : map f l <> [] -> exists x, In x l.
Proof.
  destruct l as [|a l]; [intros H; contradiction H; reflexivity|].
  intros _. exists a. left. reflexivity.
Qed.

Lemma adjacent_map {A B} (f : A -> B) (l : list A) :
  adjacent (map f l) = map (fun q => (f (fst q), f (snd q))) (adjacent l).
Proof.
  induction l as [|a l IH]; [reflexivity|].
  destruct l as [|b l]; [reflexivity|].
  change (adjacent (map f (a :: b :: l))) with ((f a, f b) :: adjacent (map f (b :: l))).
  rewrite IH. reflexivity.
Qed.

(** After a run of [compute_and_plot] that reports a bifurcation,
    [_detect_critical_r] (used by the step-by-step view) returns [0.0]. *)
Theorem compute_and_plot_critical_r :
  forall (np_roots : list Q -> list (Q * Q)) (F : Field) (fx : Q -> Q -> SymVal)
         (plot_f : Q -> Res unit) (f_eval : Q -> Q -> Res PyFloat)
         (parsed : option Z) (phase_parsed : option (list Q)) (r_min r_max x_min x_max : Q)
         (p : PlotResult),
    compute_and_plot np_roots F fx plot_f f_eval parsed phase_parsed r_min r_max x_min x_max
      = Ok p ->
    p_bifs p <> [] ->
    detect_critical_r (Some (p_Rs p)) (Some (p_roots p)) (Some (p_stabs p)) r_min r_max = 0.
Proof.
  intros np_roots F fx plot_f f_eval parsed phase_parsed r_min r_max x_min x_max p H Hne.
  destruct (compute_and_plot_ok _ _ _ _ _ _ _ _ _ _ _ _ H) as [_ [_ [Hc [_ [Hb _]]]]].
  destruct (compute_sweep_ok _ _ _ _ _ _ _ _ Hc) as [Hsw _].
  rewrite Hb, (detect_on_sweep _ _ _ _ _ _ _ _ Hsw) in Hne.
  destruct (map_ne_In _ _ Hne) as [[r1 r2] Hin].
  apply filter_In in Hin. destruct Hin as [Hin Hcnt].
  cbn [fst snd] in Hcnt. apply negb_true_iff, Nat.eqb_neq in Hcnt.
  set (cnt := fun r => eq_count np_roots F r x_min x_max).
  assert (Hl : In (cnt r1, cnt r2) (adjacent (map (@length Q) (p_roots p)))).
  { rewrite (sweep_equilibria_lengths _ _ _ _ _ _ Hsw), adjacent_map.
    apply (in_map (fun q => (cnt (fst q), cnt (snd q))) _ (r1, r2)). exact Hin. }
  rewrite adjacent_map in Hl. apply in_map_iff in Hl.
  destruct Hl as [[e1 e2] [E He]]. cbn [fst snd] in E. injection E as E1 E2.
  apply (critical_r_of_count_change _ _ _ _ _ e1 e2 He).
  rewrite E1, E2. exact Hcnt.
Qed.

Lemma compute_and_plot_critical_r_witness :
  exists p,
    compute_and_plot np_roots_upto2 saddle_field saddle_fx (fun _ => Ok tt)
      (fun x r => Ok (Fin (r + x * x))) (Some 3%Z) None (-1) 1 (-2) 2 = Ok p /\
    p_bifs p <> [] /\
    detect_critical_r (Some (p_Rs p)) (Some (p_roots p)) (Some (p_stabs p)) (-1) 1 = 0.
Proof.
  eexists. split; [vm_compute; reflexivity|]. split; [vm_compute; discriminate|].
  apply (compute_and_plot_critical_r np_roots_upto2 saddle_field saddle_fx (fun _ => Ok tt)
           (fun x r => Ok (Fin (r + x * x))) (Some 3%Z) None (-1) 1 (-2) 2);
    [vm_compute; reflexivity|vm_compute; discriminate].
Defined.

(** ** Root counts, exceptions and the range of the events *)


Lemma nsolve_seed_length (F : Field) (r_val x_min x_max : Q) (n : nat) (s : Q) :
  (length (nsolve_seed F r_val x_min x_max n s) <= 1)%nat.
Proof.
  unfold nsolve_seed.
  destruct (nsolve_pt F r_val s) as [sol|]; [destruct (in_window _ _ _); simpl; lia|].
  destruct (nsolve_br F r_val s _) as [sol|]; [destruct (in_window _ _ _); simpl; lia|].
  simpl. lia.
Qed.

Lemma flat_map_length_le {A B} (f : A -> list B) (l : list A) :
  (forall a, length (f a) <= 1)%nat -> (length (flat_map f l) <= length l)%nat.
Proof.
  intros Hf. induction l as [|a l IH]; [simpl; lia|].
  simpl. rewrite length_app. pose proof (Hf a). lia.
Qed.

Lemma dedup_from_length (tol last : Q) (vs : list Q) :
  (length (dedup_from tol last vs) <= length vs)%nat.
Proof.
  revert last. induction vs as [|v vs IH]; intros last; [simpl; lia|].
  cbn [dedup_from length]. pose proof (IH v). pose proof (IH last).
  destruct (Qltb tol (Qabs (v - last))); cbn [length]; lia.
Qed.

Lemma unique_sorted_length (tol : Q) (vals : list Q) :
  (length (unique_sorted tol vals) <= length vals)%nat.
Proof.
  rewrite (Permutation_length (sortQ_perm vals)). unfold unique_sorted.
  destruct (sortQ vals) as [|v vs]; [simpl; lia|].
  simpl. pose proof (dedup_from_length tol v vs). lia.
Qed.

(** When the polynomial path fails, [find_equilibria] returns at most 31
    roots: each of the 31 seeds of [nsolve_roots] contributes at most one
    solution, and deduplication and clamping never add any. *)
Theorem find_equilibria_numeric_count :
  forall (np_roots : list Q -> list (Q * Q)) (F : Field) (r_val x_min x_max : Q),
    poly_roots_real np_roots F r_val = Ok None ->
    exists roots, find_equilibria np_roots F r_val x_min x_max = Ok roots /\
                  (length roots <= 31)%nat.
Proof.
  intros np_roots F r_val x_min x_max H.
  unfold find_equilibria. rewrite H. eexists. split; [reflexivity|].
  unfold nsolve_roots. rewrite length_map.
  eapply Nat.le_trans; [apply unique_sorted_length|].
  eapply Nat.le_trans; [apply flat_map_length_le; apply nsolve_seed_length|].
  rewrite linspace_length. lia.
Qed.

Lemma find_equilibria_numeric_count_witness :
  poly_roots_real np_roots_upto2 close_roots_field 0 = Ok None /\
  exists roots, find_equilibria np_roots_upto2 close_roots_field 0 (-1) 1 = Ok roots /\
                (length roots <= 31)%nat.
Proof.
  split; [vm_compute; reflexivity|].
  apply (find_equilibria_numeric_count np_roots_upto2 close_roots_field 0 (-1) 1).
  vm_compute. reflexivity.
Defined.

Lemma stability_fx_raise (fx : Q -> Q -> SymVal) (x r : Q) :
  (exists e, stability_fx fx x r = Raise e) <-> raises_float (fx x r).
Proof.
  unfold stability_fx, py_float, raises_float.
  destruct (fx x r) as [q|b| |re im| |]; cbn.
  - split; [intros [e H]|intros [[re [im H]]|[H|H]]]; try discriminate.
    destruct (Qltb q 0); [discriminate|]. destruct (Qltb 0 q); discriminate.
  - split; [intros [e H]; discriminate|intros [[re [im H]]|[H|H]]; discriminate].
  - split; [intros [e H]; discriminate|intros [[re [im H]]|[H|H]]; discriminate].
  - split; [intros _; left; exists re, im; reflexivity|intros _; exists TypeError; reflexivity].
  - split; [intros _; right; left; reflexivity|intros _; exists TypeError; reflexivity].
  - split; [intros _; right; right; reflexivity|intros _; exists TypeError; reflexivity].
Qed.

Lemma stability_fx_exc (fx : Q -> Q -> SymVal) (x r : Q) (e : PyExc) :
  stability_fx fx x r = Raise e -> e = TypeError.
Proof.
  unfold stability_fx, py_float.
  destruct (fx x r) as [q|b| |re im| |]; cbn; intros H;
    try (injection H as <-; reflexivity); try discriminate.
  destruct (Qltb q 0); [discriminate|]. destruct (Qltb 0 q); discriminate.
Qed.

Lemma stab_labels_raise (fx : Q -> Q -> SymVal) (rv : Q) (roots : list Q) :
  (exists e, stab_labels fx rv roots = Raise e) <->
  exists x, In x roots /\ raises_float (fx x rv).
Proof.
  induction roots as [|x xs IH]; cbn [stab_labels In].
  - split; [intros [e H]; discriminate|intros [x [[] _]]].
  - pose proof (stability_fx_raise fx x rv) as Hx.
    destruct (stability_fx fx x rv) as [[stab v]|e] eqn:Es.
    + destruct (stab_labels fx rv xs) as [l|e] eqn:El.
      * split; [intros [e H]; discriminate|].
        intros [y [[<-|Hy] Hr]].
        -- destruct (proj2 Hx Hr) as [e H]. discriminate.
        -- destruct (proj2 IH (ex_intro _ y (conj Hy Hr))) as [e H']. discriminate.
      * split; [intros _|intros _; exists e; reflexivity].
        destruct (proj1 IH (ex_intro _ e eq_refl)) as [y [Hy Hr]].
        exists y. split; [right; exact Hy|exact Hr].
    + split; [intros _|intros _; exists e; reflexivity].
      exists x. split; [left; reflexivity|apply Hx; exists e; reflexivity].
Qed.

Lemma stab_labels_exc (fx : Q -> Q -> SymVal) (rv : Q) (roots : list Q) (e : PyExc) :
  stab_labels fx rv roots = Raise e -> e = TypeError.
Proof.
  induction roots as [|x xs IH]; cbn [stab_labels]; [discriminate|].
  destruct (stability_fx fx x rv) as [[stab v]|e'] eqn:Es.
  - destruct (stab_labels fx rv xs) as [l|e'] eqn:El; [discriminate|].
    intros H. injection H as <-. apply IH. reflexivity.
  - intros H. injection H as <-. exact (stability_fx_exc fx x rv e' Es).
Qed.

Lemma find_equilibria_raise (np_roots : list Q -> list (Q * Q)) (F : Field)
    (r a b : Q) (e : PyExc) :
  find_equilibria np_roots F r a b = Raise e -> e = LinAlgError.
Proof.
  unfold find_equilibria.
  destruct (poly_roots_real np_roots F r) as [[l|]|e'] eqn:E; try discriminate.
  intros H. injection H as <-. exact (proj1 (poly_roots_real_raise _ _ _ _ E)).
Qed.

(** The sweep of [compute_and_plot] raises exactly when, at some sample,
    [find_equilibria] raises or [f_x] is not convertible by [float()] at
    one of the equilibria found; the exception is numpy's [LinAlgError] or
    the [TypeError] of [float()]. *)
Lemma compute_sweep_raise (np_roots : list Q -> list (Q * Q)) (F : Field)
    (fx : Q -> Q -> SymVal) (x_min x_max : Q) (Rs : list Q) :
  (exists e, compute_sweep np_roots F fx x_min x_max Rs = Raise e) <->
  exists rv, In rv Rs /\
    ((exists e, find_equilibria np_roots F rv x_min x_max = Raise e) \/
     exists roots x, find_equilibria np_roots F rv x_min x_max = Ok roots /\ In x roots /\
                     raises_float (fx x rv)).
Proof.
  induction Rs as [|rv Rs IH]; cbn [compute_sweep In].
  - split; [intros [e H]; discriminate|intros [rv [[] _]]].
  - destruct (find_equilibria np_roots F rv x_min x_max) as [roots|e] eqn:Ef.
    + pose proof (stab_labels_raise fx rv roots) as Hs.
      destruct (stab_labels fx rv roots) as [stabs|e] eqn:Es.
      * destruct (compute_sweep np_roots F fx x_min x_max Rs) as [[rl sl]|e] eqn:Ec.
        -- split; [intros [e H]; discriminate|].
           intros [rv' [[<-|Hr] Hx]].
           ++ rewrite Ef in Hx.
              destruct Hx as [[e H]|[roots' [x [H [Hx Hf]]]]]; [discriminate|].
              injection H as <-.
              destruct (proj2 Hs (ex_intro _ x (conj Hx Hf))) as [e H]. discriminate.
           ++ destruct (proj2 IH (ex_intro _ rv' (conj Hr Hx))) as [e H]. discriminate.
        -- split; [intros _|intros _; exists e; reflexivity].
           destruct (proj1 IH (ex_intro _ e eq_refl)) as [rv' [Hr Hx]].
           exists rv'. split; [right; exact Hr|exact Hx].
      * split; [intros _|intros _; exists e; reflexivity].
        destruct (proj1 Hs (ex_intro _ e eq_refl)) as [x [Hx Hf]].
        exists rv. split; [left; reflexivity|].
        right. exists roots, x. split; [exact Ef|split; assumption].
    + split; [intros _|intros _; exists e; reflexivity].
      exists rv. split; [left; reflexivity|left; exists e; exact Ef].
Qed.

Lemma compute_sweep_exc (np_roots : list Q -> list (Q * Q)) (F : Field)
    (fx : Q -> Q -> SymVal) (x_min x_max : Q) (Rs : list Q) (e : PyExc) :
  compute_sweep np_roots F fx x_min x_max Rs = Raise e -> e = LinAlgError \/ e = TypeError.
Proof.
  induction Rs as [|rv Rs IH]; cbn [compute_sweep]; [discriminate|].
  destruct (find_equilibria np_roots F rv x_min x_max) as [roots|e'] eqn:Ef.
  - destruct (stab_labels fx rv roots) as [stabs|e'] eqn:Es.
    + destruct (compute_sweep np_roots F fx x_min x_max Rs) as [[rl sl]|e'];
        [discriminate|].
      intros H. injection H as <-. apply IH. reflexivity.
    + intros H. injection H as <-. right. exact (stab_labels_exc _ _ _ _ Es).
  - intros H. injection H as <-. left. exact (find_equilibria_raise _ _ _ _ _ _ Ef).
Qed.

(** Once the sample count is known, [compute_and_plot] raises when its
    sweep does, with the same exception: the sweep raises exactly when, at
    some grid sample, [find_equilibria] raises (numpy's [LinAlgError]) or
    [f_x] evaluates to a non-real or non-numeric value at an equilibrium
    found there ([TypeError] of [float()] in [stability_fx]); neither is
    caught. *)
Theorem compute_and_plot_raises :
  forall (np_roots : list Q -> list (Q * Q)) (F : Field) (fx : Q -> Q -> SymVal)
         (plot_f : Q -> Res unit) (f_eval : Q -> Q -> Res PyFloat)
         (parsed : option Z) (phase_parsed : option (list Q)) (r_min r_max x_min x_max : Q)
         (s : Z),
    r_steps_value parsed r_min r_max = Ok s ->
    ((exists e, compute_sweep np_roots F fx x_min x_max
                  (linspace r_min r_max (Z.to_nat s)) = Raise e) <->
     exists rv, In rv (linspace r_min r_max (Z.to_nat s)) /\
       ((exists e, find_equilibria np_roots F rv x_min x_max = Raise e) \/
        exists roots x, find_equilibria np_roots F rv x_min x_max = Ok roots /\ In x roots /\
                        raises_float (fx x rv))) /\
    (forall e, compute_sweep np_roots F fx x_min x_max (linspace r_min r_max (Z.to_nat s))
                 = Raise e ->
       compute_and_plot np_roots F fx plot_f f_eval parsed phase_parsed r_min r_max x_min x_max
         = Raise e /\ (e = LinAlgError \/ e = TypeError)).
Proof.
  intros np_roots F fx plot_f f_eval parsed phase_parsed r_min r_max x_min x_max s Hs.
  split; [apply compute_sweep_raise|].
  intros e Hc. split; [|exact (compute_sweep_exc _ _ _ _ _ _ _ Hc)].
  unfold compute_and_plot, res_bind. rewrite Hs. cbv beta iota zeta.
  rewrite Hc. reflexivity.
Qed.

Lemma compute_and_plot_raises_witness :
  r_steps_value (Some 3%Z) (-1) 1 = Ok 3%Z /\
  ((exists e, compute_sweep np_roots_upto2 saddle_field inv_x_fx (-2) 2
                (linspace (-1) 1 (Z.to_nat 3)) = Raise e) <->
   exists rv, In rv (linspace (-1) 1 (Z.to_nat 3)) /\
     ((exists e, find_equilibria np_roots_upto2 saddle_field rv (-2) 2 = Raise e) \/
      exists roots x, find_equilibria np_roots_upto2 saddle_field rv (-2) 2 = Ok roots /\
                      In x roots /\ raises_float (inv_x_fx x rv))) /\
  (forall e, compute_sweep np_roots_upto2 saddle_field inv_x_fx (-2) 2
               (linspace (-1) 1 (Z.to_nat 3)) = Raise e ->
     compute_and_plot np_roots_upto2 saddle_field inv_x_fx (fun _ => Ok tt)
       (fun x r => Ok (Fin (r + x * x))) (Some 3%Z) None (-1) 1 (-2) 2 = Raise e /\
     (e = LinAlgError \/ e = TypeError)).
Proof.
  split; [vm_compute; reflexivity|].
  apply (compute_and_plot_raises np_roots_upto2 saddle_field inv_x_fx (fun _ => Ok tt)
           (fun x r => Ok (Fin (r + x * x))) (Some 3%Z) None (-1) 1 (-2) 2 3%Z).
  vm_compute. reflexivity.
Defined.


Lemma nth_map_lt {A B} (f : A -> B) (l : list A) (i : nat) (d : B) (d' : A) :
  (i < length l)%nat -> nth i (map f l) d = f (nth i l d').
Proof.
  intros Hi. rewrite (nth_indep _ d (f d')) by (rewrite length_map; exact Hi).
  apply map_nth.
Qed.

Lemma linspace_nth (a b : Q) (m i : nat) :
  (i < S m)%nat ->
  nth i (linspace a b (S (S m))) 0 =
  a + inject_Z (Z.of_nat i) * ((b - a) / inject_Z (Z.of_nat (S m))).
Proof.
  intros Hi. unfold linspace.
  rewrite app_nth1 by (rewrite length_map, length_seq; exact Hi).
  rewrite (nth_map_lt _ _ _ _ 0%nat) by (rewrite length_seq; exact Hi).
  rewrite seq_nth by exact Hi. reflexivity.
Qed.

Lemma linspace_nth_last (a b : Q) (m : nat) : nth (S m) (linspace a b (S (S m))) 0 = b.
Proof.
  unfold linspace. rewrite app_nth2 by (rewrite length_map, length_seq; lia).
  rewrite length_map, length_seq, Nat.sub_diag. reflexivity.
Qed.

Lemma inject_nat_nonneg (i : nat) : 0 <= inject_Z (Z.of_nat i).
Proof. change 0 with (inject_Z 0). rewrite <- Zle_Qle. lia. Qed.

Lemma inject_nat_le (i j : nat) : (i <= j)%nat -> inject_Z (Z.of_nat i) <= inject_Z (Z.of_nat j).
Proof. intros H. rewrite <- Zle_Qle. lia. Qed.

Lemma inject_nat_succ (i : nat) : inject_Z (Z.of_nat (S i)) == inject_Z (Z.of_nat i) + 1.
Proof. rewrite Nat2Z.inj_succ. unfold Z.succ. rewrite inject_Z_plus. reflexivity. Qed.

(** Consecutive samples of [np.linspace(a, b, n)] with [a < b] increase and
    stay within [[a, b]]. *)
Lemma linspace_adjacent (a b : Q) (n : nat) (r1 r2 : Q) :
  a < b -> In (r1, r2) (adjacent (linspace a b n)) -> a <= r1 /\ r1 < r2 /\ r2 <= b.
Proof.
  intros Hab Hin.
  destruct n as [|[|m]]; [destruct Hin|destruct Hin|].
  destruct (In_adjacent_nth _ 0 r1 r2 Hin) as [i [Hi [H1 H2]]].
  rewrite linspace_length in Hi.
  set (M := inject_Z (Z.of_nat (S m))).
  set (s := (b - a) / M).
  assert (HM : 1 <= M) by (unfold M; apply (inject_nat_le 1); lia).
  assert (HsM : s * M == b - a) by (unfold s; field; lra).
  assert (Hs : 0 < s) by (unfold s; apply Qlt_shift_div_l; lra).
  pose proof (inject_nat_nonneg i) as HI.
  assert (HI1 : inject_Z (Z.of_nat i) + 1 <= M).
  { rewrite <- inject_nat_succ. apply inject_nat_le. lia. }
  rewrite (linspace_nth a b m i) in H1 by lia. fold M s in H1. subst r1.
  destruct (Nat.eq_dec (S i) (S m)) as [E|E].
  - rewrite E, linspace_nth_last in H2. subst r2.
    injection E as ->. fold M in HI1.
    split; [nra|]. split; [nra|lra].
  - rewrite (linspace_nth a b m (S i)) in H2 by lia. fold M s in H2. subst r2.
    rewrite inject_nat_succ.
    split; [nra|]. split; nra.
Qed.

(** With [r_min < r_max], every bifurcation reported by [compute_and_plot]
    lies strictly inside [(r_min, r_max)]. *)
Theorem compute_and_plot_events_inside :
  forall (np_roots : list Q -> list (Q * Q)) (F : Field) (fx : Q -> Q -> SymVal)
         (plot_f : Q -> Res unit) (f_eval : Q -> Q -> Res PyFloat)
         (parsed : option Z) (phase_parsed : option (list Q)) (r_min r_max x_min x_max : Q)
         (p : PlotResult),
    compute_and_plot np_roots F fx plot_f f_eval parsed phase_parsed r_min r_max x_min x_max
      = Ok p ->
    r_min < r_max ->
    forall r_bif t, In (r_bif, t) (p_bifs p) -> r_min < r_bif /\ r_bif < r_max.
Proof.
  intros np_roots F fx plot_f f_eval parsed phase_parsed r_min r_max x_min x_max p H Hr
    r_bif t Hin.
  destruct (compute_and_plot_ok _ _ _ _ _ _ _ _ _ _ _ _ H) as [_ [HR [Hc [_ [Hb _]]]]].
  destruct (compute_sweep_ok _ _ _ _ _ _ _ _ Hc) as [Hsw _].
  rewrite Hb, (detect_on_sweep _ _ _ _ _ _ _ _ Hsw) in Hin.
  apply in_map_iff in Hin. destruct Hin as [[r1 r2] [E Hq]].
  injection E as E _. cbn [fst snd] in E. subst r_bif.
  apply filter_In in Hq. destruct Hq as [Hq _].
  rewrite HR in Hq.
  destruct (linspace_adjacent r_min r_max _ r1 r2 Hr Hq) as [H1 [H2 H3]].
  split.
  - apply Qlt_shift_div_l; lra.
  - apply Qlt_shift_div_r; lra.
Qed.

Lemma compute_and_plot_events_inside_witness :
  exists p,
    compute_and_plot np_roots_upto2 saddle_field saddle_fx (fun _ => Ok tt)
      (fun x r => Ok (Fin (r + x * x))) (Some 3%Z) None (-1) 1 (-2) 2 = Ok p /\
    -1 < 1 /\
    forall r_bif t, In (r_bif, t) (p_bifs p) -> -1 < r_bif /\ r_bif < 1.
Proof.
  eexists. split; [vm_compute; reflexivity|]. split; [lra|].
  apply (compute_and_plot_events_inside np_roots_upto2 saddle_field saddle_fx (fun _ => Ok tt)
           (fun x r => Ok (Fin (r + x * x))) (Some 3%Z) None (-1) 1 (-2) 2);
    [vm_compute; reflexivity|lra].
Defined.
